(** * Region-processing pipeline of the OCR backend

    A shallow embedding of the asynchronous OCR pipeline:
    [utils/retryUtils.ts] (retry with exponential backoff, timeout race),
    [services/imageProcessingService.ts] (region validation and cropping),
    [services/geminiService.ts] (error classification of the vision call) and
    [controllers/ocrController.ts] (session store, batch dispatcher, status
    endpoint); with them the batch entry point of the vision service, the
    naming of uploaded files ([utils/pathUtils.ts], [middleware/upload.ts],
    the upload controller) and the stop condition of the polling client
    ([hooks/useOCRProcessing.ts]).

    Conventions of the embedding.
    - JavaScript numbers that the code uses as integers (milliseconds, pixel
      coordinates, attempt counters) are [Z]; the result of [parseInt], which
      may be [NaN], is a [JsNum].
    - Asynchronous code runs on a logical clock in milliseconds: a promise is
      the time at which it settles together with its outcome.  The outside
      world (file system, image library, vision backend) is an explicit
      oracle that says how long each awaited call takes and how it ends.
    - Mutations of the session store are events on that clock; the store at
      time [t] is obtained by replaying, in time order, the events up to [t].
    - A string is the sequence of its UTF-16 code units, each below 256
      (Latin-1 text); in that range the white space and line terminators of
      JavaScript are the code units 9 to 13, 32 and 160. *)

From Stdlib Require Import ZArith String Ascii Lia DecimalString Sorted.
From stdpp Require Import gmap strings list sorting.

Local Open Scope string_scope.
Local Open Scope list_scope.
Local Open Scope stdpp_scope.
Local Open Scope Z_scope.

(** ** JavaScript values *)

Module Js.

(** A number as returned by [parseInt]: an integer or [NaN]. *)
Inductive JsNum : Type :=
| NaN
| Num (z : Z).

(** The values a [retryable] field can hold: [x && y] yields [x] when [x]
    is falsy, so the field is not always a boolean. *)
Inductive JsVal : Type :=
| JUndefined
| JBool (b : bool)
| JStr (s : string).

(** [v === true] and [v === false]. *)
Definition strictly_true (v : JsVal) : bool :=
  match v with JBool true => true | _ => false end.

Definition strictly_false (v : JsVal) : bool :=
  match v with JBool false => true | _ => false end.

(** [s || d] for an optional string: [undefined] and [''] are falsy. *)
Definition or_default (s : option string) (d : string) : string :=
  match s with
  | Some v => if String.eqb v "" then d else v
  | None => d
  end.

(** [s.startsWith(p)]. *)
Fixpoint startsWith (s p : string) : bool :=
  match p with
  | EmptyString => true
  | String c p' =>
      match s with
      | EmptyString => false
      | String d s' => Ascii.eqb c d && startsWith s' p'
      end
  end.

(** [s.includes(sub)]. *)
Fixpoint includes (s sub : string) : bool :=
  startsWith s sub ||
  match s with
  | EmptyString => false
  | String _ s' => includes s' sub
  end.

(** Decimal rendering of an integer inside a template literal. *)
Definition show (z : Z) : string := NilZero.string_of_int (Z.to_int z).

(** Rendering of an optional string inside a template literal. *)
Definition show_opt (s : option string) : string :=
  match s with Some v => v | None => "undefined" end.

(** Arithmetic and comparison with [NaN]. *)
Definition add (a b : JsNum) : JsNum :=
  match a, b with
  | Num x, Num y => Num (x + y)
  | _, _ => NaN
  end.

Definition lt (a b : JsNum) : bool :=
  match a, b with
  | Num x, Num y => x <? y
  | _, _ => false
  end.

(** [ToIntegerOrInfinity] on the numbers above. *)
Definition toInteger (a : JsNum) : Z :=
  match a with NaN => 0 | Num z => z end.

(** [Array.prototype.slice(start, end)], negative indices included. *)
Definition slice {A : Type} (l : list A) (start end_ : JsNum) : list A :=
  let len := Z.of_nat (length l) in
  let rel (i : Z) := if i <? 0 then Z.max (len + i) 0 else Z.min i len in
  let k := rel (toInteger start) in
  let final := rel (toInteger end_) in
  take (Z.to_nat (final - k)) (drop (Z.to_nat k) l).

(** What a [throw] can carry here: [undefined] (the unset [lastError]) or
    an error object with optional [code], [message] and [retryable]. *)
Record JsError : Type := mkError {
  code : option string;
  message : option string;
  retryable : JsVal;
}.

Inductive Thrown : Type :=
| TUndefined
| TErr (e : JsError).

Inductive Outcome (T : Type) : Type :=
| Resolved (v : T)
| Rejected (e : Thrown).
Arguments Resolved {T} v.
Arguments Rejected {T} e.

(** A promise on the logical clock. *)
Record Promise (T : Type) : Type := mkPromise {
  settledAt : Z;
  outcome : Outcome T;
}.
Arguments mkPromise {T} settledAt outcome.
Arguments settledAt {T} p.
Arguments outcome {T} p.

(** [Promise.race([p, q])]: the one that settles first wins.  When both
    settle at the same instant JavaScript lets the one win whose settling
    callback was registered first, which a promise reduced to its instant
    and outcome does not record; [race] then returns [p].  Every property
    that depends on the winner is stated for distinct instants. *)
Definition race {T : Type} (p q : Promise T) : Promise T :=
  if settledAt q <? settledAt p then q else p.

(** [Promise.all(ps)], created at instant [now]: rejected as soon as one
    member rejects (the earliest one, the first listed among equals),
    otherwise resolved once every member has resolved. *)
Fixpoint first_rejection {T : Type} (ps : list (Promise T)) : option (Z * Thrown) :=
  match ps with
  | [] => None
  | p :: rest =>
      match outcome p, first_rejection rest with
      | Rejected e, Some (t', e') =>
          if t' <? settledAt p then Some (t', e') else Some (settledAt p, e)
      | Rejected e, None => Some (settledAt p, e)
      | Resolved _, r => r
      end
  end.

Fixpoint resolved_values {T : Type} (ps : list (Promise T)) : list T :=
  match ps with
  | [] => []
  | p :: rest =>
      match outcome p with
      | Resolved v => v :: resolved_values rest
      | Rejected _ => resolved_values rest
      end
  end.

Definition all {T : Type} (now : Z) (ps : list (Promise T)) : Promise (list T) :=
  match first_rejection ps with
  | Some (t, e) => mkPromise t (Rejected e)
  | None => mkPromise (foldr Z.max now (map settledAt ps)) (Resolved (resolved_values ps))
  end.

(** The delay [setTimeout] really waits (Node.js): a delay that is [NaN],
    below 1 or above 2^31-1 is replaced by 1. *)
Definition timerDelay (ms : JsNum) : Z :=
  match ms with
  | NaN => 1
  | Num z => if (z <? 1) || (2147483647 <? z) then 1 else z
  end.

(** One awaited call to the outside world: how long it takes and how it
    ends. *)
Record Call (T : Type) : Type := mkCall {
  duration : N;
  response : Outcome T;
}.
Arguments mkCall {T} duration response.
Arguments duration {T} c.
Arguments response {T} c.

(** Awaiting such a call from instant [now]. *)
Definition await {T : Type} (now : Z) (c : Call T) : Promise T :=
  mkPromise (now + Z.of_N (duration c)) (response c).

(** White space and line terminators ([StrWhiteSpaceChar]) among the code
    units below 256: TAB, LF, VT, FF, CR, SP and NBSP. *)
Definition isSpace (c : ascii) : bool :=
  let n := nat_of_ascii c in
  (n =? 32)%nat || ((9 <=? n)%nat && (n <=? 13)%nat) || (n =? 160)%nat.

(** [s.trimStart()]. *)

Fixpoint trimStart (s : string) : string :=
  match s with
  | String c s' => if isSpace c then trimStart s' else s
  | EmptyString => s
  end.

Definition digitValue (radix : Z) (c : ascii) : option Z :=
  let n := Z.of_nat (nat_of_ascii c) in
  let v :=
    if (48 <=? n) && (n <=? 57) then Some (n - 48)
    else if (97 <=? n) && (n <=? 122) then Some (n - 87)
    else if (65 <=? n) && (n <=? 90) then Some (n - 55)
    else None in
  match v with
  | Some d => if d <? radix then Some d else None
  | None => None
  end.

Fixpoint parseDigits (radix : Z) (s : string) (acc : option Z) : option Z :=
  match s with
  | EmptyString => acc
  | String c s' =>
      match digitValue radix c with
      | Some d =>
          parseDigits radix s'
            (Some (match acc with Some a => a * radix + d | None => d end))
      | None => acc
      end
  end.

(** [parseInt(s)] without radix: leading white space, an optional sign, an
    optional [0x] prefix, then the longest run of digits; [NaN] when there
    is no digit.  (Values beyond 2^53 lose precision in JavaScript; the
    embedding keeps them exact.) *)
Definition parseInt (input : string) : JsNum :=
  let s := trimStart input in
  let '(sign, s) :=
    match s with
    | String "-" s' => (-1, s')
    | String "+" s' => (1, s')
    | _ => (1, s)
    end in
  let '(radix, s) :=
    match s with
    | String "0" (String "x" s') => (16, s')
    | String "0" (String "X" s') => (16, s')
    | _ => (10, s)
    end in
  match parseDigits radix s None with
  | Some v => Num (sign * v)
  | None => NaN
  end.

(** [s.trim()]: white space and line terminators removed at both ends. *)
Definition trim (s : string) : string :=
  let rev_string (x : string) :=
    string_of_list_ascii (rev (list_ascii_of_string x)) in
  rev_string (trimStart (rev_string (trimStart s))).

End Js.

(** ** utils/retryUtils.ts *)

Module RetryUtils.
Import Js.

Record RetryConfig : Type := mkRetryConfig {
  maxAttempts : Z;
  baseDelay : Z;
  maxDelay : Z;
  backoffMultiplier : Z;
  retryableErrors : list string;
}.

Definition DEFAULT_RETRY_CONFIG : RetryConfig :=
  {| maxAttempts := 3;
     baseDelay := 2000;
     maxDelay := 10000;
     backoffMultiplier := 2;
     retryableErrors :=
       [ "RESOURCE_EXHAUSTED"; "DEADLINE_EXCEEDED"; "UNAVAILABLE"; "INTERNAL";
         "ECONNRESET"; "ETIMEDOUT"; "ENOTFOUND" ] |}.

(** [attempt] is 1-based.  [Math.pow] and the product are computed in
    doubles: on an integer base and a non-negative integer exponent they are
    the integer power and product as long as these stay within 2^53.  Beyond
    that range JavaScript rounds, overflows to [Infinity], and [0 * Infinity]
    is [NaN], where the embedding keeps the exact integers.  For the default
    configuration the result is the same at every attempt (a power of two
    times 2000 is exact, and an overflow is capped by [maxDelay]); the
    properties that evaluate the delay of another configuration are stated
    within the range. *)
Definition calculateBackoffDelay (attempt : Z) (config : RetryConfig) : Z :=
  let delay := baseDelay config * backoffMultiplier config ^ (attempt - 1) in
  Z.min delay (maxDelay config).

Definition isRetryableError (error : Thrown) (config : RetryConfig) : bool :=
  match error with
  | TUndefined => false
  | TErr e =>
      if strictly_true (retryable e) then true
      else if strictly_false (retryable e) then false
      else
        let errorCode := or_default (code e) "" in
        let errorMessage := or_default (message e) "" in
        existsb
          (fun retryableError =>
             includes errorCode retryableError || includes errorMessage retryableError)
          (retryableErrors config)
  end.

(** What a run of [retryWithBackoff] did: the promise it returns, the
    attempts it made, the delays it slept and the [onRetry] notifications
    (time, attempt, error) it issued. *)
Record RetryRun (T : Type) : Type := mkRun {
  promise : Promise T;
  attempts : list Z;
  sleeps : list Z;
  notified : list (Z * Z * Thrown);
}.
Arguments mkRun {T} promise attempts sleeps notified.
Arguments promise {T} r.
Arguments attempts {T} r.
Arguments sleeps {T} r.
Arguments notified {T} r.

(** The [for] loop of [retryWithBackoff], [n] iterations before
    [attempt] exceeds [maxAttempts].  [fn k now] is the promise returned by
    the [k]-th invocation of the operation, started at instant [now]. *)
Fixpoint retry_loop {T : Type} (fn : Z -> Z -> Promise T) (config : RetryConfig)
    (n : nat) (attempt now : Z) (lastError : Thrown) : RetryRun T :=
  match n with
  | O => mkRun (mkPromise now (Rejected lastError)) [] [] []
  | S n' =>
      let p := fn attempt now in
      let t := settledAt p in
      match outcome p with
      | Resolved v => mkRun (mkPromise t (Resolved v)) [attempt] [] []
      | Rejected error =>
          if (attempt >=? maxAttempts config) || negb (isRetryableError error config)
          then mkRun (mkPromise t (Rejected error)) [attempt] [] []
          else
            let delay := calculateBackoffDelay attempt config in
            let rest :=
              retry_loop fn config n' (attempt + 1)
                         (t + timerDelay (Num delay)) error in
            mkRun (promise rest) (attempt :: attempts rest)
                  (delay :: sleeps rest) ((t, attempt, error) :: notified rest)
      end
  end.

Definition retryWithBackoff {T : Type} (fn : Z -> Z -> Promise T)
    (config : RetryConfig) (now : Z) : RetryRun T :=
  retry_loop fn config (Z.to_nat (maxAttempts config)) 1 now TUndefined.

Definition createTimeout {T : Type} (now : Z) (ms : JsNum) (message : option string)
    : Promise T :=
  mkPromise (now + timerDelay ms)
    (Rejected (TErr {| code := Some "TIMEOUT";
                       message := Some (match message with
                                        | Some m => m
                                        | None => "Operation timed out"
                                        end);
                       retryable := JBool true |})).

Definition withTimeout {T : Type} (now : Z) (promise : Promise T) (timeoutMs : JsNum)
    (timeoutMessage : option string) : Promise T :=
  race promise (createTimeout now timeoutMs timeoutMessage).

End RetryUtils.

(** ** types/index.ts *)

Module Types.

Definition Buffer : Type := list Byte.byte.

Record Region : Type := mkRegion {
  id : string;
  x : Z;
  y : Z;
  width : Z;
  height : Z;
  color : string;
  label : option string;
}.

Record OCRError : Type := mkOCRError {
  code : string;
  message : string;
  retryable : bool;
}.

Record OCRResult : Type := mkOCRResult {
  regionId : string;
  text : string;
  processingTime : Z;
  error : option OCRError;
}.

Inductive Status : Type := pending | processing | completed | failed.

Record OCRSession : Type := mkSession {
  sessionId : string;
  imageId : string;
  regions : list Region;
  results : list OCRResult;
  status : Status;
  createdAt : Z;
  completedAt : option Z;
}.

Record GeminiConfig : Type := mkGeminiConfig {
  apiKey : string;
  model : string;
  timeout : Js.JsNum;
}.

Record VisionRequest : Type := mkVisionRequest {
  image : Buffer;
  prompt : string;
}.

End Types.

(** ** services/imageProcessingService.ts *)

Module ImageProcessingService.
Import Js Types.

Record ProcessedRegion : Type := mkProcessedRegion {
  regionId : string;
  imageBuffer : Buffer;
  mimeType : string;
}.

(** The image library: for a path, the [width] and [height] of its
    metadata (each possibly undefined); the pixels of a rectangle
    (left, top, width, height); the grayscale-normalize-sharpen chain. *)
Record Sharp : Type := mkSharp {
  metadata : string -> Call (option Z * option Z);
  extract : string -> Z -> Z -> Z -> Z -> Call Buffer;
  enhance : Buffer -> Call Buffer;
}.

(** [Math.round] is the identity on the integer coordinates of the
    embedding. *)
Definition round (z : Z) : Z := z.

(** [for (const region of regions)] of [cropRegions]; the extractions are
    awaited one after the other. *)
Fixpoint crop_loop (sharp : Sharp) (imagePath : string) (regions : list Region)
    (now : Z) (processedRegions : list ProcessedRegion)
    : Promise (list ProcessedRegion) :=
  match regions with
  | [] => mkPromise now (Resolved processedRegions)
  | region :: rest =>
      let p := await now (extract sharp imagePath (round (x region)) (round (y region))
                                  (round (width region)) (round (height region))) in
      match outcome p with
      | Resolved croppedBuffer =>
          crop_loop sharp imagePath rest (settledAt p)
            (processedRegions ++
               [ {| regionId := id region;
                    imageBuffer := croppedBuffer;
                    mimeType := "image/png" |} ])
      | Rejected _ =>
          mkPromise (settledAt p)
            (Rejected (TErr (mkError None
                               (Some ("Failed to process region " +:+ id region))
                               JUndefined)))
      end
  end.

Definition cropRegions (sharp : Sharp) (imagePath : string) (regions : list Region)
    (now : Z) : Promise (list ProcessedRegion) :=
  crop_loop sharp imagePath regions now [].

Record Validation : Type := mkValidation {
  valid : bool;
  errors : list string;
}.

(** Body of the [for] loop of [validateRegions]: the four checks, each
    pushing onto [errors]. *)
Definition check_region (imageWidth imageHeight : Z) (errors : list string)
    (region : Region) : list string :=
  let errors :=
    if (x region <? 0) || (y region <? 0)
    then errors ++ ["Region " +:+ id region +:+ " has negative coordinates"]
    else errors in
  let errors :=
    if x region + width region >? imageWidth
    then errors ++ ["Region " +:+ id region +:+ " extends beyond image width"]
    else errors in
  let errors :=
    if y region + height region >? imageHeight
    then errors ++ ["Region " +:+ id region +:+ " extends beyond image height"]
    else errors in
  if (width region <? 10) || (height region <? 10)
  then errors ++ ["Region " +:+ id region +:+ " is too small (minimum 10x10 pixels)"]
  else errors.

(** [!n] for an optional number: [undefined] and [0] are falsy. *)
Definition falsy (n : option Z) : bool :=
  match n with
  | None => true
  | Some z => z =? 0
  end.

Definition validateRegions (sharp : Sharp) (imagePath : string)
    (regions : list Region) (now : Z) : Promise Validation :=
  let p := await now (metadata sharp imagePath) in
  match outcome p with
  | Resolved (mw, mh) =>
      if falsy mw || falsy mh
      then mkPromise (settledAt p)
             (Resolved (mkValidation false ["Unable to read image dimensions"]))
      else
        let errors :=
          fold_left (check_region (default 0 mw) (default 0 mh)) regions [] in
        mkPromise (settledAt p)
          (Resolved (mkValidation (Nat.eqb (length errors) 0) errors))
  | Rejected _ =>
      mkPromise (settledAt p) (Resolved (mkValidation false ["Failed to validate image"]))
  end.

(** Enhancement is best effort: the original buffer when it fails. *)
Definition optimizeForOCR (sharp : Sharp) (imageBuffer : Buffer) (now : Z)
    : Promise Buffer :=
  let p := await now (enhance sharp imageBuffer) in
  match outcome p with
  | Resolved optimized => mkPromise (settledAt p) (Resolved optimized)
  | Rejected _ => mkPromise (settledAt p) (Resolved imageBuffer)
  end.

End ImageProcessingService.

(** ** services/geminiService.ts *)

Module GeminiService.
Import Js Types.

Definition retryableErrors : list string :=
  [ "RESOURCE_EXHAUSTED"; "DEADLINE_EXCEEDED"; "UNAVAILABLE"; "INTERNAL" ].

(** [err.message && retryableErrors.some(t => err.message.includes(t))]:
    the left operand itself when it is falsy. *)
Definition isRetryable (err : JsError) : JsVal :=
  match Js.message err with
  | None => JUndefined
  | Some m =>
      if String.eqb m "" then JStr ""
      else JBool (existsb (fun errType => includes m errType) retryableErrors)
  end.

(** The object thrown by the [catch] clause of [processOCR].  Reading
    [err.message] of a thrown [undefined] is itself a [TypeError]. *)
Definition classify (error : Thrown) : JsError :=
  match error with
  | TUndefined =>
      mkError None
        (Some "Cannot read properties of undefined (reading 'message')")
        JUndefined
  | TErr err =>
      {| Js.message := Some (or_default (Js.message err) "Failed to process image with Gemini");
         Js.code := Some (or_default (Js.code err) "GEMINI_ERROR");
         Js.retryable := isRetryable err |}
  end.

Definition show_num (n : JsNum) : string :=
  match n with
  | NaN => "NaN"
  | Num z => show z
  end.

(** [generate] is the backend's answer to this invocation
    ([generateContent], then [result.response] and [response.text()]). *)
Definition processOCR (config : GeminiConfig) (generate : Call string) (now : Z)
    : Promise string :=
  let timeoutPromise : Promise string :=
    mkPromise (now + timerDelay (timeout config))
      (Rejected (TErr (mkError None
                         (Some ("Request timeout after " +:+ show_num (timeout config) +:+ "ms"))
                         JUndefined))) in
  let resultPromise := await now generate in
  let result := race resultPromise timeoutPromise in
  match outcome result with
  | Resolved text => mkPromise (settledAt result) (Resolved (trim text))
  | Rejected error => mkPromise (settledAt result) (Rejected (TErr (classify error)))
  end.

End GeminiService.

(** ** controllers/ocrController.ts *)

Module OcrController.
Import Js Types RetryUtils ImageProcessingService.

(** Everything outside the process: environment variables, the upload
    directory and its listing, the image library, and the vision backend
    ([generateContent w rid request k] answers the [k]-th call made for
    region [rid]). *)
Record World : Type := mkWorld {
  env_GEMINI_API_KEY : option string;
  env_API_TIMEOUT : option string;
  env_OCR_CONCURRENCY_LIMIT : option string;
  uploadDir : string;
  readdir : Call (list string);
  sharp : Sharp;
  generateContent : string -> VisionRequest -> Z -> Call string;
}.

Definition geminiConfig (w : World) : GeminiConfig :=
  {| apiKey := or_default (env_GEMINI_API_KEY w) "";
     model := "gemini-2.5-flash";
     timeout := parseInt (or_default (env_API_TIMEOUT w) "30000") |}.

Definition OCR_PROMPT : string :=
  "You are a professional OCR assistant. Transcribe only the text that appears in the supplied image. Return plain UTF-8 with no extra markup.".

(** *** Mutations of the session store *)

Inductive Mutation : Type :=
| Push (sessionId : string) (result : OCRResult)
| RetryNote (sessionId regionId : string) (attempt : Z) (error : Thrown)
| Finish (sessionId : string) (newStatus : Status)
| Cleanup.

(** A mutation and the instant at which it runs. *)
Definition Event : Type := Z * Mutation.

(** [session.results.push(result)]. *)
Definition push (result : OCRResult) (session : OCRSession) : OCRSession :=
  mkSession (sessionId session) (imageId session) (regions session)
            (results session ++ [result]) (status session)
            (createdAt session) (completedAt session).

(** [results.find(r => r.regionId === regionId)] followed by the
    assignment to [regionResult.error.message]. *)
Fixpoint annotate (regionId : string) (text : string) (results : list OCRResult)
    : list OCRResult :=
  match results with
  | [] => []
  | r :: rest =>
      if String.eqb (Types.regionId r) regionId
      then match error r with
           | Some e =>
               mkOCRResult (Types.regionId r) (Types.text r) (processingTime r)
                           (Some (mkOCRError (Types.code e) text (Types.retryable e)))
                 :: rest
           | None => r :: rest
           end
      else r :: annotate regionId text rest
  end.

(** The [onRetry] callback of [processRegion], once the session is
    found.  [isRetryableError] is false on [undefined], so the callback
    only ever receives an error object. *)
Definition onRetry (regionId : string) (attempt : Z) (error : Thrown)
    (session : OCRSession) : OCRSession :=
  match error with
  | TUndefined => session
  | TErr e =>
      mkSession (sessionId session) (imageId session) (regions session)
        (annotate regionId
           ("Retry attempt " +:+ show attempt +:+ ": " +:+ show_opt (Js.message e))
           (results session))
        (status session) (createdAt session) (completedAt session)
  end.

(** [session.status = s; session.completedAt = new Date()]. *)
Definition finalize (newStatus : Status) (now : Z) (session : OCRSession) : OCRSession :=
  mkSession (sessionId session) (imageId session) (regions session)
            (results session) newStatus (createdAt session) (Some now).

Definition cleanupOldSessions (now : Z) (sessions : gmap string OCRSession)
    : gmap string OCRSession :=
  let oneHourAgo := now - 60 * 60 * 1000 in
  filter (fun entry : string * OCRSession => ¬ (createdAt entry.2 < oneHourAgo)) sessions.

(** The orchestrator mutates the session object it looked up at its
    start; in the store that object sits under its id, so the mutation is
    an in-place update of that entry (a session already swept from the
    store is no longer observable). *)
Definition apply (sessions : gmap string OCRSession) (e : Event)
    : gmap string OCRSession :=
  match e.2 with
  | Push sid result => alter (push result) sid sessions
  | RetryNote sid rid attempt error => alter (onRetry rid attempt error) sid sessions
  | Finish sid newStatus => alter (finalize newStatus e.1) sid sessions
  | Cleanup => cleanupOldSessions e.1 sessions
  end.

(** The event loop runs callbacks in time order; callbacks due at the same
    instant run in the order in which they were registered. *)
Fixpoint enqueue (e : Event) (queue : list Event) : list Event :=
  match queue with
  | [] => [e]
  | e' :: rest => if e'.1 <? e.1 then e' :: enqueue e rest else e :: queue
  end.

Definition timeline (events : list Event) : list Event :=
  foldr enqueue [] events.

(** The store at instant [t]: every event due by [t] has run. *)
Definition storeAt (events : list Event) (sessions : gmap string OCRSession) (t : Z)
    : gmap string OCRSession :=
  fold_left apply (filter (fun e : Event => e.1 <= t) (timeline events)) sessions.

(** *** The per-region task *)

Record Task : Type := mkTask {
  settled : Promise OCRResult;
  notes : list Event;
}.

(** The [catch] clause of [processRegion].  Reading [err.code] of a thrown
    [undefined] is itself a [TypeError], which escapes the task. *)
Definition caught (regionId : string) (startTime now : Z) (error : Thrown)
    : Promise OCRResult :=
  match error with
  | TUndefined =>
      mkPromise now
        (Rejected (TErr (mkError None
                           (Some "Cannot read properties of undefined (reading 'code')")
                           JUndefined)))
  | TErr err =>
      mkPromise now
        (Resolved
           {| Types.regionId := regionId;
              text := "";
              processingTime := now - startTime;
              error := Some {| Types.code := or_default (Js.code err) "PROCESSING_ERROR";
                               Types.message := or_default (Js.message err) "Failed to process region";
                               Types.retryable := false |} |})
  end.

Definition processRegion (w : World) (sessionId : string)
    (processedRegion : ProcessedRegion) (startTime : Z) : Task :=
  let rid := ImageProcessingService.regionId processedRegion in
  let optimized := optimizeForOCR (sharp w) (imageBuffer processedRegion) startTime in
  match outcome optimized with
  | Rejected error => mkTask (caught rid startTime (settledAt optimized) error) []
  | Resolved optimizedBuffer =>
      let visionRequest := {| image := optimizedBuffer; prompt := OCR_PROMPT |} in
      let t := settledAt optimized in
      let run :=
        retryWithBackoff
          (fun attempt now =>
             GeminiService.processOCR (geminiConfig w)
               (generateContent w rid visionRequest attempt) now)
          DEFAULT_RETRY_CONFIG t in
      let p := withTimeout t (promise run) (timeout (geminiConfig w))
                           (Some "OCR processing timed out") in
      let notes :=
        map (fun n : Z * Z * Thrown => (n.1.1, RetryNote sessionId rid n.1.2 n.2))
            (notified run) in
      match outcome p with
      | Resolved text =>
          mkTask (mkPromise (settledAt p)
                    (Resolved {| Types.regionId := rid;
                                 text := text;
                                 processingTime := settledAt p - startTime;
                                 error := None |}))
                 notes
      | Rejected error => mkTask (caught rid startTime (settledAt p) error) notes
      end
  end.

(** *** Batching *)

(** [for (let i = 0; i < processedRegions.length; i += concurrencyLimit)
    batches.push(processedRegions.slice(i, i + concurrencyLimit))].
    [None] when the fuel runs out. *)
Fixpoint split_loop {A : Type} (fuel : nat) (processedRegions : list A)
    (concurrencyLimit i : JsNum) (batches : list (list A)) : option (list (list A)) :=
  match fuel with
  | O => None
  | S fuel' =>
      if lt i (Num (Z.of_nat (length processedRegions)))
      then split_loop fuel' processedRegions concurrencyLimit (add i concurrencyLimit)
             (batches ++ [slice processedRegions i (add i concurrencyLimit)])
      else Some batches
  end.

(** The loop with fuel for one more iteration than there are regions;
    [None] only when the loop never ends (see [split_loop_diverges]). *)
Definition splitBatches {A : Type} (processedRegions : list A) (concurrencyLimit : JsNum)
    : option (list (list A)) :=
  split_loop (S (length processedRegions)) processedRegions concurrencyLimit (Num 0) [].

Record BatchRun : Type := mkBatchRun {
  started : Z;
  members : list Task;
  finished : Promise (list OCRResult);
}.

(** [Promise.all(batch.map(processRegion))]: every member starts at once. *)
Definition processBatch (w : World) (sessionId : string) (batch : list ProcessedRegion)
    (now : Z) : BatchRun :=
  let tasks := map (fun processedRegion => processRegion w sessionId processedRegion now) batch in
  mkBatchRun now tasks (all now (map settled tasks)).

(** [for (const batch of batches)]: the next batch starts when the
    current one has settled; a rejected batch leaves the loop. *)
Fixpoint batch_loop (w : World) (sessionId : string) (batches : list (list ProcessedRegion))
    (now : Z) : list BatchRun :=
  match batches with
  | [] => []
  | batch :: rest =>
      let run := processBatch w sessionId batch now in
      match outcome (finished run) with
      | Resolved _ => run :: batch_loop w sessionId rest (settledAt (finished run))
      | Rejected _ => [run]
      end
  end.

(** The events of one batch: the notifications of its members' retry
    loops, then one push per result when the batch has settled. *)
Definition batch_events (sessionId : string) (run : BatchRun) : list Event :=
  flat_map notes (members run) ++
  match outcome (finished run) with
  | Resolved batchResults =>
      map (fun result => (settledAt (finished run), Push sessionId result)) batchResults
  | Rejected _ => []
  end.

(** How and when the loop over the batches ends. *)
Fixpoint loop_end (now : Z) (runs : list BatchRun) : Promise unit :=
  match runs with
  | [] => mkPromise now (Resolved tt)
  | run :: rest =>
      match outcome (finished run) with
      | Resolved _ => loop_end (settledAt (finished run)) rest
      | Rejected e => mkPromise (settledAt (finished run)) (Rejected e)
      end
  end.

(** *** The orchestrator *)

(** [path.join(uploadDir, imageFile)]. *)
Definition path_join (dir file : string) : string := dir +:+ "/" +:+ file.

(** End of [processOCRAsync]: the status assignment followed by the sweep. *)
Definition conclude (sessionId : string) (newStatus : Status) (now : Z) : list Event :=
  [ (now, Finish sessionId newStatus); (now, Cleanup) ].

(** The events [processOCRAsync] causes when started at instant [now] on
    the store [sessions].  No event at all when the session is unknown, or
    when the batch-splitting loop never ends. *)
Definition processOCRAsync (w : World) (sessions : gmap string OCRSession)
    (sessionId imageId : string) (regions : list Region) (now : Z) : list Event :=
  match sessions !! sessionId with
  | None => []
  | Some _ =>
      let files := await now (readdir w) in
      match outcome files with
      | Rejected _ => conclude sessionId failed (settledAt files)
      | Resolved names =>
          match List.find (fun file => startsWith file (imageId +:+ "_")) names with
          | None => conclude sessionId failed (settledAt files)
          | Some imageFile =>
              let imagePath := path_join (uploadDir w) imageFile in
              let validation :=
                validateRegions (sharp w) imagePath regions (settledAt files) in
              match outcome validation with
              | Rejected _ => conclude sessionId failed (settledAt validation)
              | Resolved v =>
                  if negb (valid v)
                  then conclude sessionId failed (settledAt validation)
                  else
                    let cropped :=
                      cropRegions (sharp w) imagePath regions (settledAt validation) in
                    match outcome cropped with
                    | Rejected _ => conclude sessionId failed (settledAt cropped)
                    | Resolved processedRegions =>
                        let concurrencyLimit :=
                          parseInt (or_default (env_OCR_CONCURRENCY_LIMIT w) "3") in
                        match splitBatches processedRegions concurrencyLimit with
                        | None => []
                        | Some batches =>
                            let runs :=
                              batch_loop w sessionId batches (settledAt cropped) in
                            let done := loop_end (settledAt cropped) runs in
                            flat_map (batch_events sessionId) runs ++
                            match outcome done with
                            | Resolved _ => conclude sessionId completed (settledAt done)
                            | Rejected _ => conclude sessionId failed (settledAt done)
                            end
                        end
                    end
              end
          end
      end
  end.

(** *** HTTP handlers *)

Inductive Reply (T : Type) : Type :=
| Json (data : T)
| Failure (httpStatus : Z) (message code : string).
Arguments Json {T} data.
Arguments Failure {T} httpStatus message code.

Record ProcessOCRResponse : Type := mkProcessOCRResponse {
  resp_sessionId : string;
  resp_results : list OCRResult;
  resp_processingTime : Z;
  resp_success : bool;
}.

Record StatusResponse : Type := mkStatusResponse {
  resp_data : ProcessOCRResponse;
  resp_status : Status;
  progress_current : nat;
  progress_total : nat;
}.

(** [POST /api/ocr/process] at instant [now]; [uuid] is the fresh id drawn
    by [uuidv4()].  Returns the reply, the store with the new session, and
    the events of the processing started in the background.  (The [.catch]
    attached to that processing never runs: [processOCRAsync] catches every
    fault itself and the sweep does not throw.) *)
Definition processOCR (w : World) (sessions : gmap string OCRSession) (uuid : string)
    (imageId : option string) (regions : option (list Region)) (now : Z)
    : Reply ProcessOCRResponse * gmap string OCRSession * list Event :=
  match imageId, regions with
  | Some imageId, Some regions =>
      if String.eqb imageId "" || Nat.eqb (length regions) 0
      then (Failure 400 "Image ID and regions are required" "INVALID_REQUEST", sessions, [])
      else if String.eqb (or_default (env_GEMINI_API_KEY w) "") ""
      then (Failure 500 "Gemini API key not configured" "CONFIG_ERROR", sessions, [])
      else
        let session :=
          {| sessionId := uuid; imageId := imageId; regions := regions; results := [];
             status := processing; createdAt := now; completedAt := None |} in
        let sessions := <[uuid := session]> sessions in
        (Json (mkProcessOCRResponse uuid [] 0 true), sessions,
         processOCRAsync w sessions uuid imageId regions now)
  | _, _ => (Failure 400 "Image ID and regions are required" "INVALID_REQUEST", sessions, [])
  end.

Definition status_eqb (a b : Status) : bool :=
  match a, b with
  | pending, pending | processing, processing
  | completed, completed | failed, failed => true
  | _, _ => false
  end.

(** [GET /api/ocr/status/:sessionId] at instant [now]. *)
Definition getOCRStatus (sessions : gmap string OCRSession) (sessionId : string) (now : Z)
    : Reply StatusResponse :=
  match sessions !! sessionId with
  | None => Failure 404 "Session not found" "SESSION_NOT_FOUND"
  | Some session =>
      let processingTime :=
        match completedAt session with
        | Some finishedAt => finishedAt - createdAt session
        | None => now - createdAt session
        end in
      Json {| resp_data :=
                mkProcessOCRResponse (Types.sessionId session) (results session)
                  processingTime (status_eqb (status session) completed);
              resp_status := status session;
              progress_current := length (results session);
              progress_total := length (regions session) |}
  end.

End OcrController.

(** ** What one session sees of a sequence of events *)

Module Trace.
Import Js Types OcrController.

(** The orchestrator's own mutations, as opposed to the notifications of
    the retry loops. *)
Definition is_main (e : Event) : Prop :=
  match e.2 with
  | RetryNote _ _ _ _ => False
  | _ => True
  end.

#[global] Instance is_main_dec (e : Event) : Decision (is_main e).
Proof. unfold is_main. destruct e.2; apply _. Defined.

Definition mains (events : list Event) : list Event := filter is_main events.

(** The effect of an event on the session stored under [sid], as long as
    the session stays in the store. *)
Definition step (sid : string) (session : OCRSession) (e : Event) : OCRSession :=
  match e.2 with
  | Push sid' result => if decide (sid' = sid) then push result session else session
  | RetryNote sid' rid attempt error =>
      if decide (sid' = sid) then onRetry rid attempt error session else session
  | Finish sid' newStatus =>
      if decide (sid' = sid) then finalize newStatus e.1 session else session
  | Cleanup => session
  end.

(** Region ids of the results that the events push onto session [sid]. *)
Definition pushed_ids (sid : string) (events : list Event) : list string :=
  flat_map (fun e : Event =>
              match e.2 with
              | Push sid' result =>
                  if decide (sid' = sid) then [Types.regionId result] else []
              | _ => []
              end) events.

(** Status and completion time that the events leave on session [sid]. *)
Definition closing (sid : string) (events : list Event) (init : Status * option Z)
    : Status * option Z :=
  fold_left (fun (acc : Status * option Z) (e : Event) =>
               match e.2 with
               | Finish sid' newStatus =>
                   if decide (sid' = sid) then (newStatus, Some e.1) else acc
               | _ => acc
               end) events init.

Definition time_le (a b : Event) : Prop := a.1 <= b.1.

Definition is_push (e : Event) : Prop := exists sid' r, e.2 = Push sid' r.

(** What the loop over the batches does with each batch. *)
Definition batch_served (w : World) (sid : string)
    (batch : list ImageProcessingService.ProcessedRegion) (run : BatchRun) : Prop :=
  members run
  = map (fun processedRegion => processRegion w sid processedRegion (started run)) batch
  /\ exists batchResults,
       outcome (finished run) = Resolved batchResults
       /\ map Types.regionId batchResults = map ImageProcessingService.regionId batch
       /\ mains (batch_events sid run)
          = map (fun result => (settledAt (finished run), Push sid result)) batchResults
       /\ forall task, task ∈ members run ->
            settledAt (settled task) <= settledAt (finished run).

End Trace.

(** ** Definitions that follow the wording of the specification *)

Module Spec.
Import Js Types.

(** "for each region, fail if x<0 or y<0, if x+width exceeds image width,
    if y+height exceeds image height, or if width<10 or height<10": the
    messages of the rules a region violates, one per rule. *)
Definition violations (imageWidth imageHeight : Z) (region : Region) : list string :=
  (if bool_decide (x region < 0 ∨ y region < 0)
   then ["Region " +:+ id region +:+ " has negative coordinates"] else []) ++
  (if bool_decide (x region + width region > imageWidth)
   then ["Region " +:+ id region +:+ " extends beyond image width"] else []) ++
  (if bool_decide (y region + height region > imageHeight)
   then ["Region " +:+ id region +:+ " extends beyond image height"] else []) ++
  (if bool_decide (width region < 10 ∨ height region < 10)
   then ["Region " +:+ id region +:+ " is too small (minimum 10x10 pixels)"] else []).

(** "consecutive batches of size concurrencyLimit preserving original
    order": cut [size] elements off the front until nothing is left. *)
Fixpoint chunks_upto {A : Type} (fuel size : nat) (l : list A) : list (list A) :=
  match fuel, l with
  | O, _ => []
  | _, [] => []
  | S fuel', _ => take size l :: chunks_upto fuel' size (drop size l)
  end.

Definition chunks {A : Type} (size : nat) (l : list A) : list (list A) :=
  chunks_upto (length l) size l.

(** "processed strictly in sequence": the first batch starts at [now],
    every later one at the instant the one before it has settled. *)
Fixpoint in_sequence (now : Z) (runs : list OcrController.BatchRun) : Prop :=
  match runs with
  | [] => True
  | run :: rest =>
      OcrController.started run = now
      /\ in_sequence (settledAt (OcrController.finished run)) rest
  end.

(** "total time of all retry attempts and backoff sleeps together". *)
Definition total_time (attempt_times sleep_times : list Z) : Z :=
  foldr Z.add 0 attempt_times + foldr Z.add 0 sleep_times.

End Spec.

(** ** Concrete worlds used to exercise the model *)

Module Examples.
Import Js Types ImageProcessingService OcrController.

(** A 100 x 100 image; every image operation succeeds. *)
Definition sharp_ok : Sharp :=
  {| metadata := fun _ => mkCall 3 (Resolved (Some 100, Some 100));
     extract := fun _ _ _ _ _ => mkCall 2 (Resolved []);
     enhance := fun buffer => mkCall 1 (Resolved buffer) |}.

Definition world (limit : option string)
    (backend : string -> VisionRequest -> Z -> Call string) : World :=
  {| env_GEMINI_API_KEY := Some "key";
     env_API_TIMEOUT := None;
     env_OCR_CONCURRENCY_LIMIT := limit;
     uploadDir := "/srv/uploads";
     readdir := mkCall 5 (Resolved ["img1_photo.png"]);
     sharp := sharp_ok;
     generateContent := backend |}.

(** A backend that answers every call after 400 ms. *)
Definition quick : string -> VisionRequest -> Z -> Call string :=
  fun _ _ _ => mkCall 400 (Resolved " Hello ").

(** A backend whose first call fails after 20 s and whose second call
    fails after 10 s, both with a transient marker. *)
Definition flaky : string -> VisionRequest -> Z -> Call string :=
  fun _ _ attempt =>
    if attempt =? 1
    then mkCall 20000 (Rejected (TErr (mkError None (Some "RESOURCE_EXHAUSTED") JUndefined)))
    else if attempt =? 2
    then mkCall 10000 (Rejected (TErr (mkError None (Some "UNAVAILABLE") JUndefined)))
    else mkCall 100 (Resolved "late").

Definition region (rid : string) : Region := mkRegion rid 0 0 50 50 "#3B82F6" None.

End Examples.

(** ** services/geminiService.ts: the batch entry point *)

Module GeminiBatch.
Import Js Types.

(** An element of [requests]: a vision request tagged with its region. *)
Record BatchRequest : Type := mkBatchRequest {
  request : VisionRequest;
  regionId : string;
}.

(** [chunkArray(array, chunkSize)]: the same [for] loop and [slice] as the
    batch splitting of the controller, [None] when it never ends. *)
Definition chunkArray {A : Type} (array : list A) (chunkSize : JsNum)
    : option (list (list A)) :=
  OcrController.split_loop (S (length array)) array chunkSize (Num 0) [].

(** [v || false], as a boolean: the classification of [processOCR] only
    produces [undefined], [''], [true] and [false], for which this is the
    value of the expression. *)
Definition orFalse (v : JsVal) : bool :=
  match v with
  | JBool b => b
  | JUndefined => false
  | JStr s => negb (String.eqb s "")
  end.

(** One element of [chunk.map(async request => ...)], started at
    [startTime]; [generate] is the backend's answer to its single call. *)
Definition processRequest (config : GeminiConfig) (generate : BatchRequest -> Call string)
    (req : BatchRequest) (startTime : Z) : Promise OCRResult :=
  let p := GeminiService.processOCR config (generate req) startTime in
  match outcome p with
  | Resolved text =>
      mkPromise (settledAt p)
        (Resolved {| Types.regionId := regionId req; text := text;
                     processingTime := settledAt p - startTime; error := None |})
  | Rejected TUndefined =>
      mkPromise (settledAt p)
        (Rejected (TErr (mkError None
                           (Some "Cannot read properties of undefined (reading 'code')")
                           JUndefined)))
  | Rejected (TErr err) =>
      mkPromise (settledAt p)
        (Resolved
           {| Types.regionId := regionId req; text := "";
              processingTime := settledAt p - startTime;
              error := Some {| Types.code := or_default (Js.code err) "PROCESSING_ERROR";
                               Types.message := or_default (Js.message err) "Failed to process region";
                               Types.retryable := orFalse (Js.retryable err) |} |})
  end.

(** [for (const chunk of chunks)]: each chunk is awaited as a whole and its
    results appended before the next chunk starts. *)
Fixpoint chunk_loop (config : GeminiConfig) (generate : BatchRequest -> Call string)
    (chunks : list (list BatchRequest)) (now : Z) (results : list OCRResult)
    : Promise (list OCRResult) :=
  match chunks with
  | [] => mkPromise now (Resolved results)
  | chunk :: rest =>
      let chunkResults :=
        all now (map (fun req => processRequest config generate req now) chunk) in
      match outcome chunkResults with
      | Resolved rs => chunk_loop config generate rest (settledAt chunkResults) (results ++ rs)
      | Rejected e => mkPromise (settledAt chunkResults) (Rejected e)
      end
  end.

(** [None] when the chunking never ends (it always does for the constant
    chunk size 3). *)
Definition batchProcessOCR (config : GeminiConfig) (generate : BatchRequest -> Call string)
    (requests : list BatchRequest) (now : Z) : option (Promise (list OCRResult)) :=
  let concurrencyLimit := Num 3 in
  match chunkArray requests concurrencyLimit with
  | Some chunks => Some (chunk_loop config generate chunks now [])
  | None => None
  end.

End GeminiBatch.

(** ** utils/pathUtils.ts and middleware/upload.ts: names of uploaded files *)

Module PathUtils.
Import Js.

(** The characters kept by [/[^a-zA-Z0-9-_]/g]. *)
Definition isSafeChar (c : ascii) : bool :=
  let n := nat_of_ascii c in
  ((97 <=? n)%nat && (n <=? 122)%nat) || ((65 <=? n)%nat && (n <=? 90)%nat)
  || ((48 <=? n)%nat && (n <=? 57)%nat) || (n =? 45)%nat || (n =? 95)%nat.

(** [baseName.replace(/[^a-zA-Z0-9-_]/g, '_')]; a string is the sequence of
    its code units, taken below 256. *)
Fixpoint replaceUnsafe (s : string) : string :=
  match s with
  | EmptyString => EmptyString
  | String c s' => String (if isSafeChar c then c else "_"%char) (replaceUnsafe s')
  end.

(** [ext] and [baseName] are what [path.extname(originalFilename)] and
    [path.basename(originalFilename, ext)] return, [timestamp] is
    [Date.now()]. *)
Definition getSafeFilename (ext baseName : string) (timestamp : Z) : string :=
  let safeName := replaceUnsafe baseName in
  safeName +:+ "_" +:+ show timestamp +:+ ext.

(** The [filename] callback of the disk storage. *)
Definition finalFilename (uniqueId safeFilename : string) : string :=
  uniqueId +:+ "_" +:+ safeFilename.

(** [filename.split('_')[0]] of the upload controller. *)
Fixpoint firstField (filename : string) : string :=
  match filename with
  | EmptyString => EmptyString
  | String c rest => if Ascii.eqb c "_" then EmptyString else String c (firstField rest)
  end.

End PathUtils.

(** ** hooks/useOCRProcessing.ts: when the client stops polling *)

Module UseOCRProcessing.
Import Types OcrController.

(** [isComplete] of [pollStatus], on the data of a status reply;
    [totalRegions] is the number of regions the client submitted. *)
Definition isComplete (statusResponse : StatusResponse) (totalRegions : nat) : bool :=
  status_eqb (resp_status statusResponse) completed
  || status_eqb (resp_status statusResponse) failed
  || (Nat.eqb (length (resp_results (resp_data statusResponse))) totalRegions
      && (0 <? totalRegions)%nat).

End UseOCRProcessing.

(** ** Vocabulary of the further properties *)

Module Views.
Import Js Types ImageProcessingService.

(** The extraction call that [cropRegions] issues for a region. *)
Definition extraction (sharp : Sharp) (imagePath : string) (region : Region) : Call Buffer :=
  extract sharp imagePath (x region) (y region) (width region) (height region).

(** A region that lies within an image of the given size and is at least
    10 by 10 pixels. *)
Definition inside (imageWidth imageHeight : Z) (region : Region) : Prop :=
  0 <= x region /\ 0 <= y region
  /\ x region + width region <= imageWidth
  /\ y region + height region <= imageHeight
  /\ 10 <= width region /\ 10 <= height region.

(** What remains of a stored result [before] in its later state [after]:
    everything but the message of an error. *)
Definition kept (before after : OCRResult) : Prop :=
  Types.regionId after = Types.regionId before
  /\ text after = text before
  /\ processingTime after = processingTime before
  /\ match error before with
     | None => error after = None
     | Some e =>
         exists e', error after = Some e'
                    /\ Types.code e' = Types.code e
                    /\ Types.retryable e' = Types.retryable e
     end.

(** What [batchProcessOCR] returns for one request, [generate] being the
    backend's answer to it. *)
Definition batch_result (generate : GeminiBatch.BatchRequest -> Call string)
    (req : GeminiBatch.BatchRequest) (result : OCRResult) : Prop :=
  Types.regionId result = GeminiBatch.regionId req
  /\ 0 <= processingTime result
  /\ match error result with
     | None =>
         exists raw, response (generate req) = Resolved raw /\ text result = trim raw
     | Some e =>
         text result = ""
         /\ Types.code e <> "" /\ Types.message e <> ""
         /\ Types.retryable e
            = existsb (fun errType => includes (Types.message e) errType)
                      GeminiService.retryableErrors
     end.

End Views.

(** * Properties *)

Import Js Types RetryUtils.

(** ** Backoff and retry *)

Section Retry.
Context {T : Type}.
Variable fn : Z -> Z -> Promise T.

Lemma promise_eta (p : Promise T) : mkPromise (settledAt p) (outcome p) = p.
Proof. by destruct p. Qed.

(** One iteration that ends the loop by a resolved attempt. *)
Lemma retry_loop_resolved config n attempt now last v :
  outcome (fn attempt now) = Resolved v ->
  retry_loop fn config (S n) attempt now last
  = mkRun (fn attempt now) [attempt] [] [].
Proof.
  intros Hv. cbn [retry_loop]. rewrite Hv.
  f_equal. rewrite <- Hv. apply promise_eta.
Qed.

(** One iteration that ends the loop by rethrowing. *)
Lemma retry_loop_rethrow config n attempt now last error :
  outcome (fn attempt now) = Rejected error ->
  (maxAttempts config <= attempt \/ isRetryableError error config = false) ->
  retry_loop fn config (S n) attempt now last
  = mkRun (fn attempt now) [attempt] [] [].
Proof.
  intros He Hstop. cbn [retry_loop]. rewrite He.
  assert ((attempt >=? maxAttempts config) || negb (isRetryableError error config) = true)
    as ->.
  { destruct Hstop as [Hmax | Hnr].
    - apply orb_true_iff. left. apply Z.geb_le. lia.
    - rewrite Hnr. apply orb_true_r. }
  f_equal. rewrite <- He. apply promise_eta.
Qed.

(** One iteration that sleeps and goes round again. *)
Lemma retry_loop_again config n attempt now last error :
  outcome (fn attempt now) = Rejected error ->
  attempt < maxAttempts config ->
  isRetryableError error config = true ->
  let delay := calculateBackoffDelay attempt config in
  let t := settledAt (fn attempt now) in
  let rest := retry_loop fn config n (attempt + 1) (t + timerDelay (Num delay)) error in
  retry_loop fn config (S n) attempt now last
  = mkRun (promise rest) (attempt :: attempts rest) (delay :: sleeps rest)
          ((t, attempt, error) :: notified rest).
Proof.
  intros He Hlt Hr. cbn [retry_loop]. rewrite He, Hr.
  assert ((attempt >=? maxAttempts config) = false) as ->.
  { destruct (Z.geb_spec attempt (maxAttempts config)); [lia | done]. }
  reflexivity.
Qed.

End Retry.

Lemma explicit_false_not_retryable e config :
  Js.retryable e = JBool false -> isRetryableError (TErr e) config = false.
Proof. intros H. unfold isRetryableError. by rewrite H. Qed.

Lemma explicit_true_retryable e config :
  Js.retryable e = JBool true -> isRetryableError (TErr e) config = true.
Proof. intros H. unfold isRetryableError. by rewrite H. Qed.

(** C3. With the default configuration the delay before retry [n] is
    [min(2000 * 2^(n-1), 10000)] for every attempt [n >= 1], hence 10000
    whenever the computed delay exceeds the cap; and a run whose first two
    attempts fail retryably sleeps exactly 2000 then 4000 and ends with the
    third attempt, whatever its outcome. *)
Theorem default_backoff_schedule {T : Type} (fn : Z -> Z -> Promise T)
    (now n : Z) (e1 e2 : Thrown) :
  1 <= n ->
  outcome (fn 1 now) = Rejected e1 ->
  isRetryableError e1 DEFAULT_RETRY_CONFIG = true ->
  outcome (fn 2 (settledAt (fn 1 now) + 2000)) = Rejected e2 ->
  isRetryableError e2 DEFAULT_RETRY_CONFIG = true ->
  let third := fn 3 (settledAt (fn 2 (settledAt (fn 1 now) + 2000)) + 4000) in
  let run := retryWithBackoff fn DEFAULT_RETRY_CONFIG now in
  calculateBackoffDelay n DEFAULT_RETRY_CONFIG = Z.min (2000 * 2 ^ (n - 1)) 10000
  /\ (10000 < 2000 * 2 ^ (n - 1) -> calculateBackoffDelay n DEFAULT_RETRY_CONFIG = 10000)
  /\ sleeps run = [2000; 4000]
  /\ attempts run = [1; 2; 3]
  /\ promise run = third.
Proof.
  intros Hn H1 R1 H2 R2 third run.
  split; [reflexivity |].
  split.
  { intros Hcap. unfold calculateBackoffDelay. cbn [baseDelay backoffMultiplier maxDelay
      DEFAULT_RETRY_CONFIG]. lia. }
  assert (run = mkRun third [1; 2; 3] [2000; 4000]
                  [ (settledAt (fn 1 now), 1, e1);
                    (settledAt (fn 2 (settledAt (fn 1 now) + 2000)), 2, e2) ]) as ->.
  { unfold run, retryWithBackoff.
    change (Z.to_nat (maxAttempts DEFAULT_RETRY_CONFIG)) with 3%nat.
    rewrite (retry_loop_again fn _ _ _ _ _ e1 H1); [| reflexivity | exact R1].
    change (calculateBackoffDelay 1 DEFAULT_RETRY_CONFIG) with 2000.
    change (timerDelay (Num 2000)) with 2000.
    rewrite (retry_loop_again fn _ _ _ _ _ e2 H2); [| reflexivity | exact R2].
    change (calculateBackoffDelay 2 DEFAULT_RETRY_CONFIG) with 4000.
    change (timerDelay (Num 4000)) with 4000.
    change (1 + 1) with 2. change (2 + 1) with 3.
    fold third.
    destruct (outcome third) as [v | e3] eqn:H3.
    - unfold third in *. by rewrite (retry_loop_resolved fn _ _ _ _ _ v H3).
    - unfold third in *.
      rewrite (retry_loop_rethrow fn _ _ _ _ _ e3 H3); [done |].
      left. reflexivity. }
  done.
Qed.

(** C4. Whichever attempt throws an error whose [retryable] field is
    explicitly [false], the run ends there: the rejection of that attempt is
    returned as it is, with no sleep, no notification and no further attempt,
    whatever the configured markers (in particular when the first attempt
    throws it); an explicit [true] makes the error retryable whatever the
    markers. *)
Theorem explicit_flag_precedence {T : Type} (fn : Z -> Z -> Promise T)
    (config : RetryConfig) (n : nat) (attempt now : Z) (last : Thrown) (e : JsError) :
  outcome (fn attempt now) = Rejected (TErr e) ->
  (Js.retryable e = JBool false ->
     isRetryableError (TErr e) config = false
     /\ retry_loop fn config (S n) attempt now last = mkRun (fn attempt now) [attempt] [] []
     /\ (attempt = 1 -> 1 <= maxAttempts config ->
         retryWithBackoff fn config now = mkRun (fn 1 now) [1] [] []))
  /\ (Js.retryable e = JBool true -> isRetryableError (TErr e) config = true).
Proof.
  intros He. split.
  - intros Hflag.
    pose proof (explicit_false_not_retryable e config Hflag) as Hstop.
    split; [exact Hstop |]. split.
    + apply (retry_loop_rethrow fn config n attempt now last (TErr e) He). by right.
    + intros -> Hmax. unfold retryWithBackoff.
      destruct (Z.to_nat (maxAttempts config)) as [| m] eqn:Hm; [lia |].
      apply (retry_loop_rethrow fn config m 1 now TUndefined (TErr e) He). by right.
  - apply explicit_true_retryable.
Qed.

Lemma explicit_flag_precedence_witness :
  let e := mkError (Some "UNAVAILABLE") (Some "INTERNAL: backend down") (JBool false) in
  let fn := fun (_ now : Z) => mkPromise (now + 150) (@Rejected string (TErr e)) in
  outcome (fn 1 0) = Rejected (TErr e)
  /\ includes "INTERNAL: backend down" "INTERNAL" = true
  /\ retryWithBackoff fn DEFAULT_RETRY_CONFIG 0 = mkRun (fn 1 0) [1] [] [].
Proof.
  intros e fn.
  split; [reflexivity |].
  split; [reflexivity |].
  destruct (explicit_flag_precedence fn DEFAULT_RETRY_CONFIG 0 1 0 TUndefined e eq_refl)
    as [Hfalse _].
  destruct (Hfalse eq_refl) as (_ & _ & Htop).
  apply Htop; [reflexivity | cbn; lia].
Defined.

Lemma default_backoff_schedule_witness :
  let e := TErr (mkError (Some "GEMINI_ERROR") (Some "RESOURCE_EXHAUSTED: quota") (JBool true)) in
  let fn := fun (attempt now : Z) =>
              mkPromise (now + 300)
                (if attempt <? 3 then Rejected e else Resolved "third answer") in
  1 <= 5
  /\ sleeps (retryWithBackoff fn DEFAULT_RETRY_CONFIG 0) = [2000; 4000]
  /\ attempts (retryWithBackoff fn DEFAULT_RETRY_CONFIG 0) = [1; 2; 3]
  /\ outcome (promise (retryWithBackoff fn DEFAULT_RETRY_CONFIG 0)) = Resolved "third answer"
  /\ calculateBackoffDelay 5 DEFAULT_RETRY_CONFIG = 10000.
Proof.
  intros e fn.
  destruct (default_backoff_schedule fn 0 5 e e) as (Hd & Hcap & Hs & Ha & Hp);
    [lia | reflexivity | reflexivity | reflexivity | reflexivity |].
  split; [lia |].
  split; [exact Hs |].
  split; [exact Ha |].
  split; [by rewrite Hp |].
  apply Hcap. reflexivity.
Defined.

(** ** Region validation *)

Section Validation.
Import ImageProcessingService.

Lemma ltb_or_decide a b c d : (a <? b) || (c <? d) = bool_decide (a < b \/ c < d).
Proof.
  destruct (Z.ltb_spec a b), (Z.ltb_spec c d); cbn [orb]; symmetry;
    (apply bool_decide_eq_true_2 || apply bool_decide_eq_false_2); lia.
Qed.

Lemma gtb_decide a b : (a >? b) = bool_decide (a > b).
Proof.
  rewrite Z.gtb_ltb. destruct (Z.ltb_spec b a); symmetry;
    (apply bool_decide_eq_true_2 || apply bool_decide_eq_false_2); lia.
Qed.

Lemma check_region_violations imageWidth imageHeight acc region :
  check_region imageWidth imageHeight acc region
  = acc ++ Spec.violations imageWidth imageHeight region.
Proof.
  unfold check_region, Spec.violations.
  rewrite !ltb_or_decide, !gtb_decide.
  destruct (bool_decide (x region < 0 \/ y region < 0)),
           (bool_decide (x region + width region > imageWidth)),
           (bool_decide (y region + height region > imageHeight)),
           (bool_decide (width region < 10 \/ height region < 10));
    cbn [app]; rewrite <- ?app_assoc, ?app_nil_r; reflexivity.
Qed.

Lemma validate_loop imageWidth imageHeight regions acc :
  fold_left (check_region imageWidth imageHeight) regions acc
  = acc ++ flat_map (Spec.violations imageWidth imageHeight) regions.
Proof.
  revert acc. induction regions as [| r rest IH]; intros acc; cbn [fold_left flat_map].
  - by rewrite app_nil_r.
  - by rewrite IH, check_region_violations, app_assoc.
Qed.

Lemma violations_inside imageWidth imageHeight region :
  0 <= x region -> 0 <= y region ->
  x region + width region <= imageWidth ->
  y region + height region <= imageHeight ->
  10 <= width region -> 10 <= height region ->
  Spec.violations imageWidth imageHeight region = [].
Proof.
  intros. unfold Spec.violations.
  repeat case_bool_decide; try reflexivity; lia.
Qed.

Lemma violations_negative imageWidth imageHeight region :
  x region < 0 \/ y region < 0 ->
  In ("Region " +:+ id region +:+ " has negative coordinates")
     (Spec.violations imageWidth imageHeight region).
Proof.
  intros Hneg. unfold Spec.violations.
  rewrite bool_decide_eq_true_2 by exact Hneg. by left.
Qed.

End Validation.

(** C6. For a readable image (both dimensions known and non-zero),
    [validateRegions] resolves to the violations of every region, in region
    order and one message per violated rule, and [valid] holds exactly when
    that list is empty; a region inside the image that is at least 10 by 10
    (10 by 10 included) contributes no message, and a region with a negative
    [x] or [y] puts its "negative coordinates" message in the list and makes
    the result invalid. *)
Theorem validateRegions_collects (sharp : ImageProcessingService.Sharp)
    (imagePath : string) (regions : list Region) (now : Z) (imageWidth imageHeight : Z) :
  outcome (await now (ImageProcessingService.metadata sharp imagePath))
    = Resolved (Some imageWidth, Some imageHeight) ->
  imageWidth <> 0 -> imageHeight <> 0 ->
  exists v,
    outcome (ImageProcessingService.validateRegions sharp imagePath regions now) = Resolved v
    /\ ImageProcessingService.errors v
       = flat_map (Spec.violations imageWidth imageHeight) regions
    /\ (ImageProcessingService.valid v = true <-> ImageProcessingService.errors v = [])
    /\ (forall region,
          0 <= x region -> 0 <= y region ->
          x region + width region <= imageWidth ->
          y region + height region <= imageHeight ->
          10 <= width region -> 10 <= height region ->
          Spec.violations imageWidth imageHeight region = [])
    /\ (forall region,
          In region regions -> (x region < 0 \/ y region < 0) ->
          In ("Region " +:+ id region +:+ " has negative coordinates")
             (ImageProcessingService.errors v)
          /\ ImageProcessingService.valid v = false).
Proof.
  intros Hmeta Hw Hh.
  unfold ImageProcessingService.validateRegions. rewrite Hmeta.
  assert (ImageProcessingService.falsy (Some imageWidth)
          || ImageProcessingService.falsy (Some imageHeight) = false) as ->.
  { cbn. apply orb_false_iff. split; apply Z.eqb_neq; assumption. }
  cbn [default]. rewrite validate_loop. cbn [app].
  eexists. split; [reflexivity |]. cbn [ImageProcessingService.errors ImageProcessingService.valid].
  split; [reflexivity |].
  split.
  { rewrite Nat.eqb_eq. split.
    - by intros ?%length_zero_iff_nil.
    - by intros ->. }
  split.
  { intros region. apply violations_inside. }
  intros region Hin Hneg.
  assert (In ("Region " +:+ id region +:+ " has negative coordinates")
             (flat_map (Spec.violations imageWidth imageHeight) regions)) as Hmsg.
  { apply in_flat_map. exists region. split; [exact Hin |].
    by apply violations_negative. }
  split; [exact Hmsg |].
  destruct (flat_map _ regions); [destruct Hmsg | reflexivity].
Qed.

(** ** The orchestrator *)

Import ImageProcessingService OcrController Trace.

(** *** Splitting into batches *)

Section Batching.
Context {A : Type}.
Implicit Types (l : list A) (size i fuel : nat).

Lemma chunks_upto_nil fuel size : Spec.chunks_upto fuel size (@nil A) = [].
Proof. by destruct fuel. Qed.

Lemma chunks_upto_enough size : (0 < size)%nat ->
  forall fuel l, (length l <= fuel)%nat ->
  Spec.chunks_upto fuel size l = Spec.chunks size l.
Proof.
  intros Hsize fuel. unfold Spec.chunks.
  induction fuel as [fuel IH] using lt_wf_ind. intros l Hlen.
  destruct l as [| a l'].
  - by rewrite !chunks_upto_nil.
  - destruct fuel as [| fuel']; [cbn in Hlen; lia |].
    cbn [length Spec.chunks_upto].
    f_equal.
    assert (length (drop size (a :: l')) <= length l')%nat as Hdrop.
    { rewrite length_drop. cbn [length]. lia. }
    cbn [length] in Hlen.
    rewrite (IH fuel' ltac:(lia) (drop size (a :: l')) ltac:(lia)).
    rewrite (IH (length l') ltac:(lia) (drop size (a :: l')) ltac:(lia)).
    reflexivity.
Qed.

Lemma chunks_cons size a l : (0 < size)%nat ->
  Spec.chunks size (a :: l) = take size (a :: l) :: Spec.chunks size (drop size (a :: l)).
Proof.
  intros Hsize. unfold Spec.chunks at 1. cbn [length Spec.chunks_upto].
  f_equal. apply chunks_upto_enough; [done |].
  rewrite length_drop. cbn [length]. lia.
Qed.

Lemma slice_window l i (k : Z) :
  (i < length l)%nat -> 0 < k ->
  slice l (Num (Z.of_nat i)) (add (Num (Z.of_nat i)) (Num k))
  = take (Z.to_nat k) (drop i l).
Proof.
  intros Hi Hk. unfold slice, add, toInteger.
  destruct (Z.ltb_spec (Z.of_nat i) 0) as [? | _]; [lia |].
  destruct (Z.ltb_spec (Z.of_nat i + k) 0) as [? | _]; [lia |].
  rewrite (Z.min_l (Z.of_nat i)) by lia.
  rewrite Nat2Z.id.
  destruct (Z.le_gt_cases (Z.of_nat i + k) (Z.of_nat (length l))) as [Hin | Hout].
  - rewrite Z.min_l by lia. f_equal. lia.
  - rewrite Z.min_r by lia.
    rewrite !take_ge; [done | |]; rewrite length_drop; lia.
Qed.

Lemma split_loop_chunks (k : Z) : 0 < k ->
  forall fuel l i acc,
    (i <= length l)%nat -> (length l - i < fuel)%nat ->
    split_loop fuel l (Num k) (Num (Z.of_nat i)) acc
    = Some (acc ++ Spec.chunks (Z.to_nat k) (drop i l)).
Proof.
  intros Hk fuel. induction fuel as [| fuel IH]; intros l i acc Hi Hfuel; [lia |].
  cbn [split_loop lt].
  destruct (Z.ltb_spec (Z.of_nat i) (Z.of_nat (length l))) as [Hlt | Hge].
  - rewrite slice_window by lia.
    destruct (drop i l) as [| a rest] eqn:Hdrop.
    { apply (f_equal length) in Hdrop. rewrite length_drop in Hdrop.
      cbn [length] in Hdrop. lia. }
    rewrite chunks_cons by lia. rewrite <- Hdrop.
    cbn [add].
    destruct (Nat.le_gt_cases (i + Z.to_nat k) (length l)) as [Hin | Hout].
    + replace (Z.of_nat i + k) with (Z.of_nat (i + Z.to_nat k)) by lia.
      rewrite IH by lia.
      rewrite drop_drop. by rewrite <- app_assoc.
    + (* the window reaches the end: one last batch *)
      assert (drop (Z.to_nat k) (drop i l) = []) as ->.
      { apply drop_ge. rewrite length_drop. lia. }
      unfold Spec.chunks at 1. cbn [length Spec.chunks_upto].
      destruct fuel as [| fuel']; [lia |].
      cbn [split_loop lt].
      destruct (Z.ltb_spec (Z.of_nat i + k) (Z.of_nat (length l))); [lia | done].
  - assert (drop i l = []) as -> by (apply drop_ge; lia).
    unfold Spec.chunks. cbn. by rewrite app_nil_r.
Qed.

Lemma splitBatches_chunks l (k : Z) : 0 < k ->
  splitBatches l (Num k) = Some (Spec.chunks (Z.to_nat k) l).
Proof.
  intros Hk. unfold splitBatches.
  change (Num 0) with (Num (Z.of_nat 0)).
  rewrite (split_loop_chunks k Hk) by lia. reflexivity.
Qed.

(** Properties of the chunks. *)
Lemma chunks_concat size l : (0 < size)%nat -> concat (Spec.chunks size l) = l.
Proof.
  intros Hsize. remember (length l) as n eqn:Hn.
  revert l Hn. induction n as [n IH] using lt_wf_ind. intros l Hn.
  destruct l as [| a l']; [reflexivity |].
  rewrite chunks_cons by done. cbn [concat].
  rewrite (IH (length (drop size (a :: l')))); [apply take_drop | | done].
  rewrite length_drop. subst n. cbn [length]. lia.
Qed.

Lemma chunks_sizes size l : (0 < size)%nat ->
  Forall (fun b => 0 < length b <= size)%nat (Spec.chunks size l).
Proof.
  intros Hsize. remember (length l) as n eqn:Hn.
  revert l Hn. induction n as [n IH] using lt_wf_ind. intros l Hn.
  destruct l as [| a l']; [constructor |].
  rewrite chunks_cons by done. constructor.
  - rewrite length_take. cbn [length]. lia.
  - apply (IH (length (drop size (a :: l')))); [| done].
    rewrite length_drop. subst n. cbn [length]. lia.
Qed.

(** Every batch followed by another one is full. *)
Lemma chunks_full size l : (0 < size)%nat ->
  forall pre b post, Spec.chunks size l = pre ++ b :: post -> post <> [] ->
  length b = size.
Proof.
  intros Hsize. remember (length l) as n eqn:Hn.
  revert l Hn. induction n as [n IH] using lt_wf_ind. intros l Hn pre b post Heq Hpost.
  destruct l as [| a l']; [by destruct pre |].
  rewrite chunks_cons in Heq by done.
  destruct pre as [| p pre'].
  - cbn [app] in Heq. injection Heq as Hb Hrest. subst b.
    rewrite length_take.
    destruct (Nat.le_gt_cases size (length (a :: l'))) as [? | Hshort]; [lia |].
    exfalso. apply Hpost. rewrite <- Hrest.
    rewrite drop_ge by lia. reflexivity.
  - cbn [app] in Heq. injection Heq as _ Hrest.
    apply (IH (length (drop size (a :: l')))) with (l := drop size (a :: l')) (pre := pre') (post := post);
      [| done | done | done].
    rewrite length_drop. subst n. cbn [length]. lia.
Qed.

End Batching.

(** *** Events and what a session sees of them *)

Section Timeline.

Lemma mains_enqueue_note e queue :
  ¬ is_main e -> mains (enqueue e queue) = mains queue.
Proof.
  intros Hnote. unfold mains.
  induction queue as [| e' rest IH]; cbn [enqueue].
  - by rewrite filter_cons_False.
  - destruct (e'.1 <? e.1).
    + by rewrite !filter_cons, IH.
    + by rewrite (filter_cons_False _ e).
Qed.

Lemma mains_enqueue_main e queue :
  is_main e -> (forall m, m ∈ mains queue -> e.1 <= m.1) ->
  mains (enqueue e queue) = e :: mains queue.
Proof.
  intros Hmain. unfold mains.
  induction queue as [| e' rest IH]; intros Hfirst; cbn [enqueue].
  - by rewrite filter_cons_True.
  - destruct (Z.ltb_spec e'.1 e.1) as [Hbefore | _].
    + assert (¬ is_main e') as Hnote.
      { intros Hm. specialize (Hfirst e').
        rewrite filter_cons_True in Hfirst by done.
        specialize (Hfirst ltac:(left)). lia. }
      rewrite !(filter_cons_False _ e') by done.
      rewrite (filter_cons_False _ e') in Hfirst by done.
      by apply IH.
    + by rewrite (filter_cons_True _ e).
Qed.

(** The event loop does not reorder the orchestrator's own mutations. *)
Lemma mains_timeline events :
  StronglySorted time_le (mains events) -> mains (timeline events) = mains events.
Proof.
  induction events as [| e rest IH]; intros Hsorted; [done |].
  cbn [timeline foldr]. fold (timeline rest).
  destruct (decide (is_main e)) as [Hmain | Hnote].
  - unfold mains in Hsorted. rewrite filter_cons_True in Hsorted by done.
    inversion Hsorted as [| ? ? Hrest Hall]; subst.
    rewrite mains_enqueue_main; [| done |].
    + rewrite IH by done. unfold mains. by rewrite filter_cons_True.
    + intros m Hm. rewrite IH in Hm by done.
      rewrite Forall_forall in Hall. by apply Hall.
  - unfold mains in Hsorted. rewrite filter_cons_False in Hsorted by done.
    rewrite mains_enqueue_note by done.
    rewrite IH by done. unfold mains. by rewrite filter_cons_False.
Qed.

Lemma mains_due (t : Z) events :
  mains (filter (fun e : Event => e.1 <= t) events)
  = filter (fun e : Event => e.1 <= t) (mains events).
Proof.
  unfold mains. rewrite !list_filter_filter. apply list_filter_iff. tauto.
Qed.

End Timeline.

Section Replay.
Variable sid : string.

Lemma apply_lookup (sessions : gmap string OCRSession) e s' :
  apply sessions e !! sid = Some s' ->
  exists s, sessions !! sid = Some s /\ s' = step sid s e.
Proof.
  unfold apply, step. destruct e.2 as [sid' r | sid' rid attempt error | sid' st |].
  1-3: rewrite lookup_alter; case_decide as Hsid;
    [ destruct (sessions !! sid') as [s |] eqn:Hs; [| done];
      cbn; intros [= <-]; subst sid'; eauto
    | intros Hs; eauto ].
  unfold cleanupOldSessions. intros [Hs _]%map_lookup_filter_Some. eauto.
Qed.

Lemma replay_lookup events (sessions : gmap string OCRSession) s' :
  fold_left apply events sessions !! sid = Some s' ->
  exists s, sessions !! sid = Some s /\ s' = fold_left (step sid) events s.
Proof.
  revert sessions. induction events as [| e rest IH]; intros sessions; cbn [fold_left].
  - eauto.
  - intros (s1 & Hs1 & ->)%IH.
    apply apply_lookup in Hs1 as (s & Hs & ->). eauto.
Qed.

Lemma annotate_ids rid text rs :
  map Types.regionId (annotate rid text rs) = map Types.regionId rs.
Proof.
  induction rs as [| r rest IH]; [done |]. cbn [annotate].
  destruct (String.eqb (Types.regionId r) rid).
  - by destruct (error r).
  - cbn [map]. by rewrite IH.
Qed.

Lemma step_regions s e : regions (step sid s e) = regions s.
Proof.
  unfold step. destruct e.2 as [? ? | ? ? ? err | ? ? |]; try case_decide; try done.
  by destruct err.
Qed.

Lemma step_createdAt s e : createdAt (step sid s e) = createdAt s.
Proof.
  unfold step. destruct e.2 as [? ? | ? ? ? err | ? ? |]; try case_decide; try done.
  by destruct err.
Qed.

Lemma replay_regions events s :
  regions (fold_left (step sid) events s) = regions s
  /\ createdAt (fold_left (step sid) events s) = createdAt s.
Proof.
  revert s. induction events as [| e rest IH]; intros s; cbn [fold_left]; [done |].
  destruct (IH (step sid s e)) as [-> ->].
  by rewrite step_regions, step_createdAt.
Qed.

Lemma replay_ids events s :
  map Types.regionId (results (fold_left (step sid) events s))
  = map Types.regionId (results s) ++ pushed_ids sid events.
Proof.
  revert s. induction events as [| e rest IH]; intros s; cbn [fold_left].
  - unfold pushed_ids. cbn. by rewrite app_nil_r.
  - rewrite IH. unfold pushed_ids at 2. cbn [flat_map]. fold (pushed_ids sid rest).
    unfold step.
    destruct e.2 as [sid' r | sid' rid attempt err | sid' st |]; try case_decide;
      cbn [app]; try done.
    + unfold push. cbn [results]. rewrite map_app. cbn [map]. by rewrite <- app_assoc.
    + destruct err; [done |]. unfold onRetry. cbn [results]. by rewrite annotate_ids.
Qed.

Lemma replay_closing events s :
  (status (fold_left (step sid) events s), completedAt (fold_left (step sid) events s))
  = closing sid events (status s, completedAt s).
Proof.
  revert s. induction events as [| e rest IH]; intros s; cbn [fold_left]; [done |].
  rewrite IH. unfold closing. cbn [fold_left]. f_equal.
  unfold step.
  destruct e.2 as [sid' r | sid' rid attempt err | sid' st |]; try case_decide; try done.
  by destruct err.
Qed.

Lemma pushed_ids_mains events : pushed_ids sid (mains events) = pushed_ids sid events.
Proof.
  unfold mains, pushed_ids. induction events as [| e rest IH]; [done |].
  rewrite filter_cons. cbn [flat_map]. case_decide as Hm.
  - cbn [flat_map]. by rewrite IH.
  - rewrite IH. unfold is_main in Hm. by destruct e.2.
Qed.

Lemma closing_mains events init :
  closing sid (mains events) init = closing sid events init.
Proof.
  unfold mains, closing. revert init. induction events as [| e rest IH]; intros init; [done |].
  rewrite filter_cons. cbn [fold_left]. case_decide as Hm.
  - cbn [fold_left]. by rewrite IH.
  - rewrite IH. unfold is_main in Hm. by destruct e.2.
Qed.

Lemma pushed_ids_app l1 l2 :
  pushed_ids sid (l1 ++ l2) = pushed_ids sid l1 ++ pushed_ids sid l2.
Proof. unfold pushed_ids. apply flat_map_app. Qed.

Lemma pushed_ids_due (t : Z) events :
  (length (pushed_ids sid (filter (fun e : Event => (e.1 <= t)%Z) events))
   <= length (pushed_ids sid events))%nat.
Proof.
  induction events as [| e rest IH]; [done |].
  rewrite filter_cons. change (e :: rest) with ([e] ++ rest).
  rewrite (pushed_ids_app [e] rest), length_app.
  case_decide.
  - change (e :: filter _ rest) with ([e] ++ filter (fun e : Event => e.1 <= t) rest).
    rewrite pushed_ids_app, length_app. lia.
  - lia.
Qed.

End Replay.
Section Tasks.
Variable w : World.
Variable sid : string.

Lemma retry_throws_object {T : Type} (fn : Z -> Z -> Promise T) config :
  (forall k t, outcome (fn k t) <> Rejected TUndefined) ->
  forall n attempt now last,
    (n = 0%nat -> last <> TUndefined) ->
    outcome (promise (retry_loop fn config n attempt now last)) <> Rejected TUndefined.
Proof.
  intros Hfn n. induction n as [| n IH]; intros attempt now last Hlast; cbn [retry_loop].
  - cbn. intros [= H]. by apply Hlast.
  - destruct (outcome (fn attempt now)) as [v | error] eqn:Hout; [done |].
    assert (error <> TUndefined) as Herr.
    { intros ->. by apply (Hfn attempt now). }
    destruct (_ || _).
    + cbn. congruence.
    + cbn [promise]. apply IH. by intros _.
Qed.

Lemma processOCR_throws_object config generate now :
  outcome (GeminiService.processOCR config generate now) <> Rejected TUndefined.
Proof.
  unfold GeminiService.processOCR.
  by destruct (outcome (race _ _)).
Qed.

Lemma race_cases {T : Type} (p q : Promise T) : race p q = p \/ race p q = q.
Proof. unfold race. destruct (_ <? _); auto. Qed.

Lemma withTimeout_throws_object {T : Type} now (p : Promise T) ms msg :
  outcome p <> Rejected TUndefined ->
  outcome (withTimeout now p ms msg) <> Rejected TUndefined.
Proof.
  intros Hp. unfold withTimeout.
  destruct (race_cases p (createTimeout now ms msg)) as [-> | ->]; [done | by cbn].
Qed.

Lemma caught_resolves rid start now error :
  error <> TUndefined ->
  exists r, caught rid start now error = mkPromise now (Resolved r)
            /\ Types.regionId r = rid.
Proof. intros Herr. destruct error as [| err]; [done |]. cbn. eauto. Qed.

(** A task never rejects: whatever happens to the region ends up in its
    result. *)
Lemma processRegion_resolves processedRegion start :
  exists r,
    outcome (settled (processRegion w sid processedRegion start)) = Resolved r
    /\ Types.regionId r = ImageProcessingService.regionId processedRegion.
Proof.
  unfold processRegion.
  destruct (outcome (optimizeForOCR _ _ _)) as [buf | error] eqn:Hopt.
  2: { unfold optimizeForOCR in Hopt. by destruct (outcome (await _ _)). }
  set (p := withTimeout _ _ _ _).
  assert (outcome p <> Rejected TUndefined) as Hp.
  { apply withTimeout_throws_object. apply retry_throws_object; [| done].
    intros k t. apply processOCR_throws_object. }
  destruct (outcome p) as [text | error] eqn:Hout; cbn [settled]; [cbn; eauto |].
  destruct (caught_resolves (ImageProcessingService.regionId processedRegion) start
              (settledAt p) error) as (r & -> & Hr); [congruence |].
  cbn. eauto.
Qed.

Lemma processRegion_notes processedRegion start :
  Forall (fun e => ¬ is_main e) (notes (processRegion w sid processedRegion start)).
Proof.
  unfold processRegion.
  destruct (outcome (optimizeForOCR _ _ _)); [| constructor].
  set (run := retryWithBackoff _ _ _).
  assert (Forall (fun e => ¬ is_main e)
            (map (fun n : Z * Z * Thrown =>
                    (n.1.1, RetryNote sid (ImageProcessingService.regionId processedRegion)
                                      n.1.2 n.2)) (notified run))) as Hnotes.
  { apply Forall_forall. intros e (n & -> & _)%list_elem_of_fmap. unfold is_main. cbn. tauto. }
  destruct (outcome (withTimeout _ _ _ _)); exact Hnotes.
Qed.

Lemma all_resolved {T : Type} (now : Z) (ps : list (Promise T)) :
  Forall (fun p => exists v, outcome p = Resolved v) ps ->
  all now ps = mkPromise (foldr Z.max now (map settledAt ps))
                         (Resolved (resolved_values ps))
  /\ Forall2 (fun p v => outcome p = Resolved v) ps (resolved_values ps).
Proof.
  intros Hall. unfold all.
  assert (first_rejection ps = None
          /\ Forall2 (fun p v => outcome p = Resolved v) ps (resolved_values ps))
    as [-> ?]; [| done].
  induction Hall as [| p rest [v Hv] _ [IH1 IH2]]; [by split; [| constructor] |].
  cbn [first_rejection resolved_values]. rewrite Hv, IH1. split; [done |].
  by constructor.
Qed.

Lemma foldr_max_ge (now : Z) (ts : list Z) : now <= foldr Z.max now ts.
Proof. induction ts as [| t rest IH]; cbn [foldr]; lia. Qed.

Lemma foldr_max_member (now : Z) (ts : list Z) t : t ∈ ts -> t <= foldr Z.max now ts.
Proof.
  induction ts as [| t' rest IH]; [by intros ?%elem_of_nil |].
  intros [-> | Hin]%elem_of_cons; cbn [foldr]; [lia |].
  specialize (IH Hin). lia.
Qed.

(** A batch resolves, once its slowest member has, to the results of its
    members in the order of the batch. *)
Lemma processBatch_resolves batch now :
  let run := processBatch w sid batch now in
  exists batchResults,
    outcome (finished run) = Resolved batchResults
    /\ map Types.regionId batchResults = map ImageProcessingService.regionId batch
    /\ now <= settledAt (finished run)
    /\ (forall task, task ∈ members run ->
          settledAt (settled task) <= settledAt (finished run)).
Proof.
  intros run. unfold run, processBatch. cbn [finished members].
  set (tasks := map _ batch).
  destruct (all_resolved now (map settled tasks)) as [-> Hvals].
  { apply Forall_forall. intros p (task & -> & (pr & -> & _)%list_elem_of_fmap)%list_elem_of_fmap.
    destruct (processRegion_resolves pr now) as (r & Hr & _). eauto. }
  eexists. split; [reflexivity |]. cbn [settledAt]. split; [| split].
  - subst tasks. clear -Hvals. revert Hvals.
    generalize (resolved_values (map settled
      (map (fun processedRegion => processRegion w sid processedRegion now) batch))).
    induction batch as [| pr rest IH]; intros vs Hvals; cbn [map] in *.
    + by inversion Hvals.
    + inversion Hvals as [| ? v ? vs' Hv Hrest]; subst. cbn [map].
      f_equal; [| by apply IH].
      destruct (processRegion_resolves pr now) as (r & Hr & Hid).
      rewrite Hr in Hv. by injection Hv as <-.
  - apply foldr_max_ge.
  - intros task Hin. apply foldr_max_member.
    apply list_elem_of_fmap. exists (settled task). split; [done |].
    apply list_elem_of_fmap. eauto.
Qed.

Lemma batch_events_resolved run batchResults :
  outcome (finished run) = Resolved batchResults ->
  Forall (fun task => Forall (fun e => ¬ is_main e) (notes task)) (members run) ->
  mains (batch_events sid run)
  = map (fun result => (settledAt (finished run), Push sid result)) batchResults
  /\ pushed_ids sid (batch_events sid run) = map Types.regionId batchResults.
Proof.
  intros Hout Hnotes. unfold batch_events. rewrite Hout.
  set (pushes := map _ batchResults).
  assert (mains (flat_map notes (members run)) = []) as Hnone.
  { unfold mains. induction Hnotes as [| task rest Htask _ IH]; [done |].
    cbn [flat_map]. rewrite filter_app, IH, app_nil_r.
    clear -Htask. induction Htask as [| e l He _ IH']; [done |].
    by rewrite filter_cons_False. }
  assert (mains pushes = pushes) as Hall.
  { unfold mains, pushes. clear. induction batchResults as [| r rest IH]; [done |].
    cbn [map]. rewrite filter_cons_True by (unfold is_main; cbn; tauto). by rewrite IH. }
  split.
  - unfold mains in *. by rewrite filter_app, Hnone, Hall.
  - rewrite <- pushed_ids_mains. unfold mains in *. rewrite filter_app, Hnone, Hall.
    cbn [app]. unfold pushes, pushed_ids. clear.
    induction batchResults as [| r rest IH]; [done |].
    cbn [map flat_map snd]. rewrite decide_True by done. cbn [app]. by rewrite IH.
Qed.

End Tasks.

(** *** Tasks, batches and the shape of a run *)

Section Divergence.
Lemma split_loop_diverges {A : Type} (l : list A) (k : Z) :
  k <= 0 -> l <> [] ->
  forall fuel i acc, i <= 0 -> split_loop fuel l (Num k) (Num i) acc = None.
Proof.
  intros Hk Hl fuel. induction fuel as [| fuel IH]; intros i acc Hi; [done |].
  cbn [split_loop lt add].
  destruct (Z.ltb_spec i (Z.of_nat (length l))) as [_ | Hge].
  - apply IH. lia.
  - destruct l; [done | cbn [length] in Hge; lia].
Qed.

(** [splitBatches] has no result only when the loop never ends. *)
Lemma splitBatches_None {A : Type} (l : list A) limit :
  splitBatches l limit = None ->
  forall fuel, split_loop fuel l limit (Num 0) [] = None.
Proof.
  intros Hnone fuel. destruct limit as [| k].
  - exfalso. unfold splitBatches in Hnone. cbn [split_loop lt add] in Hnone.
    destruct (Z.ltb_spec 0 (Z.of_nat (length l))); [| done].
    destruct (length l); cbn in Hnone; done.
  - destruct (Z.lt_ge_cases 0 k) as [Hpos | Hneg].
    + by rewrite splitBatches_chunks in Hnone.
    + destruct l as [| a l']; [done |]. by apply split_loop_diverges.
Qed.

End Divergence.

Section Orchestrator.
Variable w : World.
Variable sid : string.

Lemma closing_pushes events init :
  Forall is_push events -> closing sid events init = init.
Proof.
  unfold closing. induction 1 as [| e rest (sid' & r & He) _ IH]; [done |].
  cbn [fold_left]. by rewrite He.
Qed.

Lemma batch_loop_trace batches now :
  let runs := batch_loop w sid batches now in
  let body := flat_map (batch_events sid) runs in
  let done := loop_end now runs in
  outcome done = Resolved tt
  /\ now <= settledAt done
  /\ pushed_ids sid body = map ImageProcessingService.regionId (concat batches)
  /\ Forall (fun e : Event => is_push e /\ now <= e.1 <= settledAt done) (mains body)
  /\ StronglySorted time_le (mains body).
Proof.
  revert now. induction batches as [| batch rest IH]; intros now.
  - cbn. repeat split; (done || constructor).
  - cbn [batch_loop concat].
    destruct (processBatch_resolves w sid batch now) as (rs & Hout & Hids & Hge & _).
    set (run := processBatch w sid batch now) in *.
    rewrite Hout. cbn [flat_map loop_end]. rewrite Hout.
    specialize (IH (settledAt (finished run))).
    cbn zeta in IH. destruct IH as (Hdone & Hlater & Hrest & Hbounds & Hsorted).
    destruct (batch_events_resolved sid run rs Hout) as [Hmains Hpushed].
    { apply Forall_forall. intros task (pr & -> & _)%list_elem_of_fmap.
      apply processRegion_notes. }
    split; [exact Hdone |]. split; [lia |]. split; [| split].
    + rewrite pushed_ids_app, Hpushed, Hrest, map_app. by rewrite Hids.
    + unfold mains in *. rewrite filter_app. apply Forall_app. split.
      * rewrite Hmains. apply Forall_forall.
        intros e (r & -> & _)%list_elem_of_fmap. cbn [fst snd].
        split; [unfold is_push; cbn; eauto | lia].
      * eapply Forall_impl; [exact Hbounds |]. cbn beta. intros e [? ?]. split; [done | lia].
    + unfold mains in *. rewrite filter_app. apply StronglySorted_app_2.
      * intros a b Ha Hb. rewrite Hmains in Ha.
        apply list_elem_of_fmap in Ha as (r & -> & _).
        rewrite Forall_forall in Hbounds. destruct (Hbounds b Hb) as [_ ?].
        unfold time_le. cbn [fst]. lia.
      * rewrite Hmains. clear. induction rs as [| r rest IH]; [constructor |].
        cbn [map]. constructor; [exact IH |].
        apply Forall_forall. intros e (r' & -> & _)%list_elem_of_fmap.
        unfold time_le. cbn [fst]. lia.
      * exact Hsorted.
Qed.

Lemma crop_loop_ids sharp imagePath regions now acc processedRegions :
  outcome (crop_loop sharp imagePath regions now acc) = Resolved processedRegions ->
  map ImageProcessingService.regionId processedRegions
  = map ImageProcessingService.regionId acc ++ map id regions.
Proof.
  revert now acc. induction regions as [| region rest IH]; intros now acc; cbn [crop_loop].
  - cbn. intros [= ->]. by rewrite app_nil_r.
  - destruct (outcome (await now _)) as [buf | ?]; [| done].
    intros Hout%IH. rewrite Hout, map_app. cbn [map ImageProcessingService.regionId].
    by rewrite <- app_assoc.
Qed.

(** Shape of a run of the orchestrator: some events that push results,
    then the status assignment and the sweep; or no event at all, when the
    batch-splitting loop never ends. *)
Lemma processOCRAsync_trace (sessions : gmap string OCRSession) imageId regions now k :
  is_Some (sessions !! sid) ->
  parseInt (or_default (env_OCR_CONCURRENCY_LIMIT w) "3") = Num k ->
  (k <= 0 /\ processOCRAsync w sessions sid imageId regions now = [])
  \/ exists body newStatus finishedAt,
      processOCRAsync w sessions sid imageId regions now
      = body ++ conclude sid newStatus finishedAt
      /\ Forall (fun e : Event => is_push e /\ e.1 <= finishedAt) (mains body)
      /\ StronglySorted time_le (mains body)
      /\ ((newStatus = completed /\ pushed_ids sid body = map id regions)
          \/ (newStatus = failed /\ body = [])).
Proof.
  intros [s0 Hs0] Hlimit. unfold processOCRAsync. rewrite Hs0.
  assert (forall t, exists body newStatus finishedAt,
            conclude sid failed t = body ++ conclude sid newStatus finishedAt
            /\ Forall (fun e : Event => is_push e /\ e.1 <= finishedAt) (mains body)
            /\ StronglySorted time_le (mains body)
            /\ ((newStatus = completed /\ pushed_ids sid body = map id regions)
                \/ (newStatus = failed /\ body = []))) as Hfail.
  { intros t. exists [], failed, t.
    split; [done |]. split; [constructor |]. split; [constructor |]. by right. }
  destruct (outcome (await now (readdir w))) as [names | ?]; [| right; apply Hfail].
  destruct (List.find _ names) as [imageFile |]; [| right; apply Hfail].
  destruct (outcome (validateRegions _ _ _ _)) as [v | ?]; [| right; apply Hfail].
  destruct (valid v); cbn [negb]; [| right; apply Hfail].
  destruct (outcome (cropRegions _ _ _ _)) as [processedRegions |] eqn:Hcrop;
    [| right; apply Hfail].
  rewrite Hlimit.
  set (start := settledAt (cropRegions _ _ _ _)).
  apply crop_loop_ids in Hcrop. cbn [map app] in Hcrop.
  assert (forall batches, concat batches = processedRegions ->
            exists body newStatus finishedAt,
              (let runs := batch_loop w sid batches start in
               let done := loop_end start runs in
               flat_map (batch_events sid) runs ++
               match outcome done with
               | Resolved _ => conclude sid completed (settledAt done)
               | Rejected _ => conclude sid failed (settledAt done)
               end)
              = body ++ conclude sid newStatus finishedAt
              /\ Forall (fun e : Event => is_push e /\ e.1 <= finishedAt) (mains body)
              /\ StronglySorted time_le (mains body)
              /\ ((newStatus = completed /\ pushed_ids sid body = map id regions)
                  \/ (newStatus = failed /\ body = []))) as Hrun.
  { intros batches Hconcat. cbn zeta.
    destruct (batch_loop_trace batches start) as (Hdone & Hlater & Hids & Hbounds & Hsorted).
    rewrite Hdone.
    eexists _, completed, _. split; [reflexivity |].
    split; [| split; [exact Hsorted |]].
    - eapply Forall_impl; [exact Hbounds |]. cbn beta. tauto.
    - left. split; [done |]. by rewrite Hids, Hconcat. }
  destruct (Z.lt_ge_cases 0 k) as [Hpos | Hneg].
  - right. rewrite splitBatches_chunks by done.
    apply Hrun. apply chunks_concat. lia.
  - destruct processedRegions as [| pr rest].
    + right. cbn [splitBatches split_loop length lt]. apply (Hrun []). done.
    + left. split; [done |].
      unfold splitBatches. by rewrite split_loop_diverges.
Qed.

End Orchestrator.

Section SessionView.
Variable w : World.
Variable sid : string.

Lemma due_all (t : Z) (events : list Event) :
  Forall (fun e : Event => e.1 <= t) events ->
  filter (fun e : Event => e.1 <= t) events = events.
Proof.
  induction 1 as [| e rest He _ IH]; [done |]. by rewrite filter_cons_True, IH.
Qed.

(** What a poll at instant [t] can see of a session that a run of the
    orchestrator ends at [finishedAt] with status [newStatus]. *)
Lemma session_view (sessions : gmap string OCRSession) body newStatus finishedAt s0 :
  sessions !! sid = Some s0 ->
  results s0 = [] ->
  Forall (fun e : Event => is_push e /\ e.1 <= finishedAt) (mains body) ->
  StronglySorted time_le (mains body) ->
  forall t s,
    storeAt (body ++ conclude sid newStatus finishedAt) sessions t !! sid = Some s ->
    regions s = regions s0 /\ createdAt s = createdAt s0
    /\ ((t < finishedAt /\ status s = status s0 /\ completedAt s = completedAt s0
         /\ (length (results s) <= length (pushed_ids sid body))%nat)
        \/ (finishedAt <= t /\ status s = newStatus /\ completedAt s = Some finishedAt
            /\ map Types.regionId (results s) = pushed_ids sid body)).
Proof.
  intros Hs0 Hempty Hbounds Hsorted t s Hview.
  unfold storeAt in Hview. apply replay_lookup in Hview as (s0' & Hs0' & ->).
  rewrite Hs0 in Hs0'. injection Hs0' as <-.
  set (events := body ++ conclude sid newStatus finishedAt) in *.
  set (seen := filter (fun e : Event => e.1 <= t) (timeline events)).
  destruct (replay_regions sid seen s0) as [-> ->].
  split; [done |]. split; [done |].
  pose proof (replay_ids sid seen s0) as Hids.
  pose proof (replay_closing sid seen s0) as Hclose.
  rewrite Hempty in Hids. cbn [map app] in Hids.
  rewrite <- pushed_ids_mains in Hids. rewrite <- closing_mains in Hclose.
  assert (mains events = mains body ++ conclude sid newStatus finishedAt) as Hmains.
  { unfold events, mains. rewrite filter_app. f_equal. }
  assert (mains seen
          = filter (fun e : Event => e.1 <= t) (mains body)
            ++ filter (fun e : Event => e.1 <= t) (conclude sid newStatus finishedAt))
    as Hseen.
  { unfold seen. rewrite mains_due, mains_timeline, Hmains, filter_app; [done |].
    rewrite Hmains. apply StronglySorted_app_2; [| done |].
    - intros a b Ha Hb. rewrite Forall_forall in Hbounds.
      destruct (Hbounds a Ha) as [_ Hle]. unfold time_le.
      unfold conclude in Hb.
      apply elem_of_cons in Hb as [-> | Hb]; [cbn [fst]; lia |].
      apply elem_of_cons in Hb as [-> | Hb]; [cbn [fst]; lia |].
      by apply elem_of_nil in Hb.
    - unfold conclude. repeat constructor. unfold time_le. cbn. lia. }
  rewrite Hseen in Hids, Hclose.
  destruct (Z.lt_ge_cases t finishedAt) as [Hearly | Hlate].
  - left. split; [done |].
    assert (filter (fun e : Event => e.1 <= t) (conclude sid newStatus finishedAt) = []) as Hnone.
    { unfold conclude. rewrite !filter_cons_False; cbn [fst]; [done | lia | lia]. }
    rewrite Hnone, app_nil_r in Hids, Hclose.
    rewrite closing_pushes in Hclose.
    2: { apply Forall_forall. intros e [_ He]%list_elem_of_filter.
         rewrite Forall_forall in Hbounds. by destruct (Hbounds e He). }
    injection Hclose as -> ->. split; [done |]. split; [done |].
    rewrite <- (length_map Types.regionId), Hids, <- (pushed_ids_mains sid body).
    apply pushed_ids_due.
  - right. split; [done |].
    rewrite due_all in Hids, Hclose.
    2,3: eapply Forall_impl; [exact Hbounds |]; cbn beta; intros e [_ ?]; lia.
    assert (filter (fun e : Event => e.1 <= t) (conclude sid newStatus finishedAt)
            = conclude sid newStatus finishedAt) as Hall.
    { unfold conclude. rewrite !filter_cons_True; cbn [fst]; [done | lia | lia]. }
    rewrite Hall in Hids, Hclose.
    rewrite pushed_ids_app, pushed_ids_mains in Hids.
    unfold conclude, pushed_ids at 2 in Hids. cbn in Hids. rewrite app_nil_r in Hids.
    unfold closing in Hclose. rewrite fold_left_app in Hclose.
    cbn [fold_left conclude snd fst] in Hclose. rewrite decide_True in Hclose by done.
    by injection Hclose as -> ->.
Qed.

End SessionView.

(** *** Sessions created by the request handler *)

Section Polling.
Variable w : World.
Variable sessions : gmap string OCRSession.
Variable uuid : string.

(** A poll finds the session under a fresh id only if the request was
    accepted; the store and the events are then those of the background
    run on the new session. *)
Lemma processOCR_accepted imageId regions now reply store events t session :
  sessions !! uuid = None ->
  processOCR w sessions uuid imageId regions now = (reply, store, events) ->
  storeAt events store t !! uuid = Some session ->
  exists imageId' regions',
    imageId = Some imageId' /\ regions = Some regions'
    /\ store = <[uuid := mkSession uuid imageId' regions' [] processing now None]> sessions
    /\ events = processOCRAsync w store uuid imageId' regions' now.
Proof.
  intros Hfresh Hreq Hview.
  assert (storeAt [] sessions t !! uuid = None) as Hrejected.
  { unfold storeAt. cbn. exact Hfresh. }
  unfold processOCR in Hreq.
  destruct imageId as [imageId' |], regions as [regions' |];
    try (injection Hreq as <- <- <-; congruence).
  destruct (_ || _); [injection Hreq as <- <- <-; congruence |].
  destruct (String.eqb _ ""); [injection Hreq as <- <- <-; congruence |].
  injection Hreq as <- <- <-. by exists imageId', regions'.
Qed.

(** The three ways a poll can find such a session. *)
Lemma polled_session imageId regions now k t session :
  parseInt (or_default (env_OCR_CONCURRENCY_LIMIT w) "3") = Num k ->
  let store := <[uuid := mkSession uuid imageId regions [] processing now None]> sessions in
  storeAt (processOCRAsync w store uuid imageId regions now) store t !! uuid = Some session ->
  Types.regions session = regions
  /\ ((status session = processing
       /\ (length (results session) <= length regions)%nat)
      \/ (status session = completed
          /\ map Types.regionId (results session) = map id regions)
      \/ (status session = failed /\ results session = [])).
Proof.
  intros Hlimit store Hview.
  set (s0 := mkSession uuid imageId regions [] processing now None) in *.
  assert (store !! uuid = Some s0) as Hs0 by apply lookup_insert_eq.
  destruct (processOCRAsync_trace w uuid store imageId regions now k) as
    [[_ Hnone] | (body & newStatus & finishedAt & Hevents & Hbounds & Hsorted & Hend)];
    [by eexists | done | |].
  - (* the splitting loop never ends: the session stays as created *)
    rewrite Hnone in Hview. unfold storeAt in Hview. cbn in Hview.
    rewrite Hs0 in Hview. injection Hview as <-. cbn.
    split; [done |]. left. split; [done | lia].
  - rewrite Hevents in Hview.
    destruct (session_view uuid store body newStatus finishedAt s0 Hs0 eq_refl Hbounds Hsorted
                t session Hview) as (Hregions & _ & Hcases).
    split; [done |].
    destruct Hcases as [(_ & Hst & _ & Hlen) | (_ & Hst & _ & Hids)].
    + left. split; [done |].
      destruct Hend as [[_ Hall] | [_ ->]]; [| cbn in Hlen; lia].
      by rewrite Hall, length_map in Hlen.
    + destruct Hend as [[-> Hall] | [-> ->]].
      * right. left. split; [done |]. by rewrite Hids.
      * right. right. split; [done |]. cbn in Hids. by apply map_eq_nil in Hids.
Qed.

End Polling.

(** C1 (amended). For a session created by [processOCR] under a fresh id,
    when the configured concurrency limit parses to a number: whenever the
    session is polled, its results are never more than its regions; once its
    status is [completed] there is one result per region, and once it is
    [failed] there is none. *)
Theorem results_bounded_by_regions (w : World) (sessions : gmap string OCRSession)
    (uuid : string) (imageId : option string) (regions : option (list Region))
    (now k : Z) (reply : Reply ProcessOCRResponse) (store : gmap string OCRSession)
    (events : list Event) (t : Z) (session : OCRSession) :
  parseInt (or_default (env_OCR_CONCURRENCY_LIMIT w) "3") = Num k ->
  sessions !! uuid = None ->
  processOCR w sessions uuid imageId regions now = (reply, store, events) ->
  storeAt events store t !! uuid = Some session ->
  (length (results session) <= length (Types.regions session))%nat
  /\ (status session = completed \/ status session = failed ->
      length (results session) = length (Types.regions session)
      \/ (status session = failed /\ results session = []))
  /\ (status session = completed ->
      length (results session) = length (Types.regions session)).
Proof.
  intros Hlimit Hfresh Hreq Hview.
  destruct (processOCR_accepted w sessions uuid imageId regions now reply store events t
              session Hfresh Hreq Hview) as (imageId' & regions' & -> & -> & -> & ->).
  destruct (polled_session w sessions uuid imageId' regions' now k t session Hlimit Hview)
    as (-> & [[Hst Hlen] | [[Hst Hids] | [Hst Hnone]]]).
  - rewrite Hst. split; [done |]. split; [by intros [? | ?] | done].
  - apply (f_equal length) in Hids. rewrite !length_map in Hids.
    split; [lia |]. split; [by left | done].
  - rewrite Hnone, Hst. cbn [length].
    split; [lia |]. split; [by right | done].
Qed.

(** C10 (amended). Under the same conditions, a session seen with status
    [completed] has its results in the order of its regions: the region ids
    of the results are the ids of the regions, position by position; so the
    results carry exactly the ids of the regions, and no id twice when the
    request has no id twice. *)
Theorem results_follow_region_order (w : World) (sessions : gmap string OCRSession)
    (uuid : string) (imageId : option string) (regions : option (list Region))
    (now k : Z) (reply : Reply ProcessOCRResponse) (store : gmap string OCRSession)
    (events : list Event) (t : Z) (session : OCRSession) :
  parseInt (or_default (env_OCR_CONCURRENCY_LIMIT w) "3") = Num k ->
  sessions !! uuid = None ->
  processOCR w sessions uuid imageId regions now = (reply, store, events) ->
  storeAt events store t !! uuid = Some session ->
  status session = completed ->
  regions = Some (Types.regions session)
  /\ map Types.regionId (results session) = map id (Types.regions session)
  /\ (forall (i : nat) region, Types.regions session !! i = Some region ->
        exists result, results session !! i = Some result
                       /\ Types.regionId result = id region)
  /\ (forall rid, rid ∈ map Types.regionId (results session)
                  <-> rid ∈ map id (Types.regions session))
  /\ (NoDup (map id (Types.regions session)) ->
      NoDup (map Types.regionId (results session))).
Proof.
  intros Hlimit Hfresh Hreq Hview Hcompleted.
  destruct (processOCR_accepted w sessions uuid imageId regions now reply store events t
              session Hfresh Hreq Hview) as (imageId' & regions' & -> & -> & -> & ->).
  destruct (polled_session w sessions uuid imageId' regions' now k t session Hlimit Hview)
    as (-> & [[Hst _] | [[_ Hids] | [Hst _]]]); [congruence | | congruence].
  split; [done |]. split; [done |]. split; [| split].
  - intros i region Hi.
    assert (map Types.regionId (results session) !! i = Some (id region)) as Hrid.
    { rewrite Hids. by rewrite list_lookup_fmap, Hi. }
    rewrite list_lookup_fmap in Hrid.
    destruct (results session !! i) as [result |]; [| done].
    injection Hrid as Hrid. eauto.
  - intros rid. by rewrite Hids.
  - by rewrite Hids.
Qed.

(** *** The schedule of the batches and the deadline of a task *)

Section Schedule.
Variable w : World.
Variable sid : string.

Lemma batch_loop_schedule batches now :
  Spec.in_sequence now (batch_loop w sid batches now)
  /\ Forall2 (batch_served w sid) batches (batch_loop w sid batches now).
Proof.
  revert now. induction batches as [| batch rest IH]; intros now; cbn [batch_loop].
  - split; [done | constructor].
  - destruct (processBatch_resolves w sid batch now) as (rs & Hout & Hids & _ & Hmembers).
    set (run := processBatch w sid batch now) in *.
    rewrite Hout. destruct (IH (settledAt (finished run))) as [Hseq Hall].
    split; [by split |]. constructor; [| exact Hall].
    split; [done |]. exists rs. split; [done |]. split; [done |]. split; [| done].
    apply (batch_events_resolved sid run rs Hout).
    apply Forall_forall. intros task (pr & -> & _)%list_elem_of_fmap.
    apply processRegion_notes.
Qed.

Lemma chunks_seven {A : Type} (l : list A) :
  length l = 7%nat -> map length (Spec.chunks 3 l) = [3; 3; 1]%nat.
Proof.
  intros Hlen.
  do 8 (destruct l as [| ? l]; try discriminate Hlen). reflexivity.
Qed.

End Schedule.

Section Deadline.
Context {T : Type}.

Lemma withTimeout_expires now (p : Promise T) ms msg :
  now + timerDelay ms < settledAt p ->
  withTimeout now p ms msg = createTimeout now ms msg.
Proof.
  intros Hlate. unfold withTimeout, race.
  destruct (Z.ltb_spec (settledAt (@createTimeout T now ms msg)) (settledAt p)) as [_ | Hge];
    [done | cbn in Hge; lia].
Qed.

Lemma withTimeout_in_time now (p : Promise T) ms msg :
  settledAt p <= now + timerDelay ms ->
  withTimeout now p ms msg = p.
Proof.
  intros Hearly. unfold withTimeout, race.
  destruct (Z.ltb_spec (settledAt (@createTimeout T now ms msg)) (settledAt p)) as [Hlt | _];
    [cbn in Hlt; lia | done].
Qed.

(** The instant at which a run of the retry loop ends: its start plus the
    time of every attempt made and of every sleep. *)
Lemma retry_loop_elapsed (fn : Z -> Z -> Promise T) (attempt_time : Z -> Z) config :
  (forall k now, settledAt (fn k now) = now + attempt_time k) ->
  forall n attempt now last,
    let run := retry_loop fn config n attempt now last in
    settledAt (promise run)
    = now + Spec.total_time (map attempt_time (attempts run))
                            (map (fun delay => timerDelay (Num delay)) (sleeps run)).
Proof.
  intros Hfn n. unfold Spec.total_time.
  induction n as [| n IH]; intros attempt now last; cbn [retry_loop].
  - cbn. lia.
  - destruct (outcome (fn attempt now)) as [v | error].
    + cbn. rewrite Hfn. lia.
    + destruct (_ || _).
      * cbn. rewrite Hfn. lia.
      * cbn [promise attempts sleeps map foldr]. cbn zeta in IH. rewrite IH, Hfn. lia.
Qed.

End Deadline.

Lemma processOCR_elapsed config generate now :
  settledAt (GeminiService.processOCR config generate now)
  = now + Z.min (Z.of_N (duration generate)) (timerDelay (timeout config)).
Proof.
  unfold GeminiService.processOCR, race, await. cbn [settledAt].
  destruct (Z.ltb_spec (now + timerDelay (timeout config)) (now + Z.of_N (duration generate)));
    cbn [outcome settledAt].
  - lia.
  - destruct (response generate); cbn [settledAt]; lia.
Qed.

(** C5 (amended). A run of the orchestrator whose image is found, whose
    regions are valid and cropped to [processedRegions], under a concurrency
    limit that parses to an integer [k >= 1] (3 when the variable is unset):
    the splitting loop ends with consecutive batches whose concatenation is
    [processedRegions]; every batch has between 1 and [k] members and every
    batch followed by another has exactly [k]; seven regions with [k = 3]
    give batches of sizes 3, 3, 1.  The batches run in sequence: the first
    starts when the cropping has settled, each later one at the instant the
    previous one has settled, which is not before any of its members has
    settled and is the instant its results are pushed, in batch order.  The
    events of the run are exactly those of these batches, batch after batch,
    followed by the status [completed] and the sweep when the last batch has
    settled. *)
Theorem batches_in_sequence (w : World) (sessions : gmap string OCRSession)
    (sid imageId : string) (regions : list Region) (now k : Z)
    (names : list string) (imageFile : string) (v : Validation)
    (processedRegions : list ProcessedRegion) :
  let listed := await now (readdir w) in
  let imagePath := path_join (uploadDir w) imageFile in
  let validation := validateRegions (sharp w) imagePath regions (settledAt listed) in
  let cropped := cropRegions (sharp w) imagePath regions (settledAt validation) in
  is_Some (sessions !! sid) ->
  parseInt (or_default (env_OCR_CONCURRENCY_LIMIT w) "3") = Num k -> 0 < k ->
  outcome listed = Resolved names ->
  List.find (fun file => startsWith file (imageId +:+ "_")) names = Some imageFile ->
  outcome validation = Resolved v -> valid v = true ->
  outcome cropped = Resolved processedRegions ->
  (env_OCR_CONCURRENCY_LIMIT w = None -> k = 3)
  /\ exists batches,
       splitBatches processedRegions (Num k) = Some batches
       /\ concat batches = processedRegions
       /\ Forall (fun batch => 0 < length batch <= Z.to_nat k)%nat batches
       /\ (forall pre batch post,
             batches = pre ++ batch :: post -> post <> [] -> length batch = Z.to_nat k)
       /\ (k = 3 -> length processedRegions = 7%nat -> map length batches = [3; 3; 1]%nat)
       /\ let runs := batch_loop w sid batches (settledAt cropped) in
          Spec.in_sequence (settledAt cropped) runs
          /\ Forall2 (batch_served w sid) batches runs
          /\ processOCRAsync w sessions sid imageId regions now
             = flat_map (batch_events sid) runs
               ++ conclude sid completed (settledAt (loop_end (settledAt cropped) runs)).
Proof.
  intros listed imagePath validation cropped [s0 Hs0] Hlimit Hk Hnames Hfile Hv Hvalid Hcrop.
  split.
  { intros Hunset. rewrite Hunset in Hlimit. cbn in Hlimit. by injection Hlimit as <-. }
  exists (Spec.chunks (Z.to_nat k) processedRegions).
  split; [by apply splitBatches_chunks |].
  split; [apply chunks_concat; lia |].
  split; [apply chunks_sizes; lia |].
  split; [apply chunks_full; lia |].
  split; [intros -> Hlen; by apply chunks_seven |].
  cbn zeta.
  destruct (batch_loop_schedule w sid (Spec.chunks (Z.to_nat k) processedRegions)
              (settledAt cropped)) as [Hseq Hserved].
  split; [exact Hseq |]. split; [exact Hserved |].
  unfold processOCRAsync. rewrite Hs0. cbn zeta.
  fold listed. rewrite Hnames, Hfile.
  fold imagePath. fold validation. rewrite Hv, Hvalid. cbn [negb].
  fold cropped. rewrite Hcrop, Hlimit.
  rewrite splitBatches_chunks by done.
  destruct (batch_loop_trace w sid (Spec.chunks (Z.to_nat k) processedRegions)
              (settledAt cropped)) as (Hdone & _).
  cbn zeta in Hdone. by rewrite Hdone.
Qed.

(** Seven regions under the default limit: batches of 3, 3 and 1, the
    first started when the cropping has settled (at 22 ms), and the run
    consists of their events followed by the completion. *)
Lemma batches_in_sequence_witness :
  let w := Examples.world None Examples.quick in
  let regions := map Examples.region ["a"; "b"; "c"; "d"; "e"; "f"; "g"] in
  let sessions : gmap string OCRSession :=
    {[ "s1" := mkSession "s1" "img1" regions [] processing 0 None ]} in
  let processedRegions :=
    map (fun rid => mkProcessedRegion rid [] "image/png") ["a"; "b"; "c"; "d"; "e"; "f"; "g"] in
  exists batches,
    splitBatches processedRegions (Num 3) = Some batches
    /\ map length batches = [3; 3; 1]%nat
    /\ let runs := batch_loop w "s1" batches 22 in
       Spec.in_sequence 22 runs
       /\ map started runs = [22; 423; 824]
       /\ processOCRAsync w sessions "s1" "img1" regions 0
          = flat_map (batch_events "s1") runs ++ conclude "s1" completed 1225.
Proof.
  intros w regions sessions processedRegions.
  destruct (batches_in_sequence w sessions "s1" "img1" regions 0 3 ["img1_photo.png"]
              "img1_photo.png" (mkValidation true []) processedRegions) as
    (_ & batches & Hsplit & _ & _ & _ & Hseven & Hseq & _ & Hrun);
    [by eexists | reflexivity | lia | reflexivity | reflexivity | reflexivity | reflexivity
    | reflexivity |].
  exists batches. split; [exact Hsplit |]. split; [by apply Hseven |].
  assert (batches = [ map (fun rid => mkProcessedRegion rid [] "image/png") ["a"; "b"; "c"];
                      map (fun rid => mkProcessedRegion rid [] "image/png") ["d"; "e"; "f"];
                      map (fun rid => mkProcessedRegion rid [] "image/png") ["g"] ]) as ->.
  { vm_compute in Hsplit. by injection Hsplit as <-. }
  split; [exact Hseq |]. split; [vm_compute; reflexivity |].
  exact Hrun.
Defined.

(** C7. A promise that settles after the timer makes [withTimeout] reject,
    at the instant the timer fires, with an error whose code is [TIMEOUT] and
    whose [retryable] flag is [true].  In [processRegion] the timer is set
    once, when the retry loop starts, and races the whole loop: the loop ends
    at its start plus the time of all its attempts and sleeps, and as soon as
    that total exceeds the configured timeout the task settles at the
    deadline with the timeout error, however short each attempt is;
    otherwise it settles when the loop does. *)
Theorem timeout_bounds_whole_retry (w : World) (sid : string)
    (processedRegion : ProcessedRegion) (start : Z) (optimizedBuffer : Buffer) :
  outcome (optimizeForOCR (sharp w) (imageBuffer processedRegion) start)
    = Resolved optimizedBuffer ->
  let rid := ImageProcessingService.regionId processedRegion in
  let t := settledAt (optimizeForOCR (sharp w) (imageBuffer processedRegion) start) in
  let request := {| image := optimizedBuffer; prompt := OCR_PROMPT |} in
  let limit := timerDelay (timeout (geminiConfig w)) in
  let run :=
    retryWithBackoff
      (fun attempt now =>
         GeminiService.processOCR (geminiConfig w) (generateContent w rid request attempt) now)
      DEFAULT_RETRY_CONFIG t in
  let total :=
    Spec.total_time
      (map (fun attempt =>
              Z.min (Z.of_N (duration (generateContent w rid request attempt))) limit)
           (attempts run))
      (map (fun delay => timerDelay (Num delay)) (sleeps run)) in
  (forall (p : Promise string) now ms msg,
      now + timerDelay ms < settledAt p ->
      exists text,
        withTimeout now p ms msg
        = mkPromise (now + timerDelay ms)
            (Rejected (TErr (mkError (Some "TIMEOUT") (Some text) (JBool true)))))
  /\ settledAt (promise run) = t + total
  /\ settledAt (settled (processRegion w sid processedRegion start)) = t + Z.min total limit
  /\ (limit < total ->
      settled (processRegion w sid processedRegion start)
      = mkPromise (t + limit)
          (Resolved
             {| Types.regionId := rid; text := ""; processingTime := t + limit - start;
                error := Some {| Types.code := "TIMEOUT";
                                 Types.message := "OCR processing timed out";
                                 Types.retryable := false |} |})).
Proof.
  intros Hopt rid t request limit run total.
  assert (settledAt (promise run) = t + total) as Hrun.
  { unfold run, retryWithBackoff, total.
    apply (retry_loop_elapsed _
             (fun attempt =>
                Z.min (Z.of_N (duration (generateContent w rid request attempt))) limit)).
    intros k now. apply processOCR_elapsed. }
  split.
  { intros p now ms msg Hlate. rewrite withTimeout_expires by done.
    unfold createTimeout. eauto. }
  split; [exact Hrun |].
  assert (settled (processRegion w sid processedRegion start)
          = let p := withTimeout t (promise run) (timeout (geminiConfig w))
                                 (Some "OCR processing timed out") in
            match outcome p with
            | Resolved text =>
                mkPromise (settledAt p)
                  (Resolved {| Types.regionId := rid; text := text;
                               processingTime := settledAt p - start; error := None |})
            | Rejected error => caught rid start (settledAt p) error
            end) as ->.
  { unfold processRegion. rewrite Hopt. fold rid t request. fold run.
    cbn zeta. by destruct (outcome (withTimeout _ _ _ _)). }
  cbn zeta.
  destruct (Z.lt_ge_cases limit total) as [Hover | Hwithin].
  - rewrite withTimeout_expires by (fold limit; lia).
    cbn [createTimeout outcome settledAt caught Js.code Js.message or_default].
    fold limit. split; [f_equal; lia | done].
  - rewrite withTimeout_in_time by (fold limit; lia).
    split; [| lia].
    assert (outcome (promise run) <> Rejected TUndefined) as Hobj.
    { apply retry_throws_object; [| done]. intros k' t'. apply processOCR_throws_object. }
    destruct (outcome (promise run)) as [text | [| err]]; [cbn; lia | done | cbn; lia].
Qed.

Lemma timeout_bounds_whole_retry_witness :
  let w := Examples.world None Examples.flaky in
  let processedRegion := mkProcessedRegion "r1" [] "image/png" in
  outcome (optimizeForOCR (sharp w) (imageBuffer processedRegion) 10) = Resolved []
  /\ attempts (retryWithBackoff
                 (fun attempt now =>
                    GeminiService.processOCR (geminiConfig w)
                      (generateContent w "r1" {| image := []; prompt := OCR_PROMPT |} attempt) now)
                 DEFAULT_RETRY_CONFIG 11) = [1; 2; 3]
  /\ settled (processRegion w "s1" processedRegion 10)
     = mkPromise 30011
         (Resolved
            {| Types.regionId := "r1"; text := ""; processingTime := 30001;
               error := Some {| Types.code := "TIMEOUT";
                                Types.message := "OCR processing timed out";
                                Types.retryable := false |} |}).
Proof.
  intros w processedRegion.
  split; [reflexivity |]. split; [reflexivity |].
  destruct (timeout_bounds_whole_retry w "s1" processedRegion 10 [] eq_refl)
    as (_ & _ & _ & Hlate).
  apply Hlate. vm_compute. reflexivity.
Defined.


(** *** What the code does around the evaluated cases *)

(** The [catch] clause of [processRegion] on an error object: code and
    message from the error or defaulted, [retryable] always [false]. *)
Lemma caught_records rid start now err :
  caught rid start now (TErr err)
  = mkPromise now
      (Resolved
         {| Types.regionId := rid; text := ""; processingTime := now - start;
            error := Some {| Types.code := or_default (Js.code err) "PROCESSING_ERROR";
                             Types.message := or_default (Js.message err) "Failed to process region";
                             Types.retryable := false |} |}).
Proof. reflexivity. Qed.

(** The classification of [GeminiService.processOCR] on an underlying error
    that has a non-empty message. *)
Lemma classify_with_message err m :
  Js.message err = Some m -> m <> "" ->
  GeminiService.classify (TErr err)
  = mkError (Some (or_default (Js.code err) "GEMINI_ERROR")) (Some m)
            (JBool (existsb (fun errType => includes m errType) GeminiService.retryableErrors)).
Proof.
  intros Hm Hne. unfold GeminiService.classify, GeminiService.isRetryable, or_default.
  rewrite Hm. destruct (String.eqb_spec m ""); [done | reflexivity].
Qed.

(** A poll does not change the store, and for a finished session it reports
    the time between creation and completion, whenever it is made. *)
Lemma finished_poll_time (sessions : gmap string OCRSession) sid now session finishedAt :
  sessions !! sid = Some session ->
  completedAt session = Some finishedAt ->
  getOCRStatus sessions sid now
  = Json {| resp_data :=
              mkProcessOCRResponse (Types.sessionId session) (results session)
                (finishedAt - createdAt session) (status_eqb (status session) completed);
            resp_status := status session;
            progress_current := length (results session);
            progress_total := length (regions session) |}.
Proof. intros Hs Hc. unfold getOCRStatus. by rewrite Hs, Hc. Qed.

(** *** Evaluations *)

Lemma results_bounded_by_regions_witness :
  let w := Examples.world None Examples.quick in
  let request := Some [Examples.region "r1"; Examples.region "r2"] in
  let run := processOCR w ∅ "s1" (Some "img1") request 0 in
  parseInt (or_default (env_OCR_CONCURRENCY_LIMIT w) "3") = Num 3
  /\ (∅ : gmap string OCRSession) !! "s1" = None
  /\ exists session,
       storeAt run.2 run.1.2 500 !! "s1" = Some session
       /\ status session = completed
       /\ length (results session) = length (regions session).
Proof.
  intros w request run.
  split; [reflexivity |]. split; [reflexivity |].
  eexists. split; [vm_compute; reflexivity |]. split; [reflexivity |].
  eapply (results_bounded_by_regions w ∅ "s1" (Some "img1") request 0 3
            run.1.1 run.1.2 run.2 500); [reflexivity .. |].
  reflexivity.
Defined.

(** With a limit that is not a number the session is marked completed
    although no region was processed. *)
Lemma completed_without_results :
  let w := Examples.world (Some "abc") Examples.quick in
  let run := processOCR w ∅ "s1" (Some "img1") (Some [Examples.region "r1"]) 0 in
  parseInt (or_default (env_OCR_CONCURRENCY_LIMIT w) "3") = NaN
  /\ exists session,
       storeAt run.2 run.1.2 500 !! "s1" = Some session
       /\ status session = completed
       /\ (length (results session) < length (regions session))%nat.
Proof.
  intros w run. split; [reflexivity |].
  eexists. split; [vm_compute; reflexivity |]. split; [reflexivity |].
  cbn. lia.
Qed.

Lemma results_follow_region_order_witness :
  let w := Examples.world None Examples.quick in
  let request := Some [Examples.region "r1"; Examples.region "r2"] in
  let run := processOCR w ∅ "s1" (Some "img1") request 0 in
  parseInt (or_default (env_OCR_CONCURRENCY_LIMIT w) "3") = Num 3
  /\ (∅ : gmap string OCRSession) !! "s1" = None
  /\ exists session,
       storeAt run.2 run.1.2 500 !! "s1" = Some session
       /\ status session = completed
       /\ map Types.regionId (results session) = ["r1"; "r2"].
Proof.
  intros w request run.
  split; [reflexivity |]. split; [reflexivity |].
  eexists. split; [vm_compute; reflexivity |]. split; [reflexivity |].
  eapply (results_follow_region_order w ∅ "s1" (Some "img1") request 0 3
            run.1.1 run.1.2 run.2 500); reflexivity.
Defined.

(** With a limit that is not a number a completed session has no result at
    the position of its first region. *)
Lemma completed_out_of_order :
  let w := Examples.world (Some "abc") Examples.quick in
  let run := processOCR w ∅ "s1" (Some "img1") (Some [Examples.region "r1"]) 0 in
  exists session,
    storeAt run.2 run.1.2 500 !! "s1" = Some session
    /\ status session = completed
    /\ regions session !! 0%nat = Some (Examples.region "r1")
    /\ results session !! 0%nat = None
    /\ map Types.regionId (results session) <> map id (regions session).
Proof.
  intros w run.
  eexists. split; [vm_compute; reflexivity |]. split; [reflexivity |].
  split; [reflexivity |]. split; [reflexivity |]. discriminate.
Qed.

(** With a limit that is not a number the splitting loop leaves one batch,
    which is empty although a region was cropped: the batches do not cover
    the cropped regions, and the run ends [completed] without an event for
    the region.  With the limit 0 the splitting loop never ends: no batch is
    formed and the run has no event at all. *)
Lemma unparsable_limit_empty_batch :
  let cropped := [mkProcessedRegion "r1" [] "image/png"] in
  let sessions : gmap string OCRSession :=
    {[ "s1" := mkSession "s1" "img1" [Examples.region "r1"] [] processing 0 None ]} in
  let run limit :=
    processOCRAsync (Examples.world (Some limit) Examples.quick) sessions "s1" "img1"
                    [Examples.region "r1"] 0 in
  cropRegions Examples.sharp_ok "/srv/uploads/img1_photo.png" [Examples.region "r1"] 8
    = mkPromise 10 (Resolved cropped)
  /\ parseInt "abc" = NaN
  /\ splitBatches cropped (parseInt "abc") = Some [[]]
  /\ concat [[]] <> cropped
  /\ run "abc" = conclude "s1" completed 10
  /\ parseInt "0" = Num 0
  /\ (forall fuel, split_loop fuel cropped (parseInt "0") (Num 0) [] = None)
  /\ run "0" = [].
Proof.
  intros cropped sessions run.
  split; [reflexivity |]. split; [reflexivity |]. split; [reflexivity |].
  split; [discriminate |]. split; [vm_compute; reflexivity |].
  split; [reflexivity |]. split; [| vm_compute; reflexivity].
  intros fuel. by apply (split_loop_diverges cropped 0).
Qed.

Lemma validateRegions_collects_witness :
  let sharp := Examples.sharp_ok in
  let inside := mkRegion "a" 90 90 10 10 "#10B981" None in
  let outside := mkRegion "b" (-5) 95 5 10 "#EF4444" None in
  outcome (await 0 (metadata sharp "img")) = Resolved (Some 100, Some 100)
  /\ 100 <> 0
  /\ exists v,
       outcome (validateRegions sharp "img" [inside; outside] 0) = Resolved v
       /\ valid v = false
       /\ errors v = [ "Region b has negative coordinates";
                       "Region b extends beyond image height";
                       "Region b is too small (minimum 10x10 pixels)" ].
Proof.
  intros sharp inside outside. split; [reflexivity |]. split; [lia |].
  destruct (validateRegions_collects sharp "img" [inside; outside] 0 100 100)
    as (v & Hv & Herrors & Hvalid & _ & Hneg); [reflexivity | lia | lia |].
  exists v. split; [exact Hv |]. split.
  - apply (Hneg outside); [right; by left | left; cbn; lia].
  - rewrite Herrors. reflexivity.
Defined.

(** C2. Evaluation at a region whose vision calls keep failing with a
    transient error: the error thrown into the [catch] clause of
    [processRegion] has [retryable] set to [true], the result records
    [retryable: false]. *)
Theorem processRegion_drops_retryable :
  let backend : string -> VisionRequest -> Z -> Call string :=
    fun _ _ _ => mkCall 200 (Rejected (TErr (mkError None (Some "503 UNAVAILABLE") JUndefined))) in
  let w := Examples.world None backend in
  let processedRegion := mkProcessedRegion "r1" [] "image/png" in
  let run :=
    retryWithBackoff
      (fun attempt now =>
         GeminiService.processOCR (geminiConfig w)
           (generateContent w "r1" {| image := []; prompt := OCR_PROMPT |} attempt) now)
      DEFAULT_RETRY_CONFIG 11 in
  outcome (withTimeout 11 (promise run) (timeout (geminiConfig w))
                       (Some "OCR processing timed out"))
  = Rejected (TErr (mkError (Some "GEMINI_ERROR") (Some "503 UNAVAILABLE") (JBool true)))
  /\ settled (processRegion w "s1" processedRegion 10)
     = mkPromise 6611
         (Resolved
            {| Types.regionId := "r1"; text := ""; processingTime := 6601;
               error := Some {| Types.code := "GEMINI_ERROR";
                                Types.message := "503 UNAVAILABLE";
                                Types.retryable := false |} |}).
Proof. split; vm_compute; reflexivity. Qed.

(** C8. Evaluation at a vision call that fails with an error carrying a
    code but no message: the propagated error has [retryable] undefined, not
    [false], and the retry loop, finding no explicit flag, classifies it by
    its code and retries it. *)
Theorem processOCR_flag_undefined :
  let config := mkGeminiConfig "key" "gemini-2.5-flash" (Num 30000) in
  let generate : Call string :=
    mkCall 120 (Rejected (TErr (mkError (Some "ECONNRESET") None JUndefined))) in
  let thrown :=
    mkError (Some "ECONNRESET") (Some "Failed to process image with Gemini") JUndefined in
  GeminiService.processOCR config generate 0 = mkPromise 120 (Rejected (TErr thrown))
  /\ Js.retryable thrown <> JBool false
  /\ isRetryableError (TErr thrown) DEFAULT_RETRY_CONFIG = true
  /\ attempts (retryWithBackoff (fun _ now => GeminiService.processOCR config generate now)
                                DEFAULT_RETRY_CONFIG 0) = [1; 2; 3].
Proof. repeat split; try (vm_compute; reflexivity). discriminate. Qed.

(** C9. Evaluation at a session with one region whose first vision call
    fails after 20 s and whose second call fails after 10 s, both
    retryably, under the default 30 s timeout: the session is completed at
    30011 ms, yet the polls at 31 s and at 33 s return different results,
    because the abandoned retry loop rewrites the stored error message at
    32011 ms. *)
Theorem completed_session_mutated :
  let w := Examples.world None Examples.flaky in
  let run := processOCR w ∅ "s1" (Some "img1") (Some [Examples.region "r1"]) 0 in
  let timedOut message :=
    [ {| Types.regionId := "r1"; text := ""; processingTime := 30001;
         error := Some {| Types.code := "TIMEOUT"; Types.message := message;
                          Types.retryable := false |} |} ] in
  getOCRStatus (storeAt run.2 run.1.2 31000) "s1" 31000
  = Json {| resp_data := mkProcessOCRResponse "s1" (timedOut "OCR processing timed out")
                           30011 true;
            resp_status := completed; progress_current := 1; progress_total := 1 |}
  /\ getOCRStatus (storeAt run.2 run.1.2 33000) "s1" 33000
     = Json {| resp_data := mkProcessOCRResponse "s1" (timedOut "Retry attempt 2: UNAVAILABLE")
                              30011 true;
               resp_status := completed; progress_current := 1; progress_total := 1 |}.
Proof. split; vm_compute; reflexivity. Qed.

(** * Further properties of the code *)

Import Views.

(** ** utils/retryUtils.ts *)

Section RetryDiscipline.
Context {T : Type}.
Variable fn : Z -> Z -> Promise T.
Variable config : RetryConfig.

(** The loop entered at [attempt] with the iterations that remain up to
    [maxAttempts]. *)
Lemma retry_loop_discipline n attempt now last :
  n = Z.to_nat (maxAttempts config - attempt + 1) ->
  let run := retry_loop fn config n attempt now last in
  (length (attempts run) <= n)%nat
  /\ (n <> 0%nat -> attempts run <> [])
  /\ (forall (i : nat) a, attempts run !! i = Some a -> a = attempt + Z.of_nat i)
  /\ sleeps run = map (fun a => calculateBackoffDelay a config) (removelast (attempts run))
  /\ map (fun x : Z * Z * Thrown => x.1.2) (notified run) = removelast (attempts run)
  /\ Forall (fun x : Z * Z * Thrown => isRetryableError x.2 config = true) (notified run).
Proof.
  revert attempt now last. induction n as [| n IH]; intros attempt now last Hn; cbn [retry_loop].
  - cbn. repeat split; (done || constructor).
  - assert (forall p : Promise T,
              let run := mkRun p [attempt] [] [] in
              (length (attempts run) <= S n)%nat
              /\ (S n <> 0%nat -> attempts run <> [])
              /\ (forall (i : nat) a, attempts run !! i = Some a -> a = attempt + Z.of_nat i)
              /\ sleeps run = map (fun a => calculateBackoffDelay a config)
                                  (removelast (attempts run))
              /\ map (fun x : Z * Z * Thrown => x.1.2) (notified run)
                 = removelast (attempts run)
              /\ Forall (fun x : Z * Z * Thrown => isRetryableError x.2 config = true)
                        (notified run)) as Hlast.
    { intros p. cbn. repeat split; try done; try lia; try constructor.
      intros [| i] a; cbn; [intros [= <-]; lia | done]. }
    destruct (outcome (fn attempt now)) as [v | error]; [apply Hlast |].
    destruct (Z.geb_spec attempt (maxAttempts config)) as [Hge | Hlt]; cbn [orb];
      [apply Hlast |].
    destruct (isRetryableError error config) eqn:Hretry; cbn [negb]; [| apply Hlast].
    set (rest := retry_loop fn config n (attempt + 1) _ error).
    destruct (IH (attempt + 1) (settledAt (fn attempt now)
                                + timerDelay (Num (calculateBackoffDelay attempt config)))
                 error ltac:(lia)) as (Hlen & Hne & Hidx & Hsleeps & Hnotes & Hall).
    fold rest in Hlen, Hne, Hidx, Hsleeps, Hnotes, Hall.
    assert (attempts rest <> []) as Hrest by (apply Hne; lia).
    cbn [attempts sleeps notified length map].
    assert (removelast (attempt :: attempts rest) = attempt :: removelast (attempts rest))
      as ->.
    { destruct (attempts rest); [done | reflexivity]. }
    split; [lia |]. split; [done |]. split; [| split; [| split]].
    + intros [| i] a; cbn; [intros [= <-]; lia |].
      intros Ha%Hidx. lia.
    + cbn [map]. by rewrite Hsleeps.
    + cbn [fst snd]. by rewrite Hnotes.
    + by constructor.
Qed.

(** When every attempt fails retryably the loop uses every iteration and
    ends with the rejection of the last attempt. *)
Lemma retry_loop_exhausts n attempt now last :
  (forall k t, exists e, outcome (fn k t) = Rejected e /\ isRetryableError e config = true) ->
  (0 < n)%nat -> Z.of_nat n = maxAttempts config - attempt + 1 ->
  let run := retry_loop fn config n attempt now last in
  length (attempts run) = n
  /\ exists t, promise run = fn (maxAttempts config) t.
Proof.
  intros Hfail. revert attempt now last.
  induction n as [| n IH]; intros attempt now last Hpos Hn; [lia |].
  cbn [retry_loop].
  destruct (Hfail attempt now) as (e & He & Hr). rewrite He, Hr. cbn [negb].
  destruct (Z.geb_spec attempt (maxAttempts config)) as [Hge | Hlt]; cbn [orb].
  - assert (n = 0%nat) as -> by lia. cbn. split; [done |].
    exists now. replace (maxAttempts config) with attempt by lia.
    rewrite <- He. apply promise_eta.
  - destruct (IH (attempt + 1)
                 (settledAt (fn attempt now)
                  + timerDelay (Num (calculateBackoffDelay attempt config))) e)
      as [Hlen Hlast]; [lia | lia |].
    cbn [attempts promise length]. split; [by rewrite Hlen | exact Hlast].
Qed.

End RetryDiscipline.

(** X1. Whatever the operation and the configuration, a run of
    [retryWithBackoff] makes at most [maxAttempts] attempts, numbered 1, 2,
    3, ... without gap; it sleeps once after every attempt but the last, for
    the backoff delay of that attempt, and notifies [onRetry] exactly for
    those attempts, each time with an error it classifies as retryable. *)
Theorem retry_discipline {T : Type} (fn : Z -> Z -> Promise T) (config : RetryConfig)
    (now : Z) :
  let run := retryWithBackoff fn config now in
  (length (attempts run) <= Z.to_nat (maxAttempts config))%nat
  /\ (forall (i : nat) a, attempts run !! i = Some a -> a = Z.of_nat i + 1)
  /\ sleeps run = map (fun a => calculateBackoffDelay a config) (removelast (attempts run))
  /\ map (fun x : Z * Z * Thrown => x.1.2) (notified run) = removelast (attempts run)
  /\ Forall (fun x : Z * Z * Thrown => isRetryableError x.2 config = true) (notified run).
Proof.
  intros run.
  destruct (retry_loop_discipline fn config (Z.to_nat (maxAttempts config)) 1 now TUndefined)
    as (Hlen & _ & Hidx & Hsleeps & Hnotes & Hall); [f_equal; lia |].
  split; [exact Hlen |]. split; [| by repeat split].
  intros i a Ha. apply Hidx in Ha. lia.
Qed.

(** X2. When every attempt fails with a retryable error and at least one
    attempt is allowed, [retryWithBackoff] makes exactly [maxAttempts]
    attempts, sleeps [maxAttempts - 1] times, and returns the rejection of
    the last attempt as it is. *)
Theorem retry_exhaustion {T : Type} (fn : Z -> Z -> Promise T) (config : RetryConfig)
    (now : Z) :
  1 <= maxAttempts config ->
  (forall k t, exists e, outcome (fn k t) = Rejected e /\ isRetryableError e config = true) ->
  let run := retryWithBackoff fn config now in
  Z.of_nat (length (attempts run)) = maxAttempts config
  /\ Z.of_nat (length (sleeps run)) = maxAttempts config - 1
  /\ exists t, promise run = fn (maxAttempts config) t.
Proof.
  intros Hmax Hfail run.
  destruct (retry_loop_exhausts fn config (Z.to_nat (maxAttempts config)) 1 now TUndefined Hfail)
    as [Hlen Hlast]; [lia | lia |].
  destruct (retry_loop_discipline fn config (Z.to_nat (maxAttempts config)) 1 now TUndefined)
    as (_ & _ & _ & Hsleeps & _); [f_equal; lia |].
  cbn zeta in Hlen, Hlast, Hsleeps.
  change (retry_loop fn config (Z.to_nat (maxAttempts config)) 1 now TUndefined)
    with run in Hlen, Hlast, Hsleeps.
  split; [lia |]. split; [| exact Hlast].
  rewrite Hsleeps, length_map.
  destruct (attempts run) as [| a l] eqn:Ha using rev_ind; [cbn in Hlen; lia |].
  rewrite removelast_last. rewrite length_app in Hlen. cbn in Hlen. lia.
Qed.

Lemma retry_exhaustion_witness :
  let e := TErr (mkError (Some "GEMINI_ERROR") (Some "UNAVAILABLE") (JBool true)) in
  let fn := fun (_ now : Z) => mkPromise (now + 10) (@Rejected string e) in
  1 <= maxAttempts DEFAULT_RETRY_CONFIG
  /\ attempts (retryWithBackoff fn DEFAULT_RETRY_CONFIG 0) = [1; 2; 3]
  /\ Z.of_nat (length (sleeps (retryWithBackoff fn DEFAULT_RETRY_CONFIG 0))) = 2.
Proof.
  intros e fn. split; [cbn; lia |]. split; [reflexivity |].
  destruct (retry_exhaustion fn DEFAULT_RETRY_CONFIG 0) as (_ & Hs & _);
    [cbn; lia | intros k t; exists e; by split |].
  exact Hs.
Defined.

(** X3. With [maxAttempts] zero or negative the operation is never invoked:
    the run rejects at once with [undefined], the initial value of
    [lastError]. *)
Theorem retry_without_attempts {T : Type} (fn : Z -> Z -> Promise T) (config : RetryConfig)
    (now : Z) :
  maxAttempts config <= 0 ->
  retryWithBackoff fn config now = mkRun (mkPromise now (Rejected TUndefined)) [] [] [].
Proof.
  intros Hmax. unfold retryWithBackoff.
  by replace (Z.to_nat (maxAttempts config)) with 0%nat by lia.
Qed.

Lemma retry_without_attempts_witness :
  let config := mkRetryConfig 0 2000 10000 2 [] in
  let fn := fun (_ now : Z) => mkPromise now (Resolved "never asked") in
  maxAttempts config <= 0
  /\ outcome (promise (retryWithBackoff fn config 7)) = Rejected TUndefined.
Proof.
  intros config fn. split; [cbn; lia |].
  by rewrite (retry_without_attempts fn config 7) by (cbn; lia).
Defined.

(** X4. Within the range where the double arithmetic of the code is exact
    (the power, the product and [maxDelay] are integers within 2^53), with a
    non-negative base delay and a multiplier of at least 1: a backoff delay
    never exceeds [maxDelay], it never decreases from one attempt to a later
    one, and once it has reached the cap it stays there. *)
Theorem backoff_delay_bounds (config : RetryConfig) (a b : Z) :
  0 <= baseDelay config -> 1 <= backoffMultiplier config -> 1 <= a <= b ->
  backoffMultiplier config ^ (b - 1) <= 2 ^ 53 ->
  baseDelay config * backoffMultiplier config ^ (b - 1) <= 2 ^ 53 ->
  - 2 ^ 53 <= maxDelay config <= 2 ^ 53 ->
  calculateBackoffDelay b config <= maxDelay config
  /\ calculateBackoffDelay a config <= calculateBackoffDelay b config
  /\ (calculateBackoffDelay a config = maxDelay config ->
      calculateBackoffDelay b config = maxDelay config)
  /\ 0 <= backoffMultiplier config ^ (a - 1) <= 2 ^ 53
  /\ 0 <= baseDelay config * backoffMultiplier config ^ (a - 1) <= 2 ^ 53.
Proof.
  intros Hbase Hmult Hab Hpow53 Hmul53 Hmax. unfold calculateBackoffDelay.
  assert (backoffMultiplier config ^ (a - 1) <= backoffMultiplier config ^ (b - 1)) as Hpow.
  { apply Z.pow_le_mono_r; lia. }
  assert (0 < backoffMultiplier config ^ (a - 1)) as Hpos.
  { apply Z.pow_pos_nonneg; lia. }
  assert (baseDelay config * backoffMultiplier config ^ (a - 1)
          <= baseDelay config * backoffMultiplier config ^ (b - 1)) as Hmul.
  { apply Z.mul_le_mono_nonneg_l; lia. }
  assert (0 <= baseDelay config * backoffMultiplier config ^ (a - 1)) as Hnonneg.
  { apply Z.mul_nonneg_nonneg; lia. }
  repeat split; lia.
Qed.

Lemma backoff_delay_bounds_witness :
  let config := mkRetryConfig 10 1500 60000 3 [] in
  calculateBackoffDelay 2 config = 4500
  /\ calculateBackoffDelay 5 config = 60000
  /\ calculateBackoffDelay 9 config = 60000
  /\ calculateBackoffDelay 2 config <= calculateBackoffDelay 9 config.
Proof.
  intros config.
  split; [reflexivity |]. split; [reflexivity |]. split; [reflexivity |].
  apply (backoff_delay_bounds config 2 9); cbn; lia.
Defined.

Section Substrings.

Lemma startsWith_spec s p : startsWith s p = true <-> exists post, s = p +:+ post.
Proof.
  revert s. induction p as [| c p IH]; intros s.
  - split; [intros _; by exists s | by destruct s].
  - destruct s as [| d s]; cbn [startsWith]; [split; [done | by intros [post [=]]] |].
    rewrite andb_true_iff, IH. split.
    + intros [Hc%Ascii.eqb_eq [post ->]]. subst. by exists post.
    + intros [post [= -> ->]]. split; [apply Ascii.eqb_refl | by exists post].
Qed.

(** [s.includes(sub)] holds exactly when [sub] occurs in [s]. *)
Lemma includes_spec s sub :
  includes s sub = true <-> exists pre post, s = pre +:+ sub +:+ post.
Proof.
  split.
  - induction s as [| c s IH].
    + cbn [includes]. rewrite orb_false_r. intros [post ->]%startsWith_spec. by exists "", post.
    + cbn [includes]. intros [[post ->]%startsWith_spec | Hin]%orb_true_iff.
      * by exists "", post.
      * destruct (IH Hin) as (pre & post & ->). by exists (String c pre), post.
  - intros (pre & post & ->). induction pre as [| c pre IH].
    + assert (startsWith (sub +:+ post) sub = true) as H by (apply startsWith_spec; eauto).
      cbn [String.append]. revert H. generalize (sub +:+ post). intros s H.
      destruct s; cbn [includes]; apply orb_true_iff; left; exact H.
    + change (String c pre +:+ sub +:+ post) with (String c (pre +:+ sub +:+ post)).
      cbn [includes]. apply orb_true_iff. right. exact IH.
Qed.

Lemma chars_app a b :
  list_ascii_of_string (a +:+ b) = list_ascii_of_string a ++ list_ascii_of_string b.
Proof. induction a as [| c a IH]; simpl; [done | by f_equal]. Qed.

(** A string that lacks one character of [sub] does not include [sub]. *)
Lemma includes_char s sub c :
  In c (list_ascii_of_string sub) -> ¬ In c (list_ascii_of_string s) ->
  includes s sub = false.
Proof.
  intros Hsub Hs. destruct (includes s sub) eqn:Hinc; [| done].
  apply includes_spec in Hinc as (pre & post & ->).
  exfalso. apply Hs. rewrite !chars_app, !in_app_iff. auto.
Qed.

Lemma uint_chars d c :
  In c (list_ascii_of_string (NilEmpty.string_of_uint d)) ->
  (48 <= nat_of_ascii c <= 57)%nat.
Proof.
  induction d as [| d IH | d IH | d IH | d IH | d IH | d IH | d IH | d IH | d IH | d IH];
    cbn [NilEmpty.string_of_uint list_ascii_of_string In]; [done | ..];
    (intros [<- | Hin]; [vm_compute; lia | by apply IH]).
Qed.

(** The decimal rendering of a number is made of digits and a sign. *)
Lemma show_chars z c :
  In c (list_ascii_of_string (show z)) ->
  (48 <= nat_of_ascii c <= 57)%nat \/ nat_of_ascii c = 45%nat.
Proof.
  unfold show, NilZero.string_of_int.
  assert (forall d, In c (list_ascii_of_string (NilZero.string_of_uint d)) ->
                    (48 <= nat_of_ascii c <= 57)%nat) as Huint.
  { intros d. unfold NilZero.string_of_uint.
    destruct d; try apply uint_chars. cbn. intros [<- | []]. vm_compute. lia. }
  destruct (Z.to_int z) as [d | d].
  - intros Hin. left. by apply (Huint d).
  - cbn [list_ascii_of_string In]. intros [<- | Hin]; [right; reflexivity | left; by apply (Huint d)].
Qed.

End Substrings.

(** X5. An error that carries no boolean [retryable] flag is retryable
    exactly when one of the configured markers occurs in its code or in its
    message (an absent code or message counting as empty); a thrown
    [undefined] is never retryable. *)
Theorem marker_classification (e : JsError) (config : RetryConfig) :
  (forall b, Js.retryable e <> JBool b) ->
  isRetryableError TUndefined config = false
  /\ (isRetryableError (TErr e) config = true <->
      exists marker,
        In marker (retryableErrors config)
        /\ ((exists pre post, or_default (Js.code e) "" = pre +:+ marker +:+ post)
            \/ (exists pre post, or_default (Js.message e) "" = pre +:+ marker +:+ post))).
Proof.
  intros Hflag. split; [reflexivity |].
  unfold isRetryableError.
  assert (strictly_true (Js.retryable e) = false /\ strictly_false (Js.retryable e) = false)
    as [-> ->].
  { destruct (Js.retryable e) as [| [|] |]; try done; by destruct (Hflag _ eq_refl). }
  rewrite existsb_exists. split.
  - intros (marker & Hin & [H | H]%orb_true_iff); exists marker; (split; [done |]);
      [left | right]; by apply includes_spec.
  - intros (marker & Hin & [H | H]); exists marker; (split; [done |]);
      apply orb_true_iff; [left | right]; by apply includes_spec.
Qed.

Lemma marker_classification_witness :
  let e := mkError (Some "ECONNRESET") None JUndefined in
  (forall b, Js.retryable e <> JBool b)
  /\ isRetryableError (TErr e) DEFAULT_RETRY_CONFIG = true.
Proof.
  intros e. split; [done |].
  apply (marker_classification e DEFAULT_RETRY_CONFIG); [done |].
  exists "ECONNRESET". split; [cbn; tauto |]. left. by exists "", "".
Defined.

(** X6. [withTimeout] settles at the earlier of the promise and the timer,
    and a promise that settles before the timer fires comes back unchanged:
    no delay, no timeout error. *)
Theorem withTimeout_transparent {T : Type} (now : Z) (p : Promise T) (ms : JsNum)
    (msg : option string) :
  settledAt p < now + timerDelay ms ->
  withTimeout now p ms msg = p
  /\ forall q : Promise T,
       settledAt (withTimeout now q ms msg) = Z.min (settledAt q) (now + timerDelay ms).
Proof.
  intros Hearly. split; [apply withTimeout_in_time; lia |].
  intros q. destruct (Z.lt_ge_cases (now + timerDelay ms) (settledAt q)).
  - rewrite withTimeout_expires by done. cbn. lia.
  - rewrite withTimeout_in_time by lia. lia.
Qed.

Lemma withTimeout_transparent_witness :
  let p := mkPromise 2710 (Resolved "text") in
  settledAt p < 10 + timerDelay (Num 30000)
  /\ withTimeout 10 p (Num 30000) None = p.
Proof.
  intros p. split; [cbn; lia |].
  apply (withTimeout_transparent 10 p (Num 30000) None). cbn. lia.
Defined.

(** ** services/geminiService.ts *)

Section CallTimeout.

Lemma timeout_message_unmarked n marker c :
  In c (list_ascii_of_string marker) ->
  nat_of_ascii c = 95%nat \/ nat_of_ascii c = 85%nat \/ nat_of_ascii c = 73%nat ->
  includes ("Request timeout after " +:+ GeminiService.show_num n +:+ "ms") marker = false.
Proof.
  intros Hmarker Hc. apply (includes_char _ _ c Hmarker).
  rewrite !chars_app, !in_app_iff. intros [Hin | [Hin | Hin]].
  - cbn in Hin. repeat (destruct Hin as [<- | Hin]; [vm_compute in Hc; lia |]). done.
  - destruct n as [| z].
    + cbn in Hin. repeat (destruct Hin as [<- | Hin]; [vm_compute in Hc; lia |]). done.
    + apply show_chars in Hin. lia.
  - cbn in Hin. repeat (destruct Hin as [<- | Hin]; [vm_compute in Hc; lia |]). done.
Qed.

Lemma timeout_error_flag n :
  GeminiService.isRetryable
    (mkError None (Some ("Request timeout after " +:+ GeminiService.show_num n +:+ "ms"))
             JUndefined)
  = JBool false.
Proof.
  unfold GeminiService.isRetryable. cbn [Js.message].
  change (("Request timeout after " +:+ GeminiService.show_num n +:+ "ms" =? "")%string)
    with false.
  cbn [existsb GeminiService.retryableErrors].
  rewrite (timeout_message_unmarked n "RESOURCE_EXHAUSTED" "_"),
          (timeout_message_unmarked n "DEADLINE_EXCEEDED" "_"),
          (timeout_message_unmarked n "UNAVAILABLE" "U"),
          (timeout_message_unmarked n "INTERNAL" "I"); cbn; tauto.
Qed.

End CallTimeout.

(** X7. A vision call that takes longer than the configured timeout makes
    [GeminiService.processOCR] reject when its own timer fires, with code
    [GEMINI_ERROR], the message "Request timeout after <timeout>ms" and
    [retryable] set to [false]; so, whatever the retry configuration,
    [retryWithBackoff] gives up after that single attempt. *)
Theorem call_timeout_not_retried (config : GeminiConfig) (generate : Call string)
    (retryConfig : RetryConfig) (now : Z) :
  timerDelay (timeout config) < Z.of_N (duration generate) ->
  1 <= maxAttempts retryConfig ->
  let thrown :=
    mkError (Some "GEMINI_ERROR")
            (Some ("Request timeout after " +:+ GeminiService.show_num (timeout config) +:+ "ms"))
            (JBool false) in
  GeminiService.processOCR config generate now
  = mkPromise (now + timerDelay (timeout config)) (Rejected (TErr thrown))
  /\ retryWithBackoff (fun _ t => GeminiService.processOCR config generate t) retryConfig now
     = mkRun (mkPromise (now + timerDelay (timeout config)) (Rejected (TErr thrown)))
             [1] [] [].
Proof.
  intros Hslow Hmax thrown.
  assert (forall t, GeminiService.processOCR config generate t
                    = mkPromise (t + timerDelay (timeout config)) (Rejected (TErr thrown)))
    as Hcall.
  { intros t. unfold GeminiService.processOCR, race, await. cbn [settledAt].
    destruct (Z.ltb_spec (t + timerDelay (timeout config)) (t + Z.of_N (duration generate)));
      [| lia].
    cbn [outcome settledAt GeminiService.classify Js.message Js.code]. do 3 f_equal.
    unfold thrown. by rewrite timeout_error_flag. }
  split; [apply Hcall |].
  unfold retryWithBackoff.
  destruct (Z.to_nat (maxAttempts retryConfig)) as [| n] eqn:Hn; [lia |].
  rewrite (retry_loop_rethrow _ retryConfig n 1 now TUndefined (TErr thrown)).
  - by rewrite Hcall.
  - by rewrite Hcall.
  - right. reflexivity.
Qed.

Lemma call_timeout_not_retried_witness :
  let config := mkGeminiConfig "key" "gemini-2.5-flash" (Num 30000) in
  let generate := mkCall 45000 (Resolved "too late") in
  timerDelay (timeout config) < Z.of_N (duration generate)
  /\ 1 <= maxAttempts DEFAULT_RETRY_CONFIG
  /\ attempts (retryWithBackoff (fun _ t => GeminiService.processOCR config generate t)
                                DEFAULT_RETRY_CONFIG 0) = [1].
Proof.
  intros config generate. split; [cbn; lia |]. split; [cbn; lia |].
  destruct (call_timeout_not_retried config generate DEFAULT_RETRY_CONFIG 0) as [_ ->];
    [cbn; lia | cbn; lia | reflexivity].
Defined.

(** X8. For an underlying error with a non-empty message, whether
    [retryWithBackoff] retries a failed [GeminiService.processOCR] depends
    only on the four markers of the service in that message: the flag it sets
    is a boolean, so the markers of the retry configuration (in particular its
    network markers) and the error's code are never consulted. *)
Theorem service_flag_decides_retry (err : JsError) (m : string) (retryConfig : RetryConfig) :
  Js.message err = Some m -> m <> "" ->
  isRetryableError (TErr (GeminiService.classify (TErr err))) retryConfig
  = existsb (fun errType => includes m errType) GeminiService.retryableErrors.
Proof.
  intros Hm Hne. rewrite (classify_with_message err m Hm Hne).
  unfold isRetryableError. cbn [Js.retryable].
  by destruct (existsb _ _).
Qed.

Lemma service_flag_decides_retry_witness :
  let err := mkError (Some "ECONNRESET") (Some "read ECONNRESET") JUndefined in
  Js.message err = Some "read ECONNRESET" /\ "read ECONNRESET" <> ""
  /\ In "ECONNRESET" (retryableErrors DEFAULT_RETRY_CONFIG)
  /\ isRetryableError (TErr (GeminiService.classify (TErr err))) DEFAULT_RETRY_CONFIG = false.
Proof.
  intros err. split; [reflexivity |]. split; [done |]. split; [cbn; tauto |].
  by rewrite (service_flag_decides_retry err "read ECONNRESET" DEFAULT_RETRY_CONFIG).
Defined.

(** ** services/imageProcessingService.ts *)

Section Cropping.
Variable sharp : Sharp.
Variable imagePath : string.


Lemma crop_loop_resolves regions now acc :
  Forall (fun region => exists buffer, response (extraction sharp imagePath region) = Resolved buffer) regions ->
  exists processedRegions,
    crop_loop sharp imagePath regions now acc
    = mkPromise (now + foldr Z.add 0 (map (fun region => Z.of_N (duration (extraction sharp imagePath region)))
                                          regions))
                (Resolved (acc ++ processedRegions))
    /\ Forall2 (fun region processedRegion =>
                  ImageProcessingService.regionId processedRegion = id region
                  /\ mimeType processedRegion = "image/png"
                  /\ response (extraction sharp imagePath region) = Resolved (imageBuffer processedRegion))
               regions processedRegions.
Proof.
  intros Hall. revert now acc.
  induction Hall as [| region rest [buffer Hbuf] _ IH]; intros now acc; cbn [crop_loop].
  - exists []. cbn. rewrite app_nil_r, Z.add_0_r. split; [done | constructor].
  - unfold await, ImageProcessingService.round. cbn [outcome settledAt].
    fold (extraction sharp imagePath region). rewrite Hbuf.
    destruct (IH (now + Z.of_N (duration (extraction sharp imagePath region)))
                 (acc ++ [mkProcessedRegion (id region) buffer "image/png"]))
      as (tail & -> & Htail).
    exists (mkProcessedRegion (id region) buffer "image/png" :: tail).
    split.
    + cbn [map foldr]. rewrite <- app_assoc. cbn [app]. f_equal. lia.
    + constructor; [by cbn | exact Htail].
Qed.

Lemma crop_loop_fails before bad after now acc :
  Forall (fun region => exists buffer, response (extraction sharp imagePath region) = Resolved buffer) before ->
  (exists e, response (extraction sharp imagePath bad) = Rejected e) ->
  crop_loop sharp imagePath (before ++ bad :: after) now acc
  = mkPromise (now + foldr Z.add 0 (map (fun region => Z.of_N (duration (extraction sharp imagePath region)))
                                        (before ++ [bad])))
              (Rejected (TErr (mkError None (Some ("Failed to process region " +:+ id bad))
                                       JUndefined))).
Proof.
  intros Hall [e He]. revert now acc.
  induction Hall as [| region rest [buffer Hbuf] _ IH]; intros now acc;
    cbn [app crop_loop]; unfold await, ImageProcessingService.round; cbn [outcome settledAt].
  - fold (extraction sharp imagePath bad). rewrite He. cbn. f_equal. lia.
  - fold (extraction sharp imagePath region). rewrite Hbuf. rewrite IH. cbn [map foldr]. f_equal. lia.
Qed.

End Cropping.

(** X9. When every extraction succeeds, [cropRegions] resolves, after the
    extractions have run one after the other, to one processed region per
    region, in the order of the regions, each carrying the region's id, the
    extracted pixels and the mime type [image/png]. *)
Theorem cropRegions_one_per_region (sharp : Sharp) (imagePath : string)
    (regions : list Region) (now : Z) :
  Forall (fun region =>
            exists buffer,
              response (extract sharp imagePath (x region) (y region) (width region)
                                (height region)) = Resolved buffer) regions ->
  exists processedRegions,
    cropRegions sharp imagePath regions now
    = mkPromise
        (now + foldr Z.add 0
                 (map (fun region =>
                         Z.of_N (duration (extract sharp imagePath (x region) (y region)
                                                   (width region) (height region))))
                      regions))
        (Resolved processedRegions)
    /\ Forall2 (fun region processedRegion =>
                  ImageProcessingService.regionId processedRegion = id region
                  /\ mimeType processedRegion = "image/png"
                  /\ response (extract sharp imagePath (x region) (y region) (width region)
                                       (height region))
                     = Resolved (imageBuffer processedRegion))
               regions processedRegions.
Proof.
  intros Hall. unfold cropRegions.
  destruct (crop_loop_resolves sharp imagePath regions now [] Hall) as (prs & Hrun & Hrel).
  exists prs. split; [exact Hrun | exact Hrel].
Qed.

Lemma cropRegions_one_per_region_witness :
  let regions := [Examples.region "r1"; Examples.region "r2"] in
  Forall (fun region =>
            exists buffer,
              response (extract Examples.sharp_ok "img" (x region) (y region) (width region)
                                (height region)) = Resolved buffer) regions
  /\ exists processedRegions,
       cropRegions Examples.sharp_ok "img" regions 8 = mkPromise 12 (Resolved processedRegions)
       /\ length processedRegions = 2%nat.
Proof.
  intros regions.
  assert (Forall (fun region =>
            exists buffer,
              response (extract Examples.sharp_ok "img" (x region) (y region) (width region)
                                (height region)) = Resolved buffer) regions) as Hall.
  { repeat constructor; by exists []. }
  split; [exact Hall |].
  destruct (cropRegions_one_per_region Examples.sharp_ok "img" regions 8 Hall)
    as (prs & Hrun & Hrel).
  exists prs. split; [exact Hrun |].
  by rewrite <- (Forall2_length _ _ _ Hrel).
Defined.

(** X10. [cropRegions] fails fast: at the first region whose extraction
    fails it rejects, as soon as that extraction has failed, with the message
    "Failed to process region <id>" naming that region (no code, no
    [retryable] flag); the regions after it play no part. *)
Theorem cropRegions_fails_fast (sharp : Sharp) (imagePath : string)
    (before after : list Region) (bad : Region) (now : Z) :
  Forall (fun region =>
            exists buffer,
              response (extract sharp imagePath (x region) (y region) (width region)
                                (height region)) = Resolved buffer) before ->
  (exists e, response (extract sharp imagePath (x bad) (y bad) (width bad) (height bad))
             = Rejected e) ->
  cropRegions sharp imagePath (before ++ bad :: after) now
  = mkPromise
      (now + foldr Z.add 0
               (map (fun region =>
                       Z.of_N (duration (extract sharp imagePath (x region) (y region)
                                                 (width region) (height region))))
                    (before ++ [bad])))
      (Rejected (TErr (mkError None (Some ("Failed to process region " +:+ id bad)) JUndefined))).
Proof. intros Hall Hbad. by apply crop_loop_fails. Qed.

Lemma cropRegions_fails_fast_witness :
  let sharp :=
    mkSharp (fun _ => mkCall 3 (Resolved (Some 100, Some 100)))
            (fun _ left _ _ _ =>
               if left =? 0 then mkCall 2 (Resolved [])
               else mkCall 4 (Rejected (TErr (mkError None (Some "extract_area: bad extract area")
                                                      JUndefined))))
            (fun buffer => mkCall 1 (Resolved buffer)) in
  let good := Examples.region "r1" in
  let bad := mkRegion "r2" 60 0 50 50 "#EF4444" None in
  cropRegions sharp "img" [good; bad; good] 0
  = mkPromise 6 (Rejected (TErr (mkError None (Some "Failed to process region r2") JUndefined))).
Proof.
  intros sharp good bad.
  apply (cropRegions_fails_fast sharp "img" [good] [good] bad 0).
  - repeat constructor. by exists [].
  - eexists. reflexivity.
Defined.

Lemma validateRegions_readable (sharp : Sharp) (imagePath : string)
    (regions : list Region) (now imageWidth imageHeight : Z) :
  response (metadata sharp imagePath) = Resolved (Some imageWidth, Some imageHeight) ->
  imageWidth <> 0 -> imageHeight <> 0 ->
  validateRegions sharp imagePath regions now
  = mkPromise (now + Z.of_N (duration (metadata sharp imagePath)))
      (Resolved
         (mkValidation
            (Nat.eqb (length (flat_map (Spec.violations imageWidth imageHeight) regions)) 0)
            (flat_map (Spec.violations imageWidth imageHeight) regions))).
Proof.
  intros Hmeta Hw Hh. unfold validateRegions, await. cbn [outcome settledAt]. rewrite Hmeta.
  assert (falsy (Some imageWidth) || falsy (Some imageHeight) = false) as ->.
  { cbn. apply orb_false_iff. split; apply Z.eqb_neq; assumption. }
  cbn [default]. by rewrite validate_loop.
Qed.

(** ** controllers/ocrController.ts: faults outside the regions *)

(** X11. When no file of the upload directory starts with the image id
    followed by an underscore (or the directory cannot be listed), the
    orchestrator ends at once after the listing: its only effects are the
    status [failed] and the sweep, and no region is validated, cropped or
    sent to the vision backend. *)
Theorem missing_image_fails_session (w : World) (sessions : gmap string OCRSession)
    (sid imageId : string) (regions : list Region) (now : Z) :
  is_Some (sessions !! sid) ->
  (forall names, response (readdir w) = Resolved names ->
                 List.find (fun file => startsWith file (imageId +:+ "_")) names = None) ->
  processOCRAsync w sessions sid imageId regions now
  = conclude sid failed (now + Z.of_N (duration (readdir w))).
Proof.
  intros [s0 Hs0] Hmissing. unfold processOCRAsync. rewrite Hs0.
  unfold await. cbn [outcome settledAt].
  destruct (response (readdir w)) as [names |]; [| done].
  by rewrite (Hmissing names eq_refl).
Qed.

Lemma missing_image_fails_session_witness :
  let w := Examples.world None Examples.quick in
  let sessions : gmap string OCRSession :=
    {[ "s1" := mkSession "s1" "other" [Examples.region "r1"] [] processing 0 None ]} in
  is_Some (sessions !! "s1")
  /\ processOCRAsync w sessions "s1" "other" [Examples.region "r1"] 0
     = [ (5, Finish "s1" failed); (5, Cleanup) ].
Proof.
  intros w sessions. split; [by eexists |].
  rewrite (missing_image_fails_session w sessions "s1" "other" [Examples.region "r1"] 0).
  - reflexivity.
  - by eexists.
  - intros names [= <-]. reflexivity.
Defined.

(** X12. One region that breaks a validation rule fails the whole session:
    when the image is found and readable and some region of the request has a
    violation, the orchestrator ends right after reading the image metadata
    with the status [failed] and the sweep as its only effects; no region,
    valid or not, is cropped or sent to the vision backend. *)
Theorem invalid_region_fails_session (w : World) (sessions : gmap string OCRSession)
    (sid imageId : string) (regions : list Region) (now : Z)
    (names : list string) (imageFile : string) (imageWidth imageHeight : Z)
    (region : Region) :
  is_Some (sessions !! sid) ->
  response (readdir w) = Resolved names ->
  List.find (fun file => startsWith file (imageId +:+ "_")) names = Some imageFile ->
  response (metadata (sharp w) (path_join (uploadDir w) imageFile))
    = Resolved (Some imageWidth, Some imageHeight) ->
  imageWidth <> 0 -> imageHeight <> 0 ->
  In region regions ->
  Spec.violations imageWidth imageHeight region <> [] ->
  processOCRAsync w sessions sid imageId regions now
  = conclude sid failed
      (now + Z.of_N (duration (readdir w))
       + Z.of_N (duration (metadata (sharp w) (path_join (uploadDir w) imageFile)))).
Proof.
  intros [s0 Hs0] Hnames Hfile Hmeta Hw Hh Hin Hbad.
  unfold processOCRAsync. rewrite Hs0.
  unfold await. cbn [outcome settledAt]. rewrite Hnames, Hfile. cbn zeta.
  rewrite (validateRegions_readable _ _ _ _ imageWidth imageHeight Hmeta Hw Hh).
  cbn [outcome settledAt valid].
  destruct (flat_map (Spec.violations imageWidth imageHeight) regions) as [| msg rest] eqn:Hall;
    [| reflexivity].
  exfalso. apply Hbad.
  destruct (Spec.violations imageWidth imageHeight region) as [| msg rest] eqn:Hreg; [done |].
  assert (In msg (flat_map (Spec.violations imageWidth imageHeight) regions)) as Hmsg.
  { apply in_flat_map. exists region. split; [done |]. rewrite Hreg. by left. }
  rewrite Hall in Hmsg. destruct Hmsg.
Qed.

Lemma invalid_region_fails_session_witness :
  let w := Examples.world None Examples.quick in
  let tiny := mkRegion "r2" 0 0 5 5 "#EF4444" None in
  let regions := [Examples.region "r1"; tiny] in
  let sessions : gmap string OCRSession :=
    {[ "s1" := mkSession "s1" "img1" regions [] processing 0 None ]} in
  Spec.violations 100 100 tiny = ["Region r2 is too small (minimum 10x10 pixels)"]
  /\ processOCRAsync w sessions "s1" "img1" regions 0
     = [ (8, Finish "s1" failed); (8, Cleanup) ].
Proof.
  intros w tiny regions sessions. split; [reflexivity |].
  apply (invalid_region_fails_session w sessions "s1" "img1" regions 0
           ["img1_photo.png"] "img1_photo.png" 100 100 tiny).
  - by eexists.
  - reflexivity.
  - reflexivity.
  - reflexivity.
  - lia.
  - lia.
  - right. by left.
  - discriminate.
Defined.

(** ** services/geminiService.ts: batchProcessOCR *)

Section Batch.
Import GeminiBatch.
Variable config : GeminiConfig.
Variable generate : BatchRequest -> Call string.


Lemma or_default_nonempty s d : d <> "" -> or_default s d <> "".
Proof.
  intros Hd. unfold or_default. destruct s as [v |]; [| done].
  by destruct (String.eqb_spec v "").
Qed.

Lemma classified_flag (error : Thrown) :
  orFalse (Js.retryable (GeminiService.classify error))
  = existsb (fun errType =>
               includes (or_default (Js.message (GeminiService.classify error))
                                    "Failed to process region") errType)
            GeminiService.retryableErrors.
Proof.
  destruct error as [| err]; [reflexivity |].
  destruct (Js.message err) as [m |] eqn:Hm.
  - destruct (String.eqb_spec m "") as [-> | Hne].
    + unfold GeminiService.classify, GeminiService.isRetryable. rewrite Hm. reflexivity.
    + rewrite (classify_with_message err m Hm Hne). cbn [Js.retryable Js.message orFalse].
      unfold or_default. by destruct (String.eqb_spec m "").
  - unfold GeminiService.classify, GeminiService.isRetryable. rewrite Hm. reflexivity.
Qed.

Lemma processRequest_result req start :
  exists result,
    processRequest config generate req start
    = mkPromise (settledAt (GeminiService.processOCR config (generate req) start))
                (Resolved result)
    /\ batch_result generate req result.
Proof.
  unfold processRequest.
  pose proof (processOCR_elapsed config (generate req) start) as Helapsed.
  assert (0 <= settledAt (GeminiService.processOCR config (generate req) start) - start)
    as Htime.
  { rewrite Helapsed. pose proof (N2Z.is_nonneg (duration (generate req))).
    assert (1 <= timerDelay (timeout config)).
    { unfold timerDelay. destruct (timeout config) as [| z]; [lia |].
      destruct (Z.ltb_spec z 1), (Z.ltb_spec 2147483647 z); cbn; lia. }
    lia. }
  destruct (outcome (GeminiService.processOCR config (generate req) start))
    as [answer | [| err]] eqn:Hout.
  - eexists. split; [reflexivity |]. repeat split; [exact Htime |]. cbn [error text].
    revert Hout. unfold GeminiService.processOCR.
    destruct (race_cases (await start (generate req))
                (mkPromise (start + timerDelay (timeout config))
                   (Rejected (TErr (mkError None
                      (Some ("Request timeout after "
                             +:+ GeminiService.show_num (timeout config) +:+ "ms"))
                      JUndefined))))) as [-> | ->]; cbn [outcome await]; [| done].
    destruct (response (generate req)) as [raw |]; [| done].
    cbn [outcome]. intros [= <-]. by exists raw.
  - by destruct (processOCR_throws_object config (generate req) start).
  - eexists. split; [reflexivity |]. repeat split; [exact Htime | | |]; cbn [error text].
    + by apply or_default_nonempty.
    + by apply or_default_nonempty.
    + cbn [Types.retryable Types.message].
      revert Hout. unfold GeminiService.processOCR.
      destruct (outcome (race _ _)) as [? | thrown]; [done |].
      cbn [outcome]. intros [= <-]. apply classified_flag.
Qed.

Lemma chunk_loop_results chunks :
  forall now acc,
  exists finishedAt results,
    chunk_loop config generate chunks now acc
    = mkPromise finishedAt (Resolved (acc ++ results))
    /\ now <= finishedAt
    /\ Forall2 (batch_result generate) (concat chunks) results.
Proof.
  induction chunks as [| chunk rest IH]; intros now acc; cbn [chunk_loop concat].
  - exists now, []. rewrite app_nil_r. repeat split; [lia | constructor].
  - destruct (all_resolved now (map (fun req => processRequest config generate req now) chunk))
      as [Hall Hvalues].
    { apply Forall_forall. intros p (req & -> & _)%list_elem_of_fmap.
      destruct (processRequest_result req now) as (result & -> & _). by exists result. }
    rewrite Hall. cbn [outcome settledAt].
    destruct (IH (foldr Z.max now
                        (map settledAt (map (fun req => processRequest config generate req now)
                                            chunk)))
                 (acc ++ resolved_values
                           (map (fun req => processRequest config generate req now) chunk)))
      as (finishedAt & results & -> & Hlater & Hrest).
    exists finishedAt, (resolved_values
                          (map (fun req => processRequest config generate req now) chunk)
                        ++ results).
    rewrite app_assoc. repeat split.
    + pose proof (foldr_max_ge now
                    (map settledAt (map (fun req => processRequest config generate req now)
                                        chunk))). lia.
    + apply Forall2_app; [| exact Hrest].
      apply Forall2_fmap_l in Hvalues.
      eapply Forall2_impl; [exact Hvalues |].
      intros req result Hreq. cbn in Hreq.
      destruct (processRequest_result req now) as (result' & Hrun & Hok).
      rewrite Hrun in Hreq. cbn in Hreq. by injection Hreq as <-.
Qed.

End Batch.

(** X13. [batchProcessOCR] never rejects and never hangs: it resolves to one
    result per request, in the order of the requests, whatever the backend
    does.  A result without error carries the trimmed text of the backend's
    answer; a result with an error has an empty text, a non-empty code and
    message, and a [retryable] flag that is true exactly when the message
    contains one of the four transient markers of the service. *)
Theorem batchProcessOCR_one_per_request (config : GeminiConfig)
    (generate : GeminiBatch.BatchRequest -> Call string)
    (requests : list GeminiBatch.BatchRequest) (now : Z) :
  exists finishedAt results,
    GeminiBatch.batchProcessOCR config generate requests now
    = Some (mkPromise finishedAt (Resolved results))
    /\ now <= finishedAt
    /\ Forall2 (batch_result generate) requests results.
Proof.
  unfold GeminiBatch.batchProcessOCR, GeminiBatch.chunkArray.
  change (split_loop (S (length requests)) requests (Num 3) (Num 0) [])
    with (splitBatches requests (Num 3)).
  rewrite splitBatches_chunks by lia.
  destruct (chunk_loop_results config generate (Spec.chunks (Z.to_nat 3) requests) now [])
    as (finishedAt & results & Hrun & Hlater & Hrel).
  exists finishedAt, results. rewrite Hrun. cbn [app].
  split; [done |]. split; [done |].
  by rewrite chunks_concat in Hrel by lia.
Qed.

(** ** controllers/ocrController.ts: what a session keeps between polls *)


Section Store.
Variable sid : string.

Lemma kept_refl r : kept r r.
Proof. unfold kept. repeat split. destruct (error r) as [e |]; eauto. Qed.

Lemma kept_trans r1 r2 r3 : kept r1 r2 -> kept r2 r3 -> kept r1 r3.
Proof.
  unfold kept. intros (Hid & Htext & Htime & Herr) (Hid' & Htext' & Htime' & Herr').
  repeat split; [congruence | congruence | congruence |].
  destruct (error r1) as [e1 |].
  - destruct Herr as (e2 & He2 & Hc & Hr). rewrite He2 in Herr'.
    destruct Herr' as (e3 & He3 & Hc' & Hr'). exists e3. repeat split; congruence.
  - by rewrite Herr in Herr'.
Qed.

Lemma annotate_kept rid message rs i r :
  rs !! i = Some r ->
  exists r', annotate rid message rs !! i = Some r' /\ kept r r'.
Proof.
  revert i. induction rs as [| r0 rest IH]; intros i Hi; [done |]. cbn [annotate].
  destruct (String.eqb (Types.regionId r0) rid).
  - destruct (error r0) as [e |] eqn:He; [| exists r; split; [done | apply kept_refl]].
    destruct i as [| i]; [| exists r; split; [done | apply kept_refl]].
    cbn in Hi. injection Hi as <-. eexists. split; [reflexivity |].
    unfold kept. cbn. rewrite He. repeat split. eauto.
  - destruct i as [| i]; [exists r; split; [done | apply kept_refl] |].
    cbn in Hi |- *. by apply IH.
Qed.

Lemma step_kept s e i r :
  results s !! i = Some r ->
  exists r', results (step sid s e) !! i = Some r' /\ kept r r'.
Proof.
  intros Hi. unfold step.
  destruct e.2 as [sid' result | sid' rid attempt err | sid' st |]; try case_decide;
    try (exists r; split; [done | apply kept_refl]).
  - exists r. split; [| apply kept_refl]. unfold push. cbn [results].
    by apply lookup_app_l_Some.
  - destruct err as [| err]; [exists r; split; [done | apply kept_refl] |].
    unfold onRetry. cbn [results]. by apply annotate_kept.
Qed.

Lemma replay_kept events s i r :
  results s !! i = Some r ->
  exists r', results (fold_left (step sid) events s) !! i = Some r' /\ kept r r'.
Proof.
  revert s r. induction events as [| e rest IH]; intros s r Hi; cbn [fold_left].
  - exists r. split; [done | apply kept_refl].
  - destruct (step_kept s e i r Hi) as (r1 & Hr1 & Hk1).
    destruct (IH _ _ Hr1) as (r2 & Hr2 & Hk2).
    exists r2. split; [done |]. by apply (kept_trans r r1 r2).
Qed.

End Store.

Section EventLoop.

Lemma enqueue_sorted e queue :
  StronglySorted time_le queue -> StronglySorted time_le (enqueue e queue).
Proof.
  induction 1 as [| e' rest Hrest IH Hall]; cbn [enqueue].
  - repeat constructor.
  - destruct (Z.ltb_spec e'.1 e.1) as [Hbefore | Hafter].
    + constructor; [done |].
      assert (forall q, Forall (time_le e') q -> Forall (time_le e') (enqueue e q)) as Hins.
      { intros q Hq. induction Hq as [| a q Ha Hq IHq]; cbn [enqueue].
        - constructor; [unfold time_le; lia | constructor].
        - destruct (a.1 <? e.1).
          + by constructor.
          + constructor; [unfold time_le; lia |]. by constructor. }
      by apply Hins.
    + constructor; [by constructor |].
      constructor; [done |].
      eapply Forall_impl; [exact Hall |]. unfold time_le. intros a Ha. lia.
Qed.

(** The event loop runs the events in time order. *)
Lemma timeline_sorted events : StronglySorted time_le (timeline events).
Proof.
  induction events as [| e rest IH]; [constructor |].
  cbn [timeline foldr]. by apply enqueue_sorted.
Qed.

Lemma enqueue_perm e queue : enqueue e queue ≡ₚ e :: queue.
Proof.
  induction queue as [| e' rest IH]; cbn [enqueue]; [done |].
  destruct (e'.1 <? e.1); [| done].
  rewrite IH. apply Permutation_swap.
Qed.

(** The event loop loses and invents no event. *)
Lemma timeline_perm events : timeline events ≡ₚ events.
Proof.
  induction events as [| e rest IH]; [done |].
  cbn [timeline foldr]. fold (timeline rest). by rewrite enqueue_perm, IH.
Qed.

(** The events due at an instant are a prefix of those due later. *)
Lemma due_prefix (t1 t2 : Z) (queue : list Event) :
  t1 <= t2 -> StronglySorted time_le queue ->
  exists later,
    filter (fun e : Event => e.1 <= t2) queue
    = filter (fun e : Event => e.1 <= t1) queue ++ later.
Proof.
  intros Ht. induction 1 as [| e rest Hrest [later IH] Hall].
  - by exists [].
  - destruct (decide (e.1 <= t1)) as [Hdue | Hlate].
    + exists later. rewrite !filter_cons_True by lia. by rewrite IH.
    + exists (filter (fun e : Event => e.1 <= t2) (e :: rest)).
      rewrite (filter_cons_False (fun e0 : Event => e0.1 <= t1) e rest Hlate).
      assert (filter (fun e0 : Event => e0.1 <= t1) rest = []) as ->; [| done].
      clear Hrest IH. induction Hall as [| a q Ha _ IHq]; [done |].
      unfold time_le in Ha. rewrite filter_cons_False by lia. exact IHq.
Qed.

End EventLoop.

(** X14. Between two polls of a session nothing is taken back: every result
    the session held at the earlier instant is still at the same position at
    the later one, with the same region id, text and processing time; a
    result without error stays without error, and a result with an error
    keeps its code and its [retryable] flag (only the message of an error is
    ever rewritten).  The regions and the creation time do not change
    either.  This holds for any events whatever. *)
Theorem polls_keep_results (events : list Event) (sessions : gmap string OCRSession)
    (sid : string) (t1 t2 : Z) (s1 s2 : OCRSession) :
  t1 <= t2 ->
  storeAt events sessions t1 !! sid = Some s1 ->
  storeAt events sessions t2 !! sid = Some s2 ->
  regions s2 = regions s1 /\ createdAt s2 = createdAt s1
  /\ (length (results s1) <= length (results s2))%nat
  /\ forall i r, results s1 !! i = Some r ->
        exists r', results s2 !! i = Some r' /\ kept r r'.
Proof.
  intros Ht H1 H2. unfold storeAt in *.
  destruct (due_prefix t1 t2 (timeline events) Ht (timeline_sorted events)) as [later Hlater].
  rewrite Hlater, fold_left_app in H2.
  apply replay_lookup in H2 as (s & Hs & ->).
  rewrite H1 in Hs. injection Hs as <-.
  destruct (replay_regions sid later s1) as [Hregions Hcreated].
  split; [done |]. split; [done |].
  assert (forall i r, results s1 !! i = Some r ->
            exists r', results (fold_left (step sid) later s1) !! i = Some r' /\ kept r r')
    as Hkept by (intros i r; apply replay_kept).
  split; [| exact Hkept].
  pose proof (f_equal length (replay_ids sid later s1)) as Hlen.
  rewrite length_app, !length_map in Hlen. lia.
Qed.

Lemma polls_keep_results_witness :
  let w := Examples.world None Examples.flaky in
  let regions := [Examples.region "r1"] in
  let sessions : gmap string OCRSession :=
    {[ "s1" := mkSession "s1" "img1" regions [] processing 0 None ]} in
  let events := processOCRAsync w sessions "s1" "img1" regions 0 in
  let timedOut message :=
    {| Types.regionId := "r1"; text := ""; processingTime := 30001;
       error := Some {| Types.code := "TIMEOUT"; Types.message := message;
                        Types.retryable := false |} |} in
  exists s1 s2,
    storeAt events sessions 31000 !! "s1" = Some s1
    /\ storeAt events sessions 33000 !! "s1" = Some s2
    /\ results s1 = [timedOut "OCR processing timed out"]
    /\ results s2 = [timedOut "Retry attempt 2: UNAVAILABLE"]
    /\ exists r', results s2 !! 0%nat = Some r'
                  /\ kept (timedOut "OCR processing timed out") r'.
Proof.
  intros w regions sessions events timedOut.
  destruct (storeAt events sessions 31000 !! "s1") as [s1 |] eqn:H1;
    [| vm_compute in H1; discriminate].
  destruct (storeAt events sessions 33000 !! "s1") as [s2 |] eqn:H2;
    [| vm_compute in H2; discriminate].
  exists s1, s2. split; [done |]. split; [done |].
  assert (results s1 = [timedOut "OCR processing timed out"]) as Hr1.
  { vm_compute in H1. by injection H1 as <-. }
  assert (results s2 = [timedOut "Retry attempt 2: UNAVAILABLE"]) as Hr2.
  { vm_compute in H2. by injection H2 as <-. }
  split; [done |]. split; [done |].
  destruct (polls_keep_results events sessions "s1" 31000 33000 s1 s2) as (_ & _ & _ & Hkept);
    [lia | exact H1 | exact H2 |].
  apply (Hkept 0%nat). by rewrite Hr1.
Defined.

(** ** controllers/ocrController.ts: the sweep at the end of a run *)

Section Sweep.
Variable sid : string.









End Sweep.



(** ** controllers/ocrController.ts: the per-region task, end to end *)

Section Answers.

Lemma timerDelay_positive ms : 1 <= timerDelay ms.
Proof.
  unfold timerDelay. destruct ms as [| z]; [lia |].
  destruct (Z.ltb_spec z 1), (Z.ltb_spec 2147483647 z); cbn; lia.
Qed.

(** A backend call that settles before the service's timer fires decides
    the outcome of [GeminiService.processOCR]. *)
Lemma processOCR_answers config generate now raw :
  response generate = Resolved raw ->
  Z.of_N (duration generate) < timerDelay (timeout config) ->
  GeminiService.processOCR config generate now
  = mkPromise (now + Z.of_N (duration generate)) (Resolved (trim raw)).
Proof.
  intros Hraw Hfast. unfold GeminiService.processOCR, race, await. cbn [settledAt].
  destruct (Z.ltb_spec (now + timerDelay (timeout config)) (now + Z.of_N (duration generate)));
    [lia |].
  cbn [outcome settledAt]. by rewrite Hraw.
Qed.

Lemma processOCR_fails config generate now error :
  response generate = Rejected error ->
  Z.of_N (duration generate) < timerDelay (timeout config) ->
  GeminiService.processOCR config generate now
  = mkPromise (now + Z.of_N (duration generate))
              (Rejected (TErr (GeminiService.classify error))).
Proof.
  intros Hraw Hfast. unfold GeminiService.processOCR, race, await. cbn [settledAt].
  destruct (Z.ltb_spec (now + timerDelay (timeout config)) (now + Z.of_N (duration generate)));
    [lia |].
  cbn [outcome settledAt]. by rewrite Hraw.
Qed.

Lemma optimizeForOCR_resolves sharp imageBuffer now :
  optimizeForOCR sharp imageBuffer now
  = mkPromise (now + Z.of_N (duration (enhance sharp imageBuffer)))
      (Resolved match response (enhance sharp imageBuffer) with
                | Resolved optimized => optimized
                | Rejected _ => imageBuffer
                end).
Proof.
  unfold optimizeForOCR, await. cbn [outcome settledAt].
  by destruct (response (enhance sharp imageBuffer)).
Qed.

End Answers.

(** X16. The task of a region whose first vision call answers before the
    timeout: the image sent is the enhanced crop, or the crop itself when
    the enhancement fails; the result carries the trimmed answer and no
    error; its processing time is the time of the enhancement plus that of
    the call; and the session receives no retry notification. *)
Theorem processRegion_first_answer (w : World) (sid : string)
    (processedRegion : ProcessedRegion) (start : Z) (raw : string) :
  let rid := ImageProcessingService.regionId processedRegion in
  let crop := imageBuffer processedRegion in
  let sent :=
    match response (enhance (sharp w) crop) with
    | Resolved optimized => optimized
    | Rejected _ => crop
    end in
  let call := generateContent w rid {| image := sent; prompt := OCR_PROMPT |} 1 in
  let elapsed := Z.of_N (duration (enhance (sharp w) crop)) + Z.of_N (duration call) in
  response call = Resolved raw ->
  Z.of_N (duration call) < timerDelay (timeout (geminiConfig w)) ->
  processRegion w sid processedRegion start
  = mkTask (mkPromise (start + elapsed)
              (Resolved {| Types.regionId := rid; text := trim raw;
                           processingTime := elapsed; error := None |}))
           [].
Proof.
  intros rid crop sent call elapsed Hraw Hfast.
  unfold processRegion. rewrite optimizeForOCR_resolves. cbn [outcome settledAt].
  fold crop rid. fold sent.
  set (t := start + Z.of_N (duration (enhance (sharp w) crop))).
  unfold retryWithBackoff.
  change (Z.to_nat (maxAttempts DEFAULT_RETRY_CONFIG)) with 3%nat.
  set (fn := fun attempt now =>
               GeminiService.processOCR (geminiConfig w)
                 (generateContent w rid {| image := sent; prompt := OCR_PROMPT |} attempt) now).
  assert (fn 1 t = mkPromise (t + Z.of_N (duration call)) (Resolved (trim raw))) as Hcall.
  { unfold fn. fold call. apply processOCR_answers; [done | lia]. }
  rewrite (retry_loop_resolved fn DEFAULT_RETRY_CONFIG 2 1 t TUndefined (trim raw));
    [| by rewrite Hcall].
  cbn [promise notified map]. rewrite Hcall.
  rewrite withTimeout_in_time by (cbn [settledAt]; lia).
  cbn [outcome settledAt].
  assert (t + Z.of_N (duration call) = start + elapsed) as -> by (unfold elapsed, t; lia).
  assert (start + elapsed - start = elapsed) as -> by lia.
  reflexivity.
Qed.

Lemma processRegion_first_answer_witness :
  let w := Examples.world None Examples.quick in
  processRegion w "s1" (mkProcessedRegion "r1" [] "image/png") 10
  = mkTask (mkPromise 411
              (Resolved {| Types.regionId := "r1"; text := "Hello";
                           processingTime := 401; error := None |}))
           [].
Proof.
  intros w.
  apply (processRegion_first_answer w "s1" (mkProcessedRegion "r1" [] "image/png") 10 " Hello ").
  - reflexivity.
  - vm_compute. reflexivity.
Defined.

(** X17. The task of a region whose first vision call fails with one of the
    service's transient markers in its message and whose second call
    answers, all within the timeout: the retry loop notifies the session
    once, when the first call fails, sleeps 2000 ms, and the result carries
    the trimmed second answer without any error; its processing time is the
    sum of the enhancement, both calls and the sleep. *)
Theorem processRegion_second_answer (w : World) (sid : string)
    (processedRegion : ProcessedRegion) (start : Z) (err : JsError) (m raw : string) :
  let rid := ImageProcessingService.regionId processedRegion in
  let crop := imageBuffer processedRegion in
  let sent :=
    match response (enhance (sharp w) crop) with
    | Resolved optimized => optimized
    | Rejected _ => crop
    end in
  let first := generateContent w rid {| image := sent; prompt := OCR_PROMPT |} 1 in
  let second := generateContent w rid {| image := sent; prompt := OCR_PROMPT |} 2 in
  let failedAt :=
    start + Z.of_N (duration (enhance (sharp w) crop)) + Z.of_N (duration first) in
  let finishedAt := failedAt + 2000 + Z.of_N (duration second) in
  response first = Rejected (TErr err) ->
  Js.message err = Some m ->
  existsb (fun errType => includes m errType) GeminiService.retryableErrors = true ->
  response second = Resolved raw ->
  Z.of_N (duration first) + 2000 + Z.of_N (duration second)
    < timerDelay (timeout (geminiConfig w)) ->
  processRegion w sid processedRegion start
  = mkTask (mkPromise finishedAt
              (Resolved {| Types.regionId := rid; text := trim raw;
                           processingTime := finishedAt - start; error := None |}))
           [ (failedAt,
              RetryNote sid rid 1
                (TErr (mkError (Some (or_default (Js.code err) "GEMINI_ERROR")) (Some m)
                               (JBool true)))) ].
Proof.
  intros rid crop sent first second failedAt finishedAt Hfirst Hm Hmarker Hsecond Hfast.
  assert (m <> "") as Hne.
  { intros ->. vm_compute in Hmarker. discriminate. }
  pose proof (N2Z.is_nonneg (duration first)) as Hd1.
  pose proof (N2Z.is_nonneg (duration second)) as Hd2.
  unfold processRegion. rewrite optimizeForOCR_resolves. cbn [outcome settledAt].
  fold crop rid. fold sent.
  set (t := start + Z.of_N (duration (enhance (sharp w) crop))).
  unfold retryWithBackoff.
  change (Z.to_nat (maxAttempts DEFAULT_RETRY_CONFIG)) with 3%nat.
  set (fn := fun attempt now =>
               GeminiService.processOCR (geminiConfig w)
                 (generateContent w rid {| image := sent; prompt := OCR_PROMPT |} attempt) now).
  set (thrown := mkError (Some (or_default (Js.code err) "GEMINI_ERROR")) (Some m) (JBool true)).
  assert (fn 1 t = mkPromise failedAt (Rejected (TErr thrown))) as Hcall1.
  { unfold fn. fold first. rewrite (processOCR_fails _ _ _ (TErr err)); [| done | lia].
    rewrite (classify_with_message err m Hm Hne), Hmarker. reflexivity. }
  assert (fn 2 (failedAt + 2000) = mkPromise finishedAt (Resolved (trim raw))) as Hcall2.
  { unfold fn. fold second. apply processOCR_answers; [done | lia]. }
  rewrite (retry_loop_again fn DEFAULT_RETRY_CONFIG 2 1 t TUndefined (TErr thrown));
    [| by rewrite Hcall1 | cbn; lia | by apply explicit_true_retryable].
  cbn zeta. rewrite Hcall1. cbn [settledAt].
  change (timerDelay (Num (calculateBackoffDelay 1 DEFAULT_RETRY_CONFIG))) with 2000.
  change (1 + 1) with 2.
  rewrite (retry_loop_resolved fn DEFAULT_RETRY_CONFIG 1 2 (failedAt + 2000) (TErr thrown)
             (trim raw)); [| by rewrite Hcall2].
  cbn [promise notified map fst snd]. rewrite Hcall2.
  rewrite withTimeout_in_time by (cbn [settledAt]; unfold finishedAt, failedAt, t; lia).
  reflexivity.
Qed.

Lemma processRegion_second_answer_witness :
  let backend : string -> VisionRequest -> Z -> Call string :=
    fun _ _ attempt =>
      if attempt =? 1
      then mkCall 300 (Rejected (TErr (mkError None (Some "503 UNAVAILABLE") JUndefined)))
      else mkCall 400 (Resolved "Total: 42 ") in
  let w := Examples.world None backend in
  processRegion w "s1" (mkProcessedRegion "r1" [] "image/png") 0
  = mkTask (mkPromise 2701
              (Resolved {| Types.regionId := "r1"; text := "Total: 42";
                           processingTime := 2701; error := None |}))
           [ (301, RetryNote "s1" "r1" 1
                     (TErr (mkError (Some "GEMINI_ERROR") (Some "503 UNAVAILABLE")
                                    (JBool true)))) ].
Proof.
  intros backend w.
  apply (processRegion_second_answer w "s1" (mkProcessedRegion "r1" [] "image/png") 0
           (mkError None (Some "503 UNAVAILABLE") JUndefined) "503 UNAVAILABLE" "Total: 42 ").
  - reflexivity.
  - reflexivity.
  - reflexivity.
  - reflexivity.
  - vm_compute. reflexivity.
Defined.

(** ** utils/pathUtils.ts, middleware/upload.ts and the upload controller *)

Section Filenames.
Import PathUtils.

Lemma append_assoc (a b c : string) : (a +:+ b) +:+ c = a +:+ b +:+ c.
Proof.
  induction a as [| ch a IH]; [done |].
  change (String ch ((a +:+ b) +:+ c) = String ch (a +:+ b +:+ c)). by rewrite IH.
Qed.

Lemma length_append (a b : string) :
  String.length (a +:+ b) = (String.length a + String.length b)%nat.
Proof.
  induction a as [| ch a IH]; [done |].
  change (S (String.length (a +:+ b)) = S (String.length a + String.length b)).
  by rewrite IH.
Qed.

Lemma replaceUnsafe_chars s :
  Forall (fun c => isSafeChar c = true) (list_ascii_of_string (replaceUnsafe s)).
Proof.
  induction s as [| c s IH]; cbn [replaceUnsafe list_ascii_of_string]; constructor; [| done].
  by destruct (isSafeChar c) eqn:Hc.
Qed.

Lemma replaceUnsafe_length s : String.length (replaceUnsafe s) = String.length s.
Proof. induction s as [| c s IH]; cbn [replaceUnsafe String.length]; by f_equal. Qed.

Lemma replaceUnsafe_safe s :
  Forall (fun c => isSafeChar c = true) (list_ascii_of_string s) -> replaceUnsafe s = s.
Proof.
  induction s as [| c s IH]; cbn [replaceUnsafe list_ascii_of_string]; [done |].
  intros [Hc Hs]%Forall_cons. by rewrite Hc, IH.
Qed.

Lemma firstField_prefix u rest :
  ¬ In "_"%char (list_ascii_of_string u) -> firstField (u +:+ "_" +:+ rest) = u.
Proof.
  induction u as [| c u IH]; intros Hu; [reflexivity |].
  cbn [list_ascii_of_string In] in Hu.
  change (String c u +:+ "_" +:+ rest) with (String c (u +:+ "_" +:+ rest)).
  cbn [firstField].
  destruct (Ascii.eqb_spec c "_") as [-> | _]; [tauto |].
  f_equal. apply IH. tauto.
Qed.

End Filenames.

(** X18. The sanitised part of a stored file name: [getSafeFilename]
    returns a stem followed by the extension as it was given; the stem has
    one character per character of the base name, an underscore and the
    decimal timestamp, and every character of it is a letter, a digit, a
    hyphen or an underscore.  A base name that is already safe is kept as it
    is.  (The extension is not sanitised.) *)
Theorem getSafeFilename_stem (ext baseName : string) (timestamp : Z) :
  exists stem,
    PathUtils.getSafeFilename ext baseName timestamp = stem +:+ ext
    /\ Forall (fun c => PathUtils.isSafeChar c = true) (list_ascii_of_string stem)
    /\ String.length stem
       = (String.length baseName + 1 + String.length (show timestamp))%nat
    /\ (Forall (fun c => PathUtils.isSafeChar c = true) (list_ascii_of_string baseName) ->
        stem = baseName +:+ "_" +:+ show timestamp).
Proof.
  exists (PathUtils.replaceUnsafe baseName +:+ "_" +:+ show timestamp).
  split; [| split; [| split]].
  - unfold PathUtils.getSafeFilename. cbn zeta.
    by rewrite !append_assoc.
  - rewrite !chars_app. apply Forall_app. split; [apply replaceUnsafe_chars |].
    apply Forall_app. split; [by repeat constructor |].
    apply Forall_forall. intros c Hc%list_elem_of_In.
    unfold PathUtils.isSafeChar.
    destruct (show_chars timestamp c Hc) as [Hdigit | Hsign].
    + cbn zeta. apply orb_true_iff. left. apply orb_true_iff. left.
      apply orb_true_iff. right. apply andb_true_iff. split; apply Nat.leb_le; lia.
    + cbn zeta. rewrite Hsign. reflexivity.
  - rewrite !length_append, replaceUnsafe_length. cbn [String.length]. lia.
  - intros Hsafe. by rewrite replaceUnsafe_safe.
Qed.

(** X19. An uploaded file is found again by the orchestrator.  The storage
    names a file [<uniqueId>_<safe name>]; when the id has no underscore (a
    UUID has none), the upload controller's [filename.split('_')[0]] gives
    back exactly that id, and the orchestrator's search of the upload
    directory for a name starting with [<imageId>_] succeeds as long as the
    file is listed. *)
Theorem uploaded_file_is_found (uniqueId ext baseName : string) (timestamp : Z)
    (names : list string) :
  let filename :=
    PathUtils.finalFilename uniqueId (PathUtils.getSafeFilename ext baseName timestamp) in
  let imageId := PathUtils.firstField filename in
  ¬ In "_"%char (list_ascii_of_string uniqueId) ->
  In filename names ->
  imageId = uniqueId
  /\ exists imageFile,
       List.find (fun file => startsWith file (imageId +:+ "_")) names = Some imageFile
       /\ startsWith imageFile (uniqueId +:+ "_") = true.
Proof.
  intros filename imageId Hid Hlisted.
  assert (imageId = uniqueId) as Himage.
  { unfold imageId, filename, PathUtils.finalFilename. by apply firstField_prefix. }
  split; [done |]. rewrite Himage.
  destruct (List.find (fun file => startsWith file (uniqueId +:+ "_")) names)
    as [imageFile |] eqn:Hfind.
  - exists imageFile. split; [done |].
    by apply find_some in Hfind as [_ Hstarts].
  - exfalso. pose proof (find_none _ _ Hfind filename Hlisted) as Hno. cbn beta in Hno.
    assert (startsWith filename (uniqueId +:+ "_") = true) as Hyes; [| congruence].
    apply startsWith_spec. eexists. unfold filename, PathUtils.finalFilename.
    by rewrite append_assoc.
Qed.

Lemma uploaded_file_is_found_witness :
  let uuid := "3f2b8c1e-7a4d-4e2b-9c1a-5d6e7f8a9b0c" in
  let filename := PathUtils.finalFilename uuid (PathUtils.getSafeFilename ".png" "my scan" 1700000000000) in
  filename = "3f2b8c1e-7a4d-4e2b-9c1a-5d6e7f8a9b0c_my_scan_1700000000000.png"
  /\ PathUtils.firstField filename = uuid
  /\ exists imageFile,
       List.find (fun file => startsWith file (PathUtils.firstField filename +:+ "_"))
                 ["other_file.png"; filename] = Some imageFile
       /\ startsWith imageFile (uuid +:+ "_") = true.
Proof.
  intros uuid filename. split; [vm_compute; reflexivity |].
  apply (uploaded_file_is_found uuid ".png" "my scan" 1700000000000
           ["other_file.png"; filename]).
  - vm_compute. intuition discriminate.
  - right. by left.
Defined.

(** ** hooks/useOCRProcessing.ts against the status endpoint *)

Section LastPush.
Variable w : World.
Variable sid : string.

(** The last batch delivers its results at the very instant the loop over
    the batches ends. *)
Lemma batch_loop_last_push batches :
  batches <> [] -> Forall (fun batch => batch <> []) batches ->
  forall now,
    let runs := batch_loop w sid batches now in
    exists result,
      (settledAt (loop_end now runs), Push sid result) ∈ flat_map (batch_events sid) runs.
Proof.
  induction batches as [| batch rest IH]; [done |].
  intros _ [Hbatch Hrest]%Forall_cons now. cbn [batch_loop].
  destruct (processBatch_resolves w sid batch now) as (rs & Hout & Hids & _ & _).
  set (run := processBatch w sid batch now) in *.
  rewrite Hout. cbn [flat_map loop_end]. rewrite Hout.
  destruct rest as [| next rest'].
  - cbn [batch_loop loop_end settledAt flat_map]. rewrite app_nil_r.
    destruct rs as [| r rs']; [by destruct batch |].
    exists r. unfold batch_events. rewrite Hout. apply elem_of_app. right.
    cbn [map]. apply elem_of_cons. by left.
  - destruct (IH ltac:(done) Hrest (settledAt (finished run))) as [result Hin].
    exists result. apply elem_of_app. right. exact Hin.
Qed.

Lemma conclude_inj body body' st st' t t' :
  body ++ conclude sid st t = body' ++ conclude sid st' t' ->
  body = body' /\ st = st' /\ t = t'.
Proof.
  unfold conclude. intros Heq.
  change (body ++ [(t, Finish sid st)] ++ [(t, Cleanup)]
          = body' ++ [(t', Finish sid st')] ++ [(t', Cleanup)]) in Heq.
  rewrite !app_assoc in Heq.
  apply app_inj_tail in Heq as [Heq _].
  apply app_inj_tail in Heq as [-> [= -> ->]]. done.
Qed.

(** A run that ends [completed] on a request with at least one region has
    pushed a result at the instant it ends. *)
Lemma processOCRAsync_last_push (sessions : gmap string OCRSession) imageId regions now k
    body finishedAt :
  parseInt (or_default (env_OCR_CONCURRENCY_LIMIT w) "3") = Num k ->
  regions <> [] ->
  processOCRAsync w sessions sid imageId regions now
  = body ++ conclude sid completed finishedAt ->
  exists result, (finishedAt, Push sid result) ∈ body.
Proof.
  intros Hlimit Hregions. unfold processOCRAsync.
  assert (forall t, conclude sid failed t = body ++ conclude sid completed finishedAt ->
                    exists result, (finishedAt, Push sid result) ∈ body) as Hfail.
  { intros t Heq. change (conclude sid failed t) with ([] ++ conclude sid failed t) in Heq.
    by apply conclude_inj in Heq as (_ & [=] & _). }
  destruct (sessions !! sid); [| by destruct body].
  destruct (outcome (await now (readdir w))) as [names | ?]; [| apply Hfail].
  destruct (List.find _ names) as [imageFile |]; [| apply Hfail].
  destruct (outcome (validateRegions _ _ _ _)) as [v | ?]; [| apply Hfail].
  destruct (valid v); cbn [negb]; [| apply Hfail].
  destruct (outcome (cropRegions _ _ _ _)) as [processedRegions |] eqn:Hcrop; [| apply Hfail].
  rewrite Hlimit.
  set (start := settledAt (cropRegions _ _ _ _)).
  apply crop_loop_ids in Hcrop. cbn [map app] in Hcrop.
  assert (processedRegions <> []) as Hsome.
  { intros ->. cbn in Hcrop. symmetry in Hcrop. by apply map_eq_nil in Hcrop. }
  destruct (Z.lt_ge_cases 0 k) as [Hpos | Hneg].
  - rewrite splitBatches_chunks by done.
    set (batches := Spec.chunks (Z.to_nat k) processedRegions).
    destruct (batch_loop_trace w sid batches start) as (Hdone & _).
    cbn zeta in Hdone. rewrite Hdone.
    intros (<- & _ & <-)%conclude_inj.
    apply batch_loop_last_push.
    + unfold batches. destruct processedRegions as [| pr rest]; [done |].
      by rewrite chunks_cons by lia.
    + eapply Forall_impl; [apply chunks_sizes; lia |].
      cbn beta. intros batch Hlen ->. cbn in Hlen. lia.
  - unfold splitBatches. rewrite split_loop_diverges by (done || lia).
    by destruct body.
Qed.

Lemma pushed_ids_due_strict (t : Z) events e result :
  e ∈ events -> e.2 = Push sid result -> t < e.1 ->
  (length (pushed_ids sid (filter (fun e : Event => (e.1 <= t)%Z) events))
   < length (pushed_ids sid events))%nat.
Proof.
  intros Hin He Hlate. apply list_elem_of_split in Hin as (l1 & l2 & ->).
  rewrite filter_app, filter_cons_False by lia.
  rewrite !pushed_ids_app, !length_app.
  pose proof (pushed_ids_due sid t l1). pose proof (pushed_ids_due sid t l2).
  change (e :: l2) with ([e] ++ l2). rewrite pushed_ids_app, length_app.
  assert (length (pushed_ids sid [e]) = 1%nat) as ->; [| lia].
  unfold pushed_ids. cbn [flat_map]. rewrite He. by rewrite decide_True.
Qed.

End LastPush.

(** A session created by the request handler that is still [processing]
    when polled holds fewer results than it has regions. *)
Lemma processing_is_incomplete (w : World) (sessions : gmap string OCRSession)
    (uuid imageId : string) (regions : list Region) (now k t : Z) (session : OCRSession) :
  parseInt (or_default (env_OCR_CONCURRENCY_LIMIT w) "3") = Num k ->
  regions <> [] ->
  let store := <[uuid := mkSession uuid imageId regions [] processing now None]> sessions in
  storeAt (processOCRAsync w store uuid imageId regions now) store t !! uuid = Some session ->
  status session = processing ->
  (length (results session) < length regions)%nat.
Proof.
  intros Hlimit Hregions store Hview Hstatus.
  set (s0 := mkSession uuid imageId regions [] processing now None) in *.
  assert (store !! uuid = Some s0) as Hs0 by apply lookup_insert_eq.
  assert (0 < length regions)%nat as Hlen by (destruct regions; [done | cbn; lia]).
  destruct (processOCRAsync_trace w uuid store imageId regions now k) as
    [[_ Hnone] | (body & newStatus & finishedAt & Hevents & Hbounds & Hsorted & Hend)];
    [by eexists | done | |].
  - rewrite Hnone in Hview. unfold storeAt in Hview. cbn in Hview.
    rewrite Hs0 in Hview. by injection Hview as <-.
  - pose proof Hview as Hview'. rewrite Hevents in Hview'.
    destruct (session_view uuid store body newStatus finishedAt s0 Hs0 eq_refl Hbounds Hsorted
                t session Hview') as (_ & _ & [(Hearly & _) | (_ & Hst & _)]).
    2: { rewrite Hstatus in Hst. by destruct Hend as [[-> _] | [-> _]]. }
    destruct Hend as [[-> Hall] | [-> ->]].
    2: { unfold storeAt in Hview'. apply replay_lookup in Hview' as (s & Hs & ->).
         rewrite Hs0 in Hs. injection Hs as <-.
         pose proof (f_equal length (replay_ids uuid
                       (filter (fun e : Event => e.1 <= t)
                               (timeline ([] ++ conclude uuid failed finishedAt))) s0)) as Hids.
         rewrite length_app, !length_map in Hids. cbn [results s0 length] in Hids.
         rewrite Hids.
         unfold conclude. cbn [app timeline foldr enqueue fst].
         rewrite Z.ltb_irrefl. rewrite !filter_cons_False by (cbn [fst]; lia).
         cbn. lia. }
    destruct (processOCRAsync_last_push w uuid store imageId regions now k body finishedAt
                Hlimit Hregions Hevents) as [result Hpush].
    unfold storeAt in Hview. apply replay_lookup in Hview as (s & Hs & ->).
    rewrite Hs0 in Hs. injection Hs as <-.
    set (events := processOCRAsync w store uuid imageId regions now) in *.
    pose proof (f_equal length (replay_ids uuid
                  (filter (fun e : Event => e.1 <= t) (timeline events)) s0)) as Hids.
    rewrite length_app, !length_map in Hids. cbn [results s0 length] in Hids.
    rewrite Hids, <- (length_map id regions), <- Hall.
    assert (mains (timeline events) = mains events) as Hmains.
    { apply mains_timeline. rewrite Hevents. unfold mains. rewrite filter_app.
      apply StronglySorted_app_2; [| done |].
      - intros a b Ha Hb. rewrite Forall_forall in Hbounds.
        destruct (Hbounds a Ha) as [_ Hle]. unfold time_le.
        apply list_elem_of_filter in Hb as [_ Hb]. unfold conclude in Hb.
        apply elem_of_cons in Hb as [-> | Hb]; [cbn [fst]; lia |].
        apply elem_of_cons in Hb as [-> | Hb]; [cbn [fst]; lia |].
        by apply elem_of_nil in Hb.
      - unfold conclude. rewrite !filter_cons_True by done. rewrite filter_nil.
        repeat constructor. unfold time_le. cbn. lia. }
    assert (pushed_ids uuid body = pushed_ids uuid (timeline events)) as ->.
    { rewrite <- (pushed_ids_mains uuid (timeline events)), Hmains, pushed_ids_mains, Hevents.
      rewrite pushed_ids_app. unfold conclude, pushed_ids at 3. cbn. by rewrite app_nil_r. }
    apply (pushed_ids_due_strict uuid t (timeline events) (finishedAt, Push uuid result) result);
      [| done | cbn [fst]; lia].
    rewrite timeline_perm, Hevents. apply elem_of_app. by left.
Qed.

(** X20. The third clause of the client's stop condition never decides.
    For a session created by the request handler (with a concurrency limit
    that parses to a number), checked against the number of regions the
    client submitted: a poll makes the client stop exactly when the reported
    status is [completed] or [failed]; while the status is [processing] the
    reported results are fewer than the regions. *)
Theorem client_stops_on_final_status (w : World) (sessions : gmap string OCRSession)
    (uuid : string) (imageId : option string) (regions : list Region) (now k : Z)
    (reply : Reply ProcessOCRResponse) (store : gmap string OCRSession)
    (events : list Event) (t : Z) (statusResponse : StatusResponse) :
  parseInt (or_default (env_OCR_CONCURRENCY_LIMIT w) "3") = Num k ->
  sessions !! uuid = None ->
  processOCR w sessions uuid imageId (Some regions) now = (reply, store, events) ->
  getOCRStatus (storeAt events store t) uuid t = Json statusResponse ->
  UseOCRProcessing.isComplete statusResponse (length regions)
  = status_eqb (resp_status statusResponse) completed
    || status_eqb (resp_status statusResponse) failed.
Proof.
  intros Hlimit Hfresh Hreq Hpoll.
  unfold getOCRStatus in Hpoll.
  destruct (storeAt events store t !! uuid) as [session |] eqn:Hview; [| done].
  injection Hpoll as <-.
  unfold UseOCRProcessing.isComplete. cbn [resp_status resp_data resp_results].
  destruct (status session) eqn:Hstatus; cbn [status_eqb orb]; try reflexivity.
  - (* pending: never the status of a session made by the handler *)
    exfalso.
    destruct (processOCR_accepted w sessions uuid imageId (Some regions) now reply store events
                t session Hfresh Hreq Hview) as (imageId' & regions' & -> & [= <-] & -> & ->).
    destruct (polled_session w sessions uuid imageId' regions now k t session Hlimit Hview)
      as (_ & [[Hst _] | [[Hst _] | [Hst _]]]); congruence.
  - destruct (processOCR_accepted w sessions uuid imageId (Some regions) now reply store events
                t session Hfresh Hreq Hview) as (imageId' & regions' & -> & [= <-] & -> & ->).
    assert (regions <> []) as Hregions.
    { intros ->. unfold processOCR in Hreq. cbn [length Nat.eqb] in Hreq.
      rewrite orb_true_r in Hreq. injection Hreq as _ Hstore _.
      assert (sessions !! uuid = Some (mkSession uuid imageId' [] [] processing now None))
        as Hs by (rewrite Hstore; apply lookup_insert_eq).
      congruence. }
    pose proof (processing_is_incomplete w sessions uuid imageId' regions now k t session
                  Hlimit Hregions Hview Hstatus) as Hless.
    apply andb_false_iff. left. apply Nat.eqb_neq. lia.
Qed.

Lemma client_stops_on_final_status_witness :
  let w := Examples.world None Examples.quick in
  let regions := [Examples.region "r1"; Examples.region "r2"] in
  let run := processOCR w ∅ "s1" (Some "img1") (Some regions) 0 in
  exists early late,
    getOCRStatus (storeAt run.2 run.1.2 200) "s1" 200 = Json early
    /\ UseOCRProcessing.isComplete early (length regions) = false
    /\ getOCRStatus (storeAt run.2 run.1.2 1000) "s1" 1000 = Json late
    /\ UseOCRProcessing.isComplete late (length regions) = true.
Proof.
  intros w regions run.
  destruct (getOCRStatus (storeAt run.2 run.1.2 200) "s1" 200) as [early | ? ? ?] eqn:Hearly;
    [| vm_compute in Hearly; discriminate].
  destruct (getOCRStatus (storeAt run.2 run.1.2 1000) "s1" 1000) as [late | ? ? ?] eqn:Hlate;
    [| vm_compute in Hlate; discriminate].
  exists early, late. split; [done |]. split; [| split; [done |]].
  - rewrite (client_stops_on_final_status w ∅ "s1" (Some "img1") regions 0 3
               run.1.1 run.1.2 run.2 200 early eq_refl (lookup_empty _) eq_refl Hearly).
    vm_compute in Hearly. injection Hearly as <-. reflexivity.
  - rewrite (client_stops_on_final_status w ∅ "s1" (Some "img1") regions 0 3
               run.1.1 run.1.2 run.2 1000 late eq_refl (lookup_empty _) eq_refl Hlate).
    vm_compute in Hlate. injection Hlate as <-. reflexivity.
Defined.

(** ** Validation as a gate *)


Lemma violations_none imageWidth imageHeight region :
  Spec.violations imageWidth imageHeight region = [] -> inside imageWidth imageHeight region.
Proof.
  unfold Spec.violations, inside.
  repeat case_bool_decide; cbn [app]; try discriminate. intros _. lia.
Qed.

Lemma flat_map_nil {A B : Type} (f : A -> list B) (l : list A) :
  flat_map f l = [] -> Forall (fun a => f a = []) l.
Proof.
  induction l as [| a l IH]; cbn [flat_map]; [constructor |].
  intros [Ha Hl]%app_eq_nil. constructor; [done | by apply IH].
Qed.

(** The verdict of [validateRegions], whatever the image library does. *)
Lemma validateRegions_verdict (sharp : Sharp) (imagePath : string) (regions : list Region)
    (now : Z) :
  exists v,
    validateRegions sharp imagePath regions now
    = mkPromise (now + Z.of_N (duration (metadata sharp imagePath))) (Resolved v)
    /\ (valid v = true <-> errors v = [])
    /\ (valid v = true ->
        exists imageWidth imageHeight,
          response (metadata sharp imagePath) = Resolved (Some imageWidth, Some imageHeight)
          /\ imageWidth <> 0 /\ imageHeight <> 0
          /\ Forall (inside imageWidth imageHeight) regions).
Proof.
  unfold validateRegions, await. cbn [outcome settledAt].
  destruct (response (metadata sharp imagePath)) as [[mw mh] | ?] eqn:Hmeta.
  2: { eexists. split; [reflexivity |]. cbn. split; [split |]; discriminate. }
  destruct (falsy mw || falsy mh) eqn:Hfalsy.
  { eexists. split; [reflexivity |]. cbn. split; [split |]; discriminate. }
  apply orb_false_iff in Hfalsy as [Hw Hh].
  destruct mw as [imageWidth |], mh as [imageHeight |]; try discriminate.
  cbn [falsy] in Hw, Hh. apply Z.eqb_neq in Hw, Hh.
  cbn [default]. rewrite validate_loop. cbn [app].
  eexists. split; [reflexivity |]. cbn [valid errors].
  assert (Nat.eqb (length (flat_map (Spec.violations imageWidth imageHeight) regions)) 0 = true
          <-> flat_map (Spec.violations imageWidth imageHeight) regions = []) as Hempty.
  { rewrite Nat.eqb_eq. split; [by intros ?%length_zero_iff_nil | by intros ->]. }
  split; [exact Hempty |].
  intros Hvalid%Hempty. exists imageWidth, imageHeight.
  split; [done |]. split; [done |]. split; [done |].
  apply flat_map_nil in Hvalid.
  eapply Forall_impl; [exact Hvalid |]. apply violations_none.
Qed.

(** X21. [validateRegions] never rejects: once the metadata call has
    settled it resolves, and the verdict [valid] is true exactly when no
    message is reported.  A request is only declared valid when the image
    could be read, with a width and a height that are not zero, and every
    region lies within the image and is at least 10 by 10 pixels. *)
Theorem validateRegions_sound (sharp : Sharp) (imagePath : string) (regions : list Region)
    (now : Z) :
  exists v,
    validateRegions sharp imagePath regions now
    = mkPromise (now + Z.of_N (duration (metadata sharp imagePath))) (Resolved v)
    /\ (valid v = true <-> errors v = [])
    /\ (valid v = true ->
        exists imageWidth imageHeight,
          response (metadata sharp imagePath) = Resolved (Some imageWidth, Some imageHeight)
          /\ imageWidth <> 0 /\ imageHeight <> 0
          /\ Forall (inside imageWidth imageHeight) regions).
Proof. apply validateRegions_verdict. Qed.

(** X22. The vision backend is consulted only for validated, fully cropped
    requests: if a run of the orchestrator pushes a result or records a
    retry notification, then the image file was found, every region of the
    request lies within the image and is at least 10 by 10 pixels, and the
    cropping of all regions had succeeded. *)
Theorem results_only_for_valid_requests (w : World) (sessions : gmap string OCRSession)
    (sid imageId : string) (regions : list Region) (now : Z) (e : Event) :
  In e (processOCRAsync w sessions sid imageId regions now) ->
  (forall st, e.2 <> Finish sid st) -> e.2 <> Cleanup ->
  exists names imageFile imageWidth imageHeight processedRegions,
    response (readdir w) = Resolved names
    /\ List.find (fun file => startsWith file (imageId +:+ "_")) names = Some imageFile
    /\ response (metadata (sharp w) (path_join (uploadDir w) imageFile))
       = Resolved (Some imageWidth, Some imageHeight)
    /\ Forall (inside imageWidth imageHeight) regions
    /\ outcome (cropRegions (sharp w) (path_join (uploadDir w) imageFile) regions
                  (now + Z.of_N (duration (readdir w))
                   + Z.of_N (duration (metadata (sharp w)
                                         (path_join (uploadDir w) imageFile)))))
       = Resolved processedRegions
    /\ map ImageProcessingService.regionId processedRegions = map id regions.
Proof.
  intros Hin Hfinish Hsweep. revert Hin. unfold processOCRAsync.
  assert (forall st t, In e (conclude sid st t) -> False) as Hend.
  { intros st t [<- | [<- | []]]; [by apply (Hfinish st) | by apply Hsweep]. }
  destruct (sessions !! sid); [| done].
  unfold await. cbn [outcome settledAt].
  destruct (response (readdir w)) as [names | ?] eqn:Hnames; [| by intros ?%Hend].
  destruct (List.find _ names) as [imageFile |] eqn:Hfile; [| by intros ?%Hend].
  cbn zeta.
  destruct (validateRegions_verdict (sharp w) (path_join (uploadDir w) imageFile) regions
              (now + Z.of_N (duration (readdir w)))) as (v & -> & _ & Hvalid).
  cbn [outcome settledAt].
  destruct (valid v); cbn [negb]; [| by intros ?%Hend].
  destruct (Hvalid eq_refl) as (imageWidth & imageHeight & Hmeta & _ & _ & Hinside).
  destruct (outcome (cropRegions _ _ _ _)) as [processedRegions |] eqn:Hcrop;
    [| by intros ?%Hend].
  intros _. exists names, imageFile, imageWidth, imageHeight, processedRegions.
  split; [done |]. split; [done |]. split; [done |]. split; [done |].
  split; [exact Hcrop |].
  apply crop_loop_ids in Hcrop. exact Hcrop.
Qed.

Lemma results_only_for_valid_requests_witness :
  let w := Examples.world None Examples.quick in
  let regions := [Examples.region "r1"] in
  let sessions : gmap string OCRSession :=
    {[ "s1" := mkSession "s1" "img1" regions [] processing 0 None ]} in
  let pushed :=
    (411, Push "s1" {| Types.regionId := "r1"; text := "Hello"; processingTime := 401;
                       error := None |}) in
  In pushed (processOCRAsync w sessions "s1" "img1" regions 0)
  /\ exists imageWidth imageHeight, Forall (inside imageWidth imageHeight) regions.
Proof.
  intros w regions sessions pushed.
  assert (In pushed (processOCRAsync w sessions "s1" "img1" regions 0)) as Hin.
  { vm_compute. by left. }
  split; [exact Hin |].
  destruct (results_only_for_valid_requests w sessions "s1" "img1" regions 0 pushed Hin)
    as (_ & _ & imageWidth & imageHeight & _ & _ & _ & _ & Hinside & _);
    [discriminate | discriminate |].
  by exists imageWidth, imageHeight.
Defined.

(** ** controllers/ocrController.ts: what the status endpoint reports *)

(** X23. The times reported by the status endpoint for a session created
    by the request handler at [now] (concurrency limit at least 1).  There
    is one instant [finishedAt], the end of the background run, such that a
    poll answered before it reports [processing], no success, and the time
    elapsed since [now]; and a poll answered from it on reports the final
    status, success exactly for [completed], and the duration of the run,
    [finishedAt - now], however late the poll is.  The reported total always
    is the number of regions submitted. *)
Theorem status_reply_times (w : World) (sessions : gmap string OCRSession)
    (uuid imageId : string) (regions : list Region) (now k : Z) :
  parseInt (or_default (env_OCR_CONCURRENCY_LIMIT w) "3") = Num k -> 0 < k ->
  let store := <[uuid := mkSession uuid imageId regions [] processing now None]> sessions in
  let events := processOCRAsync w store uuid imageId regions now in
  exists finishedAt,
    forall t statusResponse,
      getOCRStatus (storeAt events store t) uuid t = Json statusResponse ->
      progress_total statusResponse = length regions
      /\ (t < finishedAt ->
          resp_status statusResponse = processing
          /\ resp_success (resp_data statusResponse) = false
          /\ resp_processingTime (resp_data statusResponse) = t - now)
      /\ (finishedAt <= t ->
          (resp_status statusResponse = completed \/ resp_status statusResponse = failed)
          /\ resp_success (resp_data statusResponse)
             = status_eqb (resp_status statusResponse) completed
          /\ resp_processingTime (resp_data statusResponse) = finishedAt - now).
Proof.
  intros Hlimit Hk store events.
  set (s0 := mkSession uuid imageId regions [] processing now None) in *.
  assert (store !! uuid = Some s0) as Hs0 by apply lookup_insert_eq.
  destruct (processOCRAsync_trace w uuid store imageId regions now k) as
    [[Hneg _] | (body & newStatus & finishedAt & Hevents & Hbounds & Hsorted & Hend)];
    [by eexists | done | lia |].
  fold events in Hevents.
  exists finishedAt. intros t statusResponse Hpoll.
  unfold getOCRStatus in Hpoll.
  destruct (storeAt events store t !! uuid) as [session |] eqn:Hview; [| done].
  injection Hpoll as <-.
  cbn [progress_total resp_status resp_data resp_success resp_processingTime].
  rewrite Hevents in Hview.
  destruct (session_view uuid store body newStatus finishedAt s0 Hs0 eq_refl Hbounds Hsorted
              t session Hview)
    as (-> & -> & [(Hearly & -> & -> & _) | (Hlate & -> & -> & _)]);
    cbn [Types.regions createdAt status completedAt s0].
  - split; [done |]. split; [done |]. intros ?. lia.
  - split; [done |]. split; [intros ?; lia |]. intros _.
    split; [| done]. destruct Hend as [[-> _] | [-> _]]; auto.
Qed.

Lemma status_reply_times_witness :
  let w := Examples.world None Examples.quick in
  let regions := [Examples.region "r1"] in
  let store : gmap string OCRSession :=
    <["s1" := mkSession "s1" "img1" regions [] processing 0 None]> ∅ in
  let events := processOCRAsync w store "s1" "img1" regions 0 in
  exists finishedAt,
    forall t statusResponse,
      getOCRStatus (storeAt events store t) "s1" t = Json statusResponse ->
      finishedAt <= t ->
      resp_processingTime (resp_data statusResponse) = finishedAt - 0.
Proof.
  intros w regions store events.
  destruct (status_reply_times w ∅ "s1" "img1" regions 0 3 eq_refl ltac:(lia))
    as [finishedAt Hpolls].
  exists finishedAt. intros t statusResponse Hpoll Hlate.
  destruct (Hpolls t statusResponse Hpoll) as (_ & _ & Hdone).
  by destruct (Hdone Hlate) as (_ & _ & ?).
Defined.
